(** * lumen-lang refactoring scripts: a shallow embedding

    The three Python scripts [refactor_parsers.py], [refactor_parsers_phase2.py]
    and [refactor_to_lexeme.py] rewrite Rust parser sources with ordered
    [re.sub] calls and write the result back when it differs.

    Text is a list of characters.  A character is a code point below 256;
    the classes [\s], [\w] and [\d] are the ones Python's [re] uses for
    [str] patterns on that range. *)

From Stdlib Require Import Ascii String.
From Stdlib Require Import List Bool Arith Lia.
Import ListNotations.
Local Open Scope list_scope.

Set Implicit Arguments.

(** ** Text *)

Definition text := list ascii.

Definition str (s : string) : text := list_ascii_of_string s.

(** The characters a Rocq literal cannot hold conveniently. *)
Definition nl : ascii := ascii_of_nat 10.
Definition dq : ascii := ascii_of_nat 34.
Definition sq : ascii := ascii_of_nat 39.
Definition bs : ascii := ascii_of_nat 92.

Fixpoint starts_with (p s : text) : bool :=
  match p, s with
  | [], _ => true
  | a :: p', b :: s' => Ascii.eqb a b && starts_with p' s'
  | _ :: _, [] => false
  end.

(** Python's [needle in haystack] on [str]. *)
Fixpoint contains (needle hay : text) : bool :=
  starts_with needle hay ||
  match hay with
  | [] => false
  | _ :: hay' => contains needle hay'
  end.

Fixpoint text_eqb (a b : text) : bool :=
  match a, b with
  | [], [] => true
  | x :: a', y :: b' => Ascii.eqb x y && text_eqb a' b'
  | _, _ => false
  end.

(** ** Regular expressions, as [re] runs them

    Only the constructs the scripts use: literal characters, character sets,
    greedy [*], [+] and [?] on a single character set, capture groups and an
    alternation of literal words.  Matching is by backtracking, greedy first. *)

Module Re.

Inductive citem :=
  | Ch (c : ascii)
  | Rng (lo hi : ascii)
  | Space   (* \s *)
  | Word    (* \w *)
  | Digit.  (* \d *)

Inductive cset :=
  | Any (l : list citem)      (* [...] *)
  | NoneOf (l : list citem).  (* [^...] *)

Definition between (lo hi n : nat) : bool := (lo <=? n) && (n <=? hi).

Definition is_space (c : ascii) : bool :=
  let n := nat_of_ascii c in
  between 9 13 n || between 28 32 n || (n =? 133) || (n =? 160).

Definition is_digit (c : ascii) : bool := between 48 57 (nat_of_ascii c).

Definition is_word (c : ascii) : bool :=
  let n := nat_of_ascii c in
  between 48 57 n || between 65 90 n || between 97 122 n || (n =? 95) ||
  (n =? 170) || (n =? 178) || (n =? 179) || (n =? 181) || (n =? 185) ||
  (n =? 186) || between 188 190 n || between 192 214 n ||
  between 216 246 n || between 248 255 n.

Definition citem_mem (i : citem) (c : ascii) : bool :=
  match i with
  | Ch a => Ascii.eqb a c
  | Rng lo hi => between (nat_of_ascii lo) (nat_of_ascii hi) (nat_of_ascii c)
  | Space => is_space c
  | Word => is_word c
  | Digit => is_digit c
  end.

Definition cset_mem (s : cset) (c : ascii) : bool :=
  match s with
  | Any l => existsb (fun i => citem_mem i c) l
  | NoneOf l => negb (existsb (fun i => citem_mem i c) l)
  end.

Inductive item :=
  | Lit (c : ascii)
  | One (s : cset)
  | Star (s : cset)
  | Plus (s : cset)
  | Opt (s : cset)
  | Open (g : nat)
  | Close (g : nat)
  | Alt (ws : list text).

Definition pattern := list item.

Definition lit (s : string) : pattern := map Lit (str s).

(** Group marks: for each group, where it opened and, once closed, its span
    (offsets from the start of the match). *)
Record marks := Marks {
  opened : list (nat * nat);
  closed : list (nat * (nat * nat))
}.

Definition no_marks : marks := Marks [] [].

Fixpoint assoc {A} (g : nat) (l : list (nat * A)) : option A :=
  match l with
  | [] => None
  | (k, v) :: l' => if k =? g then Some v else assoc g l'
  end.

Definition mark_open (g pos : nat) (m : marks) : marks :=
  Marks ((g, pos) :: opened m) (closed m).

Definition mark_close (g pos : nat) (m : marks) : marks :=
  match assoc g (opened m) with
  | Some b => Marks (opened m) ((g, (b, pos)) :: closed m)
  | None => m
  end.

Section Star.
Variable R : Type.
Variable cs : cset.
Variable k : text -> nat -> option R.

(** Greedy repetition: take one more character when possible, and give it
    back when the rest of the pattern fails. *)
Fixpoint star_k (s : text) (pos : nat) : option R :=
  match s with
  | c :: s' =>
      if cset_mem cs c then
        match star_k s' (S pos) with
        | Some r => Some r
        | None => k s pos
        end
      else k s pos
  | [] => k s pos
  end.
End Star.

Section Alt.
Variable R : Type.
Variable k : text -> nat -> option R.

Fixpoint alt_k (ws : list text) (s : text) (pos : nat) : option R :=
  match ws with
  | [] => None
  | w :: ws' =>
      if starts_with w s then
        match k (skipn (length w) s) (pos + length w) with
        | Some r => Some r
        | None => alt_k ws' s pos
        end
      else alt_k ws' s pos
  end.
End Alt.

(** [run p s pos m]: match pattern [p] at the head of [s]; [pos] characters of
    the match are already consumed. *)
Fixpoint run (p : pattern) (s : text) (pos : nat) (m : marks)
  : option (nat * marks) :=
  match p with
  | [] => Some (pos, m)
  | Lit c :: p' =>
      match s with
      | c' :: s' => if Ascii.eqb c c' then run p' s' (S pos) m else None
      | [] => None
      end
  | One cs :: p' =>
      match s with
      | c' :: s' => if cset_mem cs c' then run p' s' (S pos) m else None
      | [] => None
      end
  | Star cs :: p' => star_k cs (fun s' pos' => run p' s' pos' m) s pos
  | Plus cs :: p' =>
      match s with
      | c' :: s' =>
          if cset_mem cs c'
          then star_k cs (fun s'' pos' => run p' s'' pos' m) s' (S pos)
          else None
      | [] => None
      end
  | Opt cs :: p' =>
      match s with
      | c' :: s' =>
          if cset_mem cs c' then
            match run p' s' (S pos) m with
            | Some r => Some r
            | None => run p' s pos m
            end
          else run p' s pos m
      | [] => run p' s pos m
      end
  | Open g :: p' => run p' s pos (mark_open g pos m)
  | Close g :: p' => run p' s pos (mark_close g pos m)
  | Alt ws :: p' => alt_k (fun s' pos' => run p' s' pos' m) ws s pos
  end.

(** A match object: its length and its groups. *)
Record mobj := Mobj {
  m_text : text;   (* the text the match started at *)
  m_len : nat;
  m_marks : marks
}.

Definition match_at (p : pattern) (s : text) : option mobj :=
  match run p s 0 no_marks with
  | Some (n, m) => Some (Mobj s n m)
  | None => None
  end.

(** [m.group(g)]; group 0 is the whole match, a group that did not take part
    is empty in a template. *)
Definition group (m : mobj) (g : nat) : text :=
  match g with
  | 0 => firstn (m_len m) (m_text m)
  | _ =>
      match assoc g (closed (m_marks m)) with
      | Some (b, e) => firstn (e - b) (skipn b (m_text m))
      | None => []
      end
  end.

(** Replacement templates: literal pieces and group references. *)
Inductive piece :=
  | T (s : text)
  | G (g : nat).

Definition expand (t : list piece) (m : mobj) : text :=
  flat_map (fun x => match x with T s => s | G g => group m g end) t.

(** [re.sub(p, repl, s, count)]: scan left to right; at each position not
    inside the previous match try [p]; [skip] counts the characters of the
    last match still to be passed; [count = None] is no limit. *)
Fixpoint sub_go (p : pattern) (repl : mobj -> text) (count : option nat)
    (s : text) (skip : nat) : text :=
  match skip with
  | S k =>
      match s with
      | [] => []
      | _ :: s' => sub_go p repl count s' k
      end
  | 0 =>
      match count with
      | Some 0 => s
      | _ =>
        let count' :=
          match count with Some n => Some (pred n) | None => None end in
        match s with
        | [] =>
            match match_at p [] with
            | Some m => repl m
            | None => []
            end
        | c :: s' =>
            match match_at p s with
            | Some m =>
                match m_len m with
                | 0 => repl m ++ c :: sub_go p repl count' s' 0
                | S k => repl m ++ sub_go p repl count' s' k
                end
            | None => c :: sub_go p repl count s' 0
            end
        end
      end
  end.

Definition sub_fn (p : pattern) (repl : mobj -> text) (s : text) : text :=
  sub_go p repl None s 0.

Definition sub (p : pattern) (t : list piece) (s : text) : text :=
  sub_fn p (expand t) s.

Definition sub_count (p : pattern) (t : list piece) (n : nat) (s : text) : text :=
  sub_go p (expand t) (Some n) s 0.

(** Does [p] match anywhere in [s]?  ([re.search(p, s) is not None]) *)
Fixpoint search (p : pattern) (s : text) : bool :=
  match match_at p s with
  | Some _ => true
  | None =>
      match s with
      | [] => false
      | _ :: s' => search p s'
      end
  end.

End Re.

Import Re.

(** ** Character sets and pattern pieces shared by the three scripts *)

Definition sp : cset := Any [Space].                         (* \s *)
Definition upper_ : cset := Any [Rng "A" "Z"; Ch "_"].       (* [A-Z_] *)
Definition upper_colon : cset := Any [Rng "A" "Z"; Ch "_"; Ch ":"]. (* [A-Z_:] *)
Definition not_rparen : cset := NoneOf [Ch ")"].   (* any but a closing parenthesis *)
Definition not_rbrace : cset := NoneOf [Ch "}"].   (* any but a closing brace *)
Definition not_dq : cset := NoneOf [Ch dq].        (* any but a double quote *)
Definition word : cset := Any [Word].                        (* \w *)
Definition digit09 : cset := Any [Rng "0" "9"].              (* [0-9] *)
Definition digit : cset := Any [Digit].                      (* \d *)
Definition comma : cset := Any [Ch ","].
Definition semicolon : cset := Any [Ch ";"].

Definition ws0 : pattern := [Star sp].   (* \s* *)
Definition ws1 : pattern := [Plus sp].   (* \s+ *)
Definition grp (g : nat) (p : pattern) : pattern := Open g :: p ++ [Close g].

(** The marker comment and the strings the guards look for. *)
Definition register_sig : text := str "pub fn register(reg: &mut Registry)".
Definition marker_head : text := str "// No token registration needed".
Definition marker : text :=
  str "// No token registration needed - kernel handles all segmentation".
Definition token_import : text := str "use crate::kernel::lexer::Token;".
Definition token_ref : text := str "Token::".

Definition ident_check : text :=
  str "parser.peek().lexeme.chars().next().map_or(false, |c| c.is_alphabetic() || c == "
  ++ [sq] ++ str "_" ++ [sq] ++ str ")".
Definition digit_check : text :=
  str "parser.peek().lexeme.chars().next().map_or(false, |c| c.is_ascii_digit())".

(** In refactor_parsers.py the same replacement is a raw string, in which
    each quote has a backslash before it; [re.sub] keeps an escape it does not
    know, so the backslashes are written out. *)
Definition ident_check_raw : text :=
  str "parser.peek().lexeme.chars().next().map_or(false, |c| c.is_alphabetic() || c == "
  ++ [bs; sq] ++ str "_" ++ [bs; sq] ++ str ")".

(** ** refactor_parsers.py *)

Module Parsers.

Definition p1 : pattern :=
  lit "matches!(parser.peek()," ++ ws0 ++ lit "Token::Feature("
  ++ grp 1 [Plus upper_] ++ lit "))".
Definition t1 : list piece := [T (str "parser.peek().lexeme == "); G 1].

Definition p2 : pattern :=
  lit "matches!(parser.peek()," ++ ws0 ++ lit "Token::Feature(k)" ++ ws1
  ++ lit "if" ++ ws1 ++ lit "*k" ++ ws1 ++ lit "==" ++ ws1
  ++ grp 1 [Plus upper_] ++ lit ")".
Definition t2 : list piece := [T (str "parser.peek().lexeme == "); G 1].

Definition p3 : pattern :=
  lit "matches!(parser.peek()," ++ ws0 ++ lit "Token::Ident(_))".
Definition t3 : list piece := [T ident_check_raw].

Definition p4 : pattern :=
  lit "matches!(" ++ ws0 ++ lit "parser.peek()," ++ ws0 ++ lit "Token::Ident("
  ++ [Plus not_rparen] ++ lit ")" ++ ws1 ++ lit "if" ++ ws1 ++ [Plus word]
  ++ ws1 ++ lit "==" ++ ws1 ++ [Lit dq] ++ grp 1 [Plus not_dq] ++ [Lit dq]
  ++ ws0 ++ lit ")".
Definition t4 : list piece :=
  [T (str "parser.peek().lexeme == " ++ [dq]); G 1; T [dq]].

Definition p5 : pattern :=
  lit "matches!(parser.peek()," ++ ws0 ++ lit "Token::Number(_))".
Definition t5 : list piece := [T digit_check].

(** Rule 6 is written twice in the source, with one pattern and two
    replacements. *)
Definition p6 : pattern :=
  lit "matches!(parser.peek()," ++ ws0 ++ lit "Token::Feature(TRUE)" ++ ws0
  ++ lit "|" ++ ws0 ++ lit "Token::Feature(FALSE))".
Definition bool_lower : text :=
  str "(parser.peek().lexeme == " ++ [dq] ++ str "true" ++ [dq]
  ++ str " || parser.peek().lexeme == " ++ [dq] ++ str "false" ++ [dq] ++ str ")".
Definition bool_upper : text :=
  str "(parser.peek().lexeme == " ++ [dq] ++ str "TRUE" ++ [dq]
  ++ str " || parser.peek().lexeme == " ++ [dq] ++ str "FALSE" ++ [dq] ++ str ")".
Definition t6a : list piece := [T bool_lower].
Definition t6b : list piece := [T bool_upper].

Definition p7 (variant : string) : pattern :=
  lit "match" ++ ws1 ++ lit "parser.advance()" ++ ws0 ++ lit "{" ++ ws0
  ++ lit "Token::" ++ lit variant ++ lit "(s)" ++ ws0 ++ lit "=>" ++ ws0
  ++ lit "s," ++ ws0 ++ lit "_" ++ ws0 ++ lit "=>" ++ ws0
  ++ lit "unreachable!()" ++ [Opt comma] ++ ws0 ++ lit "}".
Definition t7 : list piece := [T (str "parser.advance().lexeme")].

Definition p8 : pattern :=
  lit "match" ++ ws1 ++ lit "parser.advance()" ++ ws0 ++ lit "{" ++ ws0
  ++ lit "Token::Feature(TRUE)" ++ ws0 ++ lit "=>" ++ ws0
  ++ lit "Ok(Box::new(BoolLiteral" ++ ws0 ++ lit "{" ++ ws0 ++ lit "value:"
  ++ ws0 ++ lit "true" ++ ws0 ++ lit "}))," ++ ws0
  ++ lit "Token::Feature(FALSE)" ++ ws0 ++ lit "=>" ++ ws0
  ++ lit "Ok(Box::new(BoolLiteral" ++ ws0 ++ lit "{" ++ ws0 ++ lit "value:"
  ++ ws0 ++ lit "false" ++ ws0 ++ lit "}))," ++ ws0
  ++ lit "_" ++ ws0 ++ lit "=>" ++ ws0 ++ lit "unreachable!()"
  ++ [Opt comma] ++ ws0 ++ lit "}".
Definition t8 : list piece :=
  [T (str "{ let value = parser.advance().lexeme == " ++ [dq] ++ str "true"
      ++ [dq] ++ str "; Ok(Box::new(BoolLiteral { value })) }")].

Definition p9 : pattern :=
  lit "match" ++ ws1 ++ lit "parser.advance()" ++ ws0 ++ lit "{" ++ ws0
  ++ lit "Token::Feature(k)" ++ ws1 ++ lit "if" ++ ws1 ++ lit "k" ++ ws1
  ++ lit "==" ++ ws1 ++ grp 1 [Plus upper_] ++ ws0 ++ lit "=>" ++ ws0
  ++ lit "{}," ++ ws0 ++ lit "_" ++ ws0 ++ lit "=>" ++ ws0 ++ lit "return"
  ++ ws1 ++ lit "Err(" ++ grp 2 [Plus not_rparen] ++ lit ")" ++ [Opt comma]
  ++ ws0 ++ lit "}".
Definition t9 : list piece :=
  [T (str "if parser.advance().lexeme != "); G 1; T (str " { return Err(");
   G 2; T (str "); }")].

Definition p10 : pattern :=
  lit "parser.peek_n(" ++ grp 1 [Plus digit09] ++ lit ").map_or(false," ++ ws0
  ++ lit "|t|" ++ ws0 ++ lit "matches!(t," ++ ws0 ++ lit "Token::Feature("
  ++ grp 2 [Plus upper_] ++ lit ")))".
Definition t10 : list piece :=
  [T (str "parser.peek_n("); G 1; T (str ").map_or(false, |t| t.lexeme == ");
   G 2; T (str ")")].

Definition p11 : pattern :=
  lit "(Token::Ident(_)," ++ ws0 ++ lit "Some(Token::Feature("
  ++ grp 1 [Plus upper_] ++ lit ")))".
Definition t11 : list piece :=
  [T (str "(tok, Some(next)) if tok.lexeme.chars().next().map_or(false, |c| c.is_alphabetic() || c == "
      ++ [bs; sq] ++ str "_" ++ [bs; sq] ++ str ") && next.lexeme == "); G 1].

Definition p12 : pattern := lit "use crate::kernel::lexer::Token;" ++ [Lit nl].

Definition p13 (call : string) : pattern :=
  ws0 ++ lit "reg.tokens." ++ lit call ++ lit "(" ++ [Plus not_rparen]
  ++ lit ");" ++ [Lit nl].

Definition p14 : pattern :=
  grp 1 (lit "pub fn register(reg: &mut Registry)" ++ ws0 ++ lit "{" ++ ws0)
  ++ [Lit nl].
Definition t14 : list piece :=
  [G 1; T (nl :: str "    " ++ marker ++ [nl])].

Definition p15a : pattern :=
  lit "// Register tokens" ++ ws0 ++ [Lit nl] ++ ws0 ++ [Lit nl].
Definition p15b : pattern :=
  lit "// Token definitions" ++ ws0 ++ [Lit nl] ++ ws0 ++ [Lit nl] ++ ws0
  ++ lit "pub const".
Definition t15b : list piece := [T (str "pub const")].

(** Rules 1 to 11: the unconditional rewrites, in source order. *)
Definition rules_1_11 (content : text) : text :=
  let content := sub p1 t1 content in
  let content := sub p2 t2 content in
  let content := sub p3 t3 content in
  let content := sub p4 t4 content in
  let content := sub p5 t5 content in
  let content := sub p6 t6a content in
  let content := sub p6 t6b content in
  let content := sub (p7 "Ident") t7 content in
  let content := sub (p7 "Number") t7 content in
  let content := sub p8 t8 content in
  let content := sub p9 t9 content in
  let content := sub p10 t10 content in
  sub p11 t11 content.

(** Rule 12: drop the import when no [Token::] is left. *)
Definition rule_12 (content : text) : text :=
  if negb (contains token_ref content) && contains token_import content
  then sub p12 [] content
  else content.

(** Rule 13: drop the three kinds of registration call. *)
Definition rule_13 (content : text) : text :=
  let content := sub (p13 "add_keyword") [] content in
  let content := sub (p13 "add_single_char") [] content in
  sub (p13 "add_two_char") [] content.

(** Rule 14: add the marker comment. *)
Definition rule_14 (original content : text) : text :=
  if contains register_sig content && negb (text_eqb original content) then
    if negb (contains marker_head content)
    then sub_count p14 t14 1 content
    else content
  else content.

(** Rule 15: drop the emptied comment headers. *)
Definition rule_15 (content : text) : text :=
  let content := sub p15a [] content in
  sub p15b t15b content.

Definition refactor_content (content : text) : text :=
  let original := content in
  let content := rules_1_11 content in
  let content := rule_12 content in
  let content := rule_13 content in
  let content := rule_14 original content in
  rule_15 content.

End Parsers.

(** ** refactor_parsers_phase2.py *)

Module Phase2.

Definition p1 : pattern :=
  lit "match" ++ ws1 ++ lit "parser.advance()" ++ ws0 ++ lit "{" ++ ws0
  ++ lit "Token::Number(s)" ++ ws0 ++ lit "=>" ++ ws0 ++ lit "Ok("
  ++ grp 1 [Plus not_rbrace] ++ lit "})," ++ ws0 ++ lit "_" ++ ws0 ++ lit "=>"
  ++ ws0 ++ lit "unreachable!()" ++ [Opt comma] ++ ws0 ++ lit "}".
Definition t1 : list piece :=
  [T (str "let s = parser.advance().lexeme; Ok("); G 1; T (str "})")].

Definition p2 : pattern := Parsers.p7 "Ident".
Definition t2 : list piece := [T (str "parser.advance().lexeme")].

Definition p3 : pattern :=
  lit "match" ++ ws1 ++ lit "parser.advance()" ++ ws0 ++ lit "{" ++ ws0
  ++ lit "Token::Feature(" ++ grp 1 [Plus upper_colon] ++ lit ")" ++ ws0
  ++ lit "=>" ++ ws0 ++ lit "{}" ++ [Opt comma] ++ ws0 ++ lit "_" ++ ws0
  ++ lit "=>" ++ ws0 ++ lit "return" ++ ws1 ++ lit "Err("
  ++ grp 2 [Plus not_rparen] ++ lit ")" ++ [Opt comma] ++ ws0 ++ lit "}".
Definition t3 : list piece :=
  [T (str "if parser.advance().lexeme != "); G 1; T (str " { return Err(");
   G 2; T (str "); }")].

Definition guard_or : pattern :=
  lit "matches!(parser.peek()," ++ ws0 ++ lit "Token::Feature(k)" ++ ws1
  ++ lit "if" ++ ws1 ++ lit "*k" ++ ws1 ++ lit "==" ++ ws1
  ++ grp 1 [Plus upper_] ++ ws1 ++ lit "||" ++ ws1 ++ lit "*k" ++ ws1
  ++ lit "==" ++ ws1 ++ grp 2 [Plus upper_] ++ lit ")".

Definition p4 : pattern := guard_or.
Definition t4 : list piece :=
  [T (str "(parser.peek().lexeme == "); G 1;
   T (str " || parser.peek().lexeme == "); G 2; T (str ")")].

Definition p5 : pattern := lit "while" ++ ws1 ++ lit "!" ++ guard_or.
Definition t5 : list piece :=
  [T (str "while parser.peek().lexeme != "); G 1;
   T (str " && parser.peek().lexeme != "); G 2].

Definition p6 : pattern :=
  grp 1 ws1 ++ lit "Token::Feature(" ++ grp 2 [Plus upper_colon] ++ lit ")"
  ++ ws0 ++ lit "=>" ++ ws0 ++ lit "{}".
Definition t6 : list piece :=
  [G 1; T (str "_ if parser.peek().lexeme == "); G 2; T (str " => {}")].

Definition p7 : pattern :=
  lit "tok:" ++ ws0 ++ lit "Token::Feature(" ++ grp 1 [Plus upper_] ++ lit ")".
Definition t7 : list piece :=
  [T (str "tok: Token::new("); G 1; T (str ".to_string())")].

Definition refactor_content_phase2 (content : text) : text :=
  let content := sub p1 t1 content in
  let content := sub p2 t2 content in
  let content := sub p3 t3 content in
  let content := sub p4 t4 content in
  let content := sub p5 t5 content in
  let content := sub p6 t6 content in
  sub p7 t7 content.

End Phase2.

(** ** refactor_to_lexeme.py *)

Module Lexeme.

Definition p1 : pattern := Parsers.p1.
Definition p2 : pattern := Parsers.p2.
Definition p3 : pattern := Parsers.p3.
Definition p4 : pattern :=
  lit "matches!(parser.peek()," ++ ws0 ++ lit "Token::Ident("
  ++ [Plus not_rparen] ++ lit ")" ++ ws1 ++ lit "if" ++ ws1 ++ [Plus word]
  ++ ws1 ++ lit "==" ++ ws1 ++ [Lit dq] ++ grp 1 [Plus not_dq] ++ [Lit dq]
  ++ lit ")".
Definition p5 : pattern := Parsers.p5.

Definition p6 : pattern :=
  lit "match" ++ ws1 ++ lit "parser.advance()" ++ ws0 ++ lit "{"
  ++ grp 1 [Plus not_rbrace] ++ lit "}".

Definition p_guard : pattern :=
  lit "Token::Feature(k)" ++ ws1 ++ lit "if" ++ ws1 ++ lit "k" ++ ws1
  ++ lit "==" ++ ws1 ++ grp 1 [Plus upper_].
Definition t_guard : list piece :=
  [T (str "_ if parser.peek().lexeme == "); G 1].

Definition refactor_match_advance (match_block : mobj) : text :=
  let content := group match_block 0 in
  sub p_guard t_guard content.

Definition p7 : pattern :=
  lit "match" ++ ws1 ++ lit "parser.advance()" ++ ws0 ++ lit "{" ++ ws0
  ++ lit "Token::" ++ grp 1 [Alt [str "Ident"; str "Number"]] ++ lit "(s)"
  ++ ws0 ++ lit "=>" ++ ws0 ++ lit "s,".
Definition t7 : list piece := [T (str "let lexeme = parser.advance().lexeme;")].

Definition p8 : pattern :=
  lit "match" ++ ws1 ++ lit "parser.advance()" ++ ws0 ++ lit "{" ++ ws0
  ++ lit "Token::Feature(k)" ++ ws1 ++ lit "if" ++ ws1 ++ lit "k" ++ ws1
  ++ lit "==" ++ ws1 ++ grp 1 [Plus upper_] ++ ws0 ++ lit "=>" ++ ws0
  ++ lit "{}".
Definition t8 : list piece :=
  [T (str "if parser.advance().lexeme != "); G 1; T (str " {")].

Definition p9 : pattern :=
  lit "parser.peek_n(" ++ grp 1 [Plus digit] ++ lit ").map_or(false," ++ ws0
  ++ lit "|t|" ++ ws0 ++ lit "matches!(t," ++ ws0 ++ lit "Token::Feature("
  ++ grp 2 [Plus upper_] ++ lit ")))".

Definition refactor_token_matches (content : text) : text :=
  let content := sub p1 Parsers.t1 content in
  let content := sub p2 Parsers.t2 content in
  let content := sub p3 [T ident_check] content in
  let content := sub p4 Parsers.t4 content in
  let content := sub p5 [T digit_check] content in
  let content := sub_fn p6 refactor_match_advance content in
  let content := sub p7 t7 content in
  let content := sub p8 t8 content in
  sub p9 Parsers.t10 content.

Definition p_reg (call : string) : pattern :=
  ws0 ++ lit "reg.tokens." ++ lit call ++ lit "(" ++ [Plus not_rparen]
  ++ lit ")" ++ [Opt semicolon] ++ [Lit nl].

Definition remove_token_registration (content : text) : text :=
  let content := sub (p_reg "add_keyword") [] content in
  let content := sub (p_reg "add_single_char") [] content in
  sub (p_reg "add_two_char") [] content.

Definition p_marker : pattern :=
  grp 1 (lit "pub fn register(reg: &mut Registry) {" ++ ws0 ++ [Lit nl]).
Definition t_marker : list piece :=
  [G 1; T (str "    " ++ marker ++ [nl])].

(** The text [process_file] computes between reading and writing. *)
Definition transform (original : text) : text :=
  let content := original in
  let content := refactor_token_matches content in
  let content := remove_token_registration content in
  if contains register_sig content && contains (str "reg.tokens.") original
  then sub p_marker t_marker content
  else content.

(** [LANG_LEXEMES], in source order. *)
Definition LANG_LEXEMES : list (string * list string) :=
  [ ("mini_rust",
     ["=="; "!="; "<="; ">="; "&&"; "||"; ":=";
      "let"; "if"; "else"; "while"; "break"; "continue"; "print"; "true"; "false"]);
    ("mini_c",
     ["=="; "!="; "<="; ">=";
      "and"; "or"; "not"; "if"; "else"; "while"; "break"; "continue"; "printf"; "true"; "false"]);
    ("mini_php",
     ["=="; "!="; "<="; ">="; "==="; "!==";
      "and"; "or"; "not"; "if"; "else"; "while"; "break"; "continue"; "echo"; "true"; "false"]);
    ("mini_sh",
     ["=="; "!="; "<="; ">=";
      "and"; "or"; "not"; "if"; "else"; "while"; "break"; "continue"; "echo"; "true"; "false"]);
    ("mini_apple_basic",
     ["=="; "!="; "<="; ">=";
      "AND"; "OR"; "NOT"; "IF"; "ELSE"; "WHILE"; "BREAK"; "CONTINUE"; "PRINT"; "TRUE"; "FALSE"]);
    ("mini_apple_pascal",
     ["=="; "!="; "<="; ">="; ":=";
      "and"; "or"; "not"; "if"; "else"; "while"; "break"; "continue"; "writeln"; "true"; "false"])
  ]%string.

Fixpoint lookup_lexemes (name : string) (tbl : list (string * list string))
  : list string :=
  match tbl with
  | [] => []
  | (k, v) :: tbl' => if String.eqb k name then v else lookup_lexemes name tbl'
  end.

(** [sep.join(l)] *)
Fixpoint join (sep : text) (l : list text) : text :=
  match l with
  | [] => []
  | [x] => x
  | x :: l' => x ++ sep ++ join sep l'
  end.

Definition registration (lang_name : string) : text :=
  let lexemes := lookup_lexemes lang_name LANG_LEXEMES in
  let lexeme_list :=
    join (str "," ++ [nl] ++ str "        ")
         (map (fun lex => [dq] ++ str lex ++ [dq]) lexemes) in
  str "    // Register multi-character lexemes for maximal-munch segmentation" ++ [nl]
  ++ str "    // The kernel lexer will use these for pure lossless ASCII segmentation" ++ [nl]
  ++ str "    registry.tokens.set_multichar_lexemes(vec![" ++ [nl]
  ++ str "        " ++ lexeme_list ++ str "," ++ [nl]
  ++ str "    ]);" ++ [nl]
  ++ [nl].

Definition p_register_all : pattern :=
  grp 1 (lit "pub fn register_all(" ++ [Plus not_rparen] ++ lit ") {" ++ ws0
         ++ [Lit nl]).

(** The text [update_dispatcher] writes back. *)
Definition augment (lang_name : string) (content : text) : text :=
  sub p_register_all [G 1; T (registration lang_name)] content.

End Lexeme.

(** ** The file system and the console, as the scripts use them

    A world holds the files, the directory listing and a trace of what the
    script did.  [read_text] and [write_text] may raise; a script's [print]
    is a trace event.

    [Path.read_text] decodes with universal newlines: a CRLF or a CR on disk
    arrives as LF.  A file is therefore held as the text a read gives,
    together with [cr_ends], which says whether its bytes on disk have such
    line ends; [Path.write_text] stores LF as it is on the POSIX paths the
    scripts work on, so a write clears [cr_ends]. *)

Module IO.

Local Open Scope string_scope.

Inductive outcome (A : Type) :=
  | Ret (a : A)
  | Raise (e : string).
Arguments Ret {A} a.
Arguments Raise {A} e.

Record file := File {
  f_data : text + string;      (* the text, or the error reading raises *)
  f_locked : option string     (* the error writing raises, if any *)
}.

Inductive line :=
  | LOk (path : string)                    (* the check-mark line *)
  | LFail (path : string) (e : string)     (* the cross line *)
  | LRule
  | LProcessing (lang : string)
  | LComplete (changed total : nat)
  | LPhase2Complete (changed total : nat)
  | LUpdated (path : string)
  | LUpdatedDispatcher (path : string).

Inductive event :=
  | Read (path : string)
  | Write (path : string) (t : text)
  | Print (l : line).

Record world := World {
  files : string -> option file;
  is_dir : string -> bool;              (* Path.exists on a module root *)
  rglob_rs : string -> list string;     (* lang_path.rglob of the .rs files *)
  trace : list event;                   (* oldest first *)
  cr_ends : string -> bool              (* CRLF or CR line ends on disk *)
}.

Definition M (A : Type) := world -> outcome A * world.

Definition ret {A} (a : A) : M A := fun w => (Ret a, w).

Definition bind {A B} (m : M A) (f : A -> M B) : M B :=
  fun w =>
    match m w with
    | (Ret a, w') => f a w'
    | (Raise e, w') => (Raise e, w')
    end.

Notation "x <- m ;; k" := (bind m (fun x => k))
  (at level 61, m at next level, right associativity).
Notation "m ;;; k" := (bind m (fun _ => k))
  (at level 61, right associativity).

(** [try: body except Exception as e: handler e] *)
Definition try_except {A} (body : M A) (handler : string -> M A) : M A :=
  fun w =>
    match body w with
    | (Ret a, w') => (Ret a, w')
    | (Raise e, w') => handler e w'
    end.

Definition emit (e : event) (w : world) : world :=
  World (files w) (is_dir w) (rglob_rs w) (trace w ++ [e]) (cr_ends w).

Definition put_file (path : string) (t : text) (w : world) : world :=
  World (fun q => if String.eqb q path then Some (File (inl t) None) else files w q)
        (is_dir w) (rglob_rs w) (trace w)
        (fun q => if String.eqb q path then false else cr_ends w q).

Definition print (l : line) : M unit := fun w => (Ret tt, emit (Print l) w).

Definition read_text (path : string) : M text :=
  fun w =>
    let w' := emit (Read path) w in
    match files w path with
    | Some f =>
        match f_data f with
        | inl t => (Ret t, w')
        | inr e => (Raise e, w')
        end
    | None => (Raise "FileNotFoundError", w')
    end.

Definition write_text (path : string) (t : text) : M unit :=
  fun w =>
    let w' := emit (Write path t) w in
    match files w path with
    | Some f =>
        match f_locked f with
        | Some e => (Raise e, w')
        | None => (Ret tt, put_file path t w')
        end
    | None => (Ret tt, put_file path t w')
    end.

Definition file_exists (path : string) : M bool :=
  fun w => (Ret (match files w path with Some _ => true | None => false end), w).

Definition dir_exists (path : string) : M bool :=
  fun w => (Ret (is_dir w path), w).

Definition rglob (path : string) : M (list string) :=
  fun w => (Ret (rglob_rs w path), w).

(** [for x in l: st = body x st] *)
Fixpoint for_each {A S} (l : list A) (body : A -> S -> M S) (st : S) : M S :=
  match l with
  | [] => ret st
  | x :: l' => st' <- body x st ;; for_each l' body st'
  end.

(** [a / b] on paths, and [str(path)] *)
Definition pjoin (a b : string) : string := a ++ "/" ++ b.

Definition base : string := "/home/user/lumen-lang".

(** ['examples' in str(path)] *)
Definition is_example (path : string) : bool :=
  contains (str "examples") (str path).

(** The [process_file] of refactor_parsers.py and of
    refactor_parsers_phase2.py: one body, two transformations. *)
Definition process_file_with (refactor : text -> text) (filepath : string)
  : M bool :=
  try_except
    (content <- read_text filepath ;;
     let refactored := refactor content in
     if negb (text_eqb refactored content) then
       write_text filepath refactored ;;;
       print (LOk filepath) ;;;
       ret true
     else ret false)
    (fun e => print (LFail filepath e) ;;; ret false).

(** The inner loop of both [main]s; the state is
    [(changed_count, total_count)]. *)
Definition count_files (process_file : string -> M bool) (files : list string)
  : nat * nat -> M (nat * nat) :=
  for_each files (fun rs_file '(changed_count, total_count) =>
    if is_example rs_file then ret (changed_count, total_count)
    else
      let total_count := total_count + 1 in
      changed <- process_file rs_file ;;
      if (changed : bool) then ret (changed_count + 1, total_count)
      else ret (changed_count, total_count)).

End IO.

Import IO.

Module ParsersMain.

Definition process_file : string -> M bool :=
  process_file_with Parsers.refactor_content.

Definition langs : list string :=
  ["mini_rust"; "mini_c"; "mini_php"; "mini_sh"; "mini_apple_basic";
   "mini_apple_pascal"]%string.

(** The body of the loop over the modules. *)
Definition process_module (lang : string) (counts : nat * nat)
  : M (nat * nat) :=
  let lang_path := pjoin base ("src_" ++ lang)%string in
  present <- dir_exists lang_path ;;
  if (present : bool) then
    print LRule ;;; print (LProcessing lang) ;;; print LRule ;;;
    rs_files <- rglob lang_path ;;
    count_files process_file rs_files counts
  else ret counts.

Definition main : M (nat * nat) :=
  counts <- for_each langs process_module (0, 0) ;;
  print LRule ;;;
  print (LComplete (fst counts) (snd counts)) ;;;
  print LRule ;;;
  ret counts.

End ParsersMain.

Module Phase2Main.

Definition process_file : string -> M bool :=
  process_file_with Phase2.refactor_content_phase2.

Definition langs : list string :=
  ["lumen"; "mini_rust"; "mini_c"; "mini_php"; "mini_sh"; "mini_apple_basic";
   "mini_apple_pascal"]%string.

(** The body of the loop over the modules. *)
Definition process_module (lang : string) (counts : nat * nat)
  : M (nat * nat) :=
  let lang_path := pjoin base ("src_" ++ lang)%string in
  present <- dir_exists lang_path ;;
  if (present : bool) then
    print (LProcessing lang) ;;;
    rs_files <- rglob lang_path ;;
    count_files process_file rs_files counts
  else ret counts.

Definition main : M (nat * nat) :=
  counts <- for_each langs process_module (0, 0) ;;
  print (LPhase2Complete (fst counts) (snd counts)) ;;;
  ret counts.

End Phase2Main.

Module LexemeMain.

Definition update_dispatcher (lang_path lang_name : string) : M unit :=
  let dispatcher_file := pjoin lang_path ("src_" ++ lang_name ++ ".rs")%string in
  present <- file_exists dispatcher_file ;;
  if (present : bool) then
    content <- read_text dispatcher_file ;;
    let content := Lexeme.augment lang_name content in
    write_text dispatcher_file content ;;;
    print (LUpdatedDispatcher dispatcher_file)
  else ret tt.

(** No [try] here: what [read_text] or [write_text] raises leaves the
    function. *)
Definition process_file (filepath : string) : M unit :=
  if is_example filepath then ret tt
  else
    content <- read_text filepath ;;
    let original := content in
    let content := Lexeme.transform original in
    if negb (text_eqb content original) then
      write_text filepath content ;;;
      print (LUpdated filepath)
    else ret tt.

Definition main : M unit :=
  for_each (map fst Lexeme.LANG_LEXEMES) (fun lang_name (_ : unit) =>
    let lang_path := pjoin base ("src_" ++ lang_name)%string in
    present <- dir_exists lang_path ;;
    if (present : bool) then
      print (LProcessing lang_name) ;;;
      update_dispatcher lang_path lang_name ;;;
      rs_files <- rglob lang_path ;;
      for_each rs_files (fun rs_file (_ : unit) => process_file rs_file) tt
    else ret tt) tt.

End LexemeMain.

(** * Statements' vocabulary *)

(** [settled ps s]: none of the patterns [ps] matches anywhere in [s]. *)
Definition settled (ps : list pattern) (s : text) : bool :=
  forallb (fun p => negb (search p s)) ps.

Module Catalog.

(** The patterns [refactor_content] applies whatever the text holds. *)
Definition parsers : list pattern :=
  [Parsers.p1; Parsers.p2; Parsers.p3; Parsers.p4; Parsers.p5; Parsers.p6;
   Parsers.p7 "Ident"; Parsers.p7 "Number"; Parsers.p8; Parsers.p9;
   Parsers.p10; Parsers.p11;
   Parsers.p13 "add_keyword"; Parsers.p13 "add_single_char";
   Parsers.p13 "add_two_char"; Parsers.p15a; Parsers.p15b].

(** Rule 12 is at rest when a [Token::] is left or the import line is not
    there; rule 14 never fires on a text no other rule changed. *)
Definition parsers_settled (s : text) : bool :=
  settled parsers s
  && (contains token_ref s || negb (search Parsers.p12 s)).

(** For the block rule of refactor_to_lexeme.py the pattern that counts is
    the guard its callback rewrites inside a block. *)
Definition lexeme : list pattern :=
  [Lexeme.p1; Lexeme.p2; Lexeme.p3; Lexeme.p4; Lexeme.p5; Lexeme.p_guard;
   Lexeme.p7; Lexeme.p8; Lexeme.p9;
   Lexeme.p_reg "add_keyword"; Lexeme.p_reg "add_single_char";
   Lexeme.p_reg "add_two_char"].

Definition phase2 : list pattern :=
  [Phase2.p1; Phase2.p2; Phase2.p3; Phase2.p4; Phase2.p5; Phase2.p6;
   Phase2.p7].

(** The pipeline of refactor_to_lexeme.py without the marker step. *)
Definition lexeme_pipeline (content : text) : text :=
  Lexeme.remove_token_registration (Lexeme.refactor_token_matches content).

End Catalog.

(** Inputs on which a second run changes the text again. *)
Module Rerun.

Definition parsers_input : text :=
  str "// Register // Register tokens" ++ [nl; nl] ++ str "tokens" ++ [nl; nl]
  ++ str "fn f() {}".

Definition lexeme_input : text :=
  str "reg.tokens.add_keyw reg.tokens.add_single_char(x);" ++ [nl]
  ++ str "ord(y);" ++ [nl] ++ str "fn f() {}".

Definition phase2_input : text :=
  str "match parser.advance() { Token::Number(s) => Ok(match parser.advance() { Token::Number(s) => Ok(a}), _ => unreachable!() }, _ => unreachable!() }".

(** A text with one construct for each of rules 1, 6, 9 and 13. *)
Definition sample : text :=
  str "pub fn register(reg: &mut Registry) {" ++ [nl]
  ++ str "    // keywords" ++ [nl]
  ++ str "    reg.tokens.add_keyword(LET);" ++ [nl]
  ++ str "}" ++ [nl]
  ++ str "if matches!(parser.peek(), Token::Feature(LPAREN)) {" ++ [nl]
  ++ str "    match parser.advance() { Token::Feature(k) if k == LPAREN => {}, _ => return Err(MISSING), }" ++ [nl]
  ++ str "}" ++ [nl]
  ++ str "let b = matches!(parser.peek(), Token::Feature(TRUE) | Token::Feature(FALSE));" ++ [nl]
  ++ str "let e = match parser.advance() { Token::Feature(EOF) => {} _ => return Err(MISSING) };" ++ [nl].

End Rerun.


(** What a trace says about one path. *)
Definition touches (path : string) (e : event) : bool :=
  match e with
  | Read q => String.eqb q path
  | Write q _ => String.eqb q path
  | Print _ => false
  end.

Definition writes_to (path : string) (e : event) : bool :=
  match e with
  | Write q _ => String.eqb q path
  | _ => false
  end.

(** The events a computation adds to the trace of [w]. *)
Definition events {A} (m : M A) (w : world) : list event :=
  skipn (length (trace w)) (trace (snd (m w))).

(** The segments of a path, split at the slashes. *)
Fixpoint segments (s : text) : list text :=
  match s with
  | [] => [[]]
  | c :: s' =>
      if Ascii.eqb c "/" then [] :: segments s'
      else
        match segments s' with
        | seg :: rest => (c :: seg) :: rest
        | [] => [[c]]
        end
  end.

(** The files a [main] with the module list [langs] counts: under each module
    root that exists, the listed files that are not examples. *)
Definition eligible (langs : list string) (w : world) : list string :=
  flat_map
    (fun lang =>
       let lang_path := pjoin base ("src_" ++ lang)%string in
       if is_dir w lang_path
       then filter (fun f => negb (is_example f)) (rglob_rs w lang_path)
       else [])
    langs.

(** Worlds the statements are tried on. *)
Module Worlds.

Local Open Scope string_scope.

Definition root : string := "/home/user/lumen-lang/src_mini_rust".
Definition a_rs : string := "/home/user/lumen-lang/src_mini_rust/a.rs".
Definition b_rs : string := "/home/user/lumen-lang/src_mini_rust/b.rs".
Definition ex_rs : string := "/home/user/lumen-lang/src_mini_rust/examples/demo.rs".
Definition cex_rs : string :=
  "/home/user/lumen-lang/src_mini_rust/counterexamples/examples_utils.rs".
Definition locked_rs : string := "/home/user/lumen-lang/src_mini_rust/c.rs".
Definition dispatcher : string :=
  "/home/user/lumen-lang/src_mini_rust/src_mini_rust.rs".

Definition peek_text : text :=
  str "if matches!(parser.peek(), Token::Feature(LPAREN)) { }".
Definition plain_text : text := str "fn main() {}".

(** One module root; [a.rs] cannot be read, [b.rs] holds a construct to
    rewrite, [c.rs] too but cannot be written, two files sit under example
    paths, the dispatch file has no [register_all]. *)
Definition broken : world :=
  World
    (fun q =>
       if String.eqb q a_rs then Some (File (inr "PermissionError") None)
       else if String.eqb q b_rs then Some (File (inl peek_text) None)
       else if String.eqb q locked_rs
       then Some (File (inl peek_text) (Some "PermissionError"))
       else if String.eqb q ex_rs then Some (File (inl peek_text) None)
       else if String.eqb q cex_rs then Some (File (inl peek_text) None)
       else if String.eqb q dispatcher then Some (File (inl plain_text) None)
       else None)
    (fun d => String.eqb d root)
    (fun d =>
       if String.eqb d root then [ex_rs; a_rs; cex_rs; locked_rs; b_rs]
       else [])
    []
    (fun _ => false).

(** One module root whose dispatch file, without [register_all], cannot be
    written. *)
Definition sealed : world :=
  World
    (fun q =>
       if String.eqb q dispatcher
       then Some (File (inl plain_text) (Some "PermissionError"))
       else if String.eqb q b_rs then Some (File (inl peek_text) None)
       else None)
    (fun d => String.eqb d root)
    (fun d => if String.eqb d root then [b_rs] else [])
    []
    (fun _ => false).

(** One module root whose dispatch file, without [register_all], has CRLF
    line ends on disk. *)
Definition crlf : world :=
  World
    (fun q =>
       if String.eqb q dispatcher then Some (File (inl plain_text) None)
       else None)
    (fun d => String.eqb d root)
    (fun d => [])
    []
    (fun q => String.eqb q dispatcher).

End Worlds.


(** The error [read_text] raises on [path], if it does. *)
Definition read_error (w : world) (path : string) : option string :=
  match files w path with
  | Some f => match f_data f with inr e => Some e | inl _ => None end
  | None => Some "FileNotFoundError"%string
  end.

(** The writes among some events, and the write a change detector allows. *)
Definition writes (l : list event) : list event :=
  filter (fun e => match e with Write _ _ => true | _ => false end) l.

Definition changed_write (path : string) (before after : text) : list event :=
  if text_eqb after before then [] else [Write path after].

Definition unlocked (f : file) : bool :=
  match f_locked f with None => true | Some _ => false end.


(** Does the pattern hold the literal characters [l] in a row? *)
Fixpoint lits_at (l : text) (p : pattern) : bool :=
  match l, p with
  | [], _ => true
  | c :: l', Lit c' :: p' => Ascii.eqb c c' && lits_at l' p'
  | _, _ => false
  end.

Fixpoint has_lits (l : text) (p : pattern) : bool :=
  lits_at l p ||
  match p with
  | [] => false
  | _ :: p' => has_lits l p'
  end.


(** A file the migration has nothing to do on. *)
Definition migrated_text : text :=
  str "pub fn register(reg: &mut Registry) {" ++ [nl]
  ++ str "    // No token registration needed - kernel handles all segmentation" ++ [nl]
  ++ str "}" ++ [nl]
  ++ str "if parser.peek().lexeme == LPAREN { return Err(MISSING); }" ++ [nl].


(** A text with none of the strings the rules of refactor_parsers.py look
    for. *)
Definition unrelated (c : text) : bool :=
  negb (contains token_ref c)
  && negb (contains token_import c)
  && negb (contains (str "reg.tokens.") c)
  && negb (contains (str "// Register tokens") c)
  && negb (contains (str "// Token definitions") c).

(** [calm w w']: from [w] to [w'] no file and no listing changed, and the
    trace grew by events that are not writes. *)
Definition calm (w w' : world) : Prop :=
  files w' = files w /\ is_dir w' = is_dir w /\ rglob_rs w' = rglob_rs w
  /\ exists new, trace w' = trace w ++ new /\ writes new = [].

(** Every readable file of [w] holds a text [refactor] returns as it is. *)
Definition all_fixed (refactor : text -> text) (w : world) : Prop :=
  forall p f c, files w p = Some f -> f_data f = inl c -> refactor c = c.

(** A tree after migration: one module root, two migrated files, one of them
    unreadable. *)
Module Migrated.

Local Open Scope string_scope.

Definition tree : world :=
  World
    (fun q =>
       if String.eqb q Worlds.a_rs then Some (File (inr "PermissionError") None)
       else if String.eqb q Worlds.b_rs then Some (File (inl migrated_text) None)
       else if String.eqb q Worlds.locked_rs
       then Some (File (inl migrated_text) (Some "PermissionError"))
       else None)
    (fun d => String.eqb d Worlds.root)
    (fun d =>
       if String.eqb d Worlds.root
       then [Worlds.a_rs; Worlds.locked_rs; Worlds.b_rs]
       else [])
    []
    (fun _ => false).

End Migrated.


(** A repetition of [cs] cannot go on into [s]. *)
Definition stops (cs : cset) (s : text) : bool :=
  match s with
  | [] => true
  | c :: _ => negb (cset_mem cs c)
  end.

(** The construct rule 9 of refactor_parsers.py looks for, and what it
    becomes. *)
Definition consume_expect (const err : text) : text :=
  str "match parser.advance() { Token::Feature(k) if k == " ++ const
  ++ str " => {}, _ => return Err(" ++ err ++ str "), }".

Definition expect_check (const err : text) : text :=
  str "if parser.advance().lexeme != " ++ const ++ str " { return Err("
  ++ err ++ str "); }".


(** No match of [p] starts inside [pre] when [rest] follows it. *)
Fixpoint none_starts_in (p : pattern) (pre rest : text) : bool :=
  match pre with
  | [] => true
  | _ :: pre' =>
      match match_at p (pre ++ rest) with
      | None => none_starts_in p pre' rest
      | Some _ => false
      end
  end.

(** The construct rule 3 of refactor_parsers_phase2.py looks for. *)
Definition consume_expect_direct (const err : text) : text :=
  str "match parser.advance() { Token::Feature(" ++ const
  ++ str ") => {} _ => return Err(" ++ err ++ str ") }".


(** The texts rule 6 of refactor_parsers.py matches: the three literal parts
    with white space [w1], [w2], [w3] between them. *)
Definition bool_head : text := str "matches!(parser.peek(),".
Definition bool_true : text := str "Token::Feature(TRUE)".
Definition bool_false : text := str "Token::Feature(FALSE))".

Definition bool_alternation (w1 w2 w3 : text) : text :=
  bool_head ++ w1 ++ bool_true ++ w2 ++ str "|" ++ w3 ++ bool_false.

Definition all_space (w : text) : bool := forallb (cset_mem sp) w.

(** The characters such a text can hold. *)
Definition alternation_char (c : ascii) : bool :=
  cset_mem sp c
  || existsb (Ascii.eqb c) (bool_head ++ bool_true ++ str "|" ++ bool_false).

Definition ends_with (s suffix : text) : bool :=
  starts_with (rev suffix) (rev s).


(** The opening of a [register] function as rule 14 of refactor_parsers.py
    matches it (without the line end), and the marker line it adds. *)
Definition register_opening (w1 w2 : text) : text :=
  register_sig ++ w1 ++ str "{" ++ w2.

Definition marker_line : text := str "    " ++ marker ++ [nl].


(** [remains out s]: [out] is [s] with some characters taken out, the others
    in their order. *)
Inductive remains : text -> text -> Prop :=
  | remains_nil : remains [] []
  | remains_keep (c : ascii) (a b : text) : remains a b -> remains (c :: a) (c :: b)
  | remains_drop (c : ascii) (a b : text) : remains a b -> remains a (c :: b).

(** The block [update_dispatcher] builds for a module that is not in
    [LANG_LEXEMES]: the list of lexemes is empty and a lone comma is left. *)
Definition empty_registration : text :=
  str "    // Register multi-character lexemes for maximal-munch segmentation" ++ [nl]
  ++ str "    // The kernel lexer will use these for pure lossless ASCII segmentation" ++ [nl]
  ++ str "    registry.tokens.set_multichar_lexemes(vec![" ++ [nl]
  ++ str "        ," ++ [nl]
  ++ str "    ]);" ++ [nl]
  ++ [nl].

(** The line [update_dispatcher] looks for, with the parameters [args]. *)
Definition register_all_line (args : text) : text :=
  str "pub fn register_all(" ++ args ++ str ") {" ++ [nl].

(** White space that stays on its line. *)
Definition indentation (w : text) : bool :=
  forallb (fun c => cset_mem sp c && negb (Ascii.eqb nl c)) w.


(** A [register] function with one registration call under a comment. *)
Definition register_text : text :=
  str "pub fn register(reg: &mut Registry) {" ++ [nl]
  ++ str "    // keywords" ++ [nl]
  ++ str "    reg.tokens.add_keyword(LET);" ++ [nl]
  ++ str "}" ++ [nl].


(** [only_on ok e]: if [e] reads or writes a file, its path satisfies [ok]. *)
Definition only_on (ok : string -> Prop) (e : event) : Prop :=
  match e with
  | Read q => ok q
  | Write q _ => ok q
  | Print _ => True
  end.

(** The dispatch files of the module roots that exist. *)
Definition dispatch_files (w : world) : list string :=
  flat_map
    (fun lang =>
       let lang_path := pjoin base ("src_" ++ lang)%string in
       if is_dir w lang_path
       then [pjoin lang_path ("src_" ++ lang ++ ".rs")%string]
       else [])
    (map fst Lexeme.LANG_LEXEMES).

(** [confined D G ok m Q]: from a world with the listing [D], [G], the
    computation [m] keeps the listing, touches only files that satisfy [ok],
    and what it returns satisfies [Q]. *)
Definition confined (D : string -> bool) (G : string -> list string)
    (ok : string -> Prop) {A} (m : M A) (Q : A -> Prop) : Prop :=
  forall w,
    is_dir w = D -> rglob_rs w = G ->
    (is_dir (snd (m w)) = D /\ rglob_rs (snd (m w)) = G)
    /\ (exists new, trace (snd (m w)) = trace w ++ new
                    /\ Forall (only_on ok) new)
    /\ (forall a, fst (m w) = Ret a -> Q a).


(** The peek test rule 1 looks for, and what it becomes. *)
Definition peek_feature (const : text) : text :=
  str "matches!(parser.peek(), Token::Feature(" ++ const ++ str "))".

Definition peek_lexeme (const : text) : text :=
  str "parser.peek().lexeme == " ++ const.

(** The head of a match block that pattern 7 of refactor_to_lexeme.py takes,
    for the variant [Ident] or [Number], and what it puts there. *)
Definition advance_head (variant : text) : text :=
  str "match parser.advance() { Token::" ++ variant ++ str "(s) => s,".

Definition let_lexeme : text := str "let lexeme = parser.advance().lexeme;".


(** Texts on which the marker comment, the import rule and rule 9 are
    tried. *)
Module Cases.

(** A [register] function without any registration call, and a peek test
    elsewhere in the file. *)
Definition no_call : text :=
  str "pub fn register(reg: &mut Registry) {" ++ [nl]
  ++ str "    a::register(reg);" ++ [nl]
  ++ str "}" ++ [nl]
  ++ str "let d = matches!(parser.peek(), Token::Number(_));" ++ [nl].

(** A [register] function in which a call on [reg.tokens] stays after the
    removal. *)
Definition surviving_call : text :=
  str "pub fn register(reg: &mut Registry) {" ++ [nl]
  ++ str "    // Keywords" ++ [nl]
  ++ str "    reg.tokens.add_keyword(A);" ++ [nl]
  ++ str "    reg.tokens.set_mode(B);" ++ [nl]
  ++ str "}" ++ [nl].

(** A [register] function whose body is three registration calls. *)
Definition three_calls : text :=
  str "pub fn register(reg: &mut Registry) {" ++ [nl]
  ++ str "    reg.tokens.add_keyword(LET);" ++ [nl]
  ++ str "    reg.tokens.add_single_char(PLUS);" ++ [nl]
  ++ str "    reg.tokens.add_two_char(EQEQ);" ++ [nl]
  ++ str "}" ++ [nl].

(** The import, and the only use of [Token::] inside a registration call. *)
Definition last_use_in_call : text :=
  token_import ++ [nl; nl]
  ++ str "pub fn register(reg: &mut Registry) {" ++ [nl]
  ++ str "    // keywords" ++ [nl]
  ++ str "    reg.tokens.add_keyword(Token::LET);" ++ [nl]
  ++ str "}" ++ [nl].

(** The import as the last line, without a line end. *)
Definition import_at_end : text := str "fn f() {}" ++ [nl] ++ token_import.

(** The import, and the type used without [::]. *)
Definition plain_use : text :=
  token_import ++ [nl] ++ str "fn kind(t: &Token) -> u8 { 0 }" ++ [nl].

(** The construct of rule 9 with an error expression that holds a call. *)
Definition call_in_error : text :=
  consume_expect (str "LPAREN") (str "err(MSG)").

End Cases.

(** The alternation as the comment of rule 6 writes it. *)
Definition bool_canonical : text :=
  str "matches!(parser.peek(), Token::Feature(TRUE) | Token::Feature(FALSE))".


(** An error expression on one line, without [)], [!] and [:]. *)
Definition simple_error (e : text) : bool :=
  forallb (fun x => negb (existsb (Ascii.eqb x) (str ")!:" ++ [nl]))) e.

(** A text in which no rule of refactor_parsers.py finds anything to do, and
    which holds no [register] signature. *)
Definition plain_context (s : text) : bool :=
  unrelated s && negb (contains register_sig s).

(** [l] starts at some place of [a] when [rest] follows [a]. *)
Fixpoint occurs_from (l a rest : text) : bool :=
  match a with
  | [] => false
  | _ :: a' => starts_with l (a ++ rest) || occurs_from l a' rest
  end.

(** No proper end of [l] is a start of [b]: an occurrence of [l] cannot
    begin before [b] and end inside it. *)
Definition no_border (l b : text) : bool :=
  forallb (fun k => negb (starts_with (skipn k l) b)) (seq 1 (length l - 1)).

(** * Facts about texts and matching *)

Section TextFacts.

Lemma starts_with_iff (p s : text) :
  starts_with p s = true <-> exists r, s = p ++ r.
Proof.
  revert s; induction p as [|a p IH]; intros s; simpl.
  - split; [intros _; now exists s | reflexivity].
  - destruct s as [|b s].
    + split; [discriminate | intros [r H]; discriminate].
    + rewrite andb_true_iff, Ascii.eqb_eq, IH. split.
      * intros [-> [r ->]]. now exists r.
      * intros [r H]. injection H as -> ->. split; [reflexivity | now exists r].
Qed.

Lemma starts_with_app (p r : text) : starts_with p (p ++ r) = true.
Proof. apply starts_with_iff. now exists r. Qed.

Lemma starts_with_skipn (p s : text) :
  starts_with p s = true -> s = p ++ skipn (length p) s.
Proof.
  intros H. apply starts_with_iff in H as [r ->].
  now rewrite skipn_app, skipn_all, Nat.sub_diag.
Qed.

Lemma contains_iff (n h : text) :
  contains n h = true <-> exists a b, h = a ++ n ++ b.
Proof.
  induction h as [|c h IH].
  - simpl. rewrite orb_false_r, starts_with_iff. split.
    + intros [r H]. now exists [], r.
    + intros (a & b & H). destruct a; [now exists b|discriminate].
  - cbn [contains]. rewrite orb_true_iff, starts_with_iff, IH. split.
    + intros [[r H] | (a & b & H)].
      * now exists [], r.
      * exists (c :: a), b. now rewrite H.
    + intros (a & b & H). destruct a as [|x a].
      * left. now exists b.
      * right. injection H as _ H. now exists a, b.
Qed.

Lemma contains_app_false (n a b : text) :
  contains n (a ++ b) = false -> contains n b = false.
Proof.
  intros H. destruct (contains n b) eqn:E; [|reflexivity].
  apply contains_iff in E as (x & y & ->).
  rewrite <- H. symmetry. apply contains_iff.
  exists (a ++ x), y. now rewrite <- app_assoc.
Qed.

Lemma text_eqb_iff (a b : text) : text_eqb a b = true <-> a = b.
Proof.
  revert b; induction a as [|x a IH]; intros [|y b]; simpl;
    try (split; [discriminate | intros H; discriminate]); [tauto|].
  rewrite andb_true_iff, Ascii.eqb_eq, IH. split.
  - now intros [-> ->].
  - intros H. now injection H.
Qed.

Lemma text_eqb_refl (a : text) : text_eqb a a = true.
Proof. now apply text_eqb_iff. Qed.

End TextFacts.

Section MatchFacts.

Variable p : pattern.
Variable repl : mobj -> text.

(** A literal prefix of a pattern is compared with the text as a block. *)
Lemma run_lit (l : text) (q : pattern) (s : text) (pos : nat) (m : marks) :
  run (map Lit l ++ q) s pos m =
  if starts_with l s then run q (skipn (length l) s) (pos + length l) m
  else None.
Proof.
  revert s pos; induction l as [|a l IH]; intros s pos; simpl.
  - now rewrite Nat.add_0_r.
  - destruct s as [|b s]; [reflexivity|].
    destruct (Ascii.eqb a b); simpl; [|reflexivity].
    rewrite IH. now rewrite Nat.add_succ_r.
Qed.

(** Where [p] matches nowhere, [re.sub] returns its input. *)
Lemma sub_go_no_match (count : option nat) (s : text) :
  search p s = false -> sub_go p repl count s 0 = s.
Proof.
  induction s as [|c s IH]; simpl.
  - destruct (match_at p []); [discriminate|].
    now destruct count as [[|n]|].
  - destruct (match_at p (c :: s)); [discriminate|]. intros H.
    destruct count as [[|n]|]; rewrite ?IH; auto.
Qed.

(** A replacement that returns the matched text leaves the input as it is. *)
Lemma sub_go_same (s : text) :
  forall (count : option nat) (k : nat),
  (forall i m, match_at p (skipn i s) = Some m ->
               repl m = firstn (m_len m) (skipn i s)) ->
  sub_go p repl count s k = skipn k s.
Proof.
  induction s as [|c s IH]; intros count k H.
  - destruct k; simpl; [|reflexivity].
    destruct count as [[|n]|]; try reflexivity;
      (destruct (match_at p []) as [m|] eqn:E; [|reflexivity];
       rewrite (H 0 m E); now destruct (m_len m)).
  - assert (Hs : forall i m, match_at p (skipn i s) = Some m ->
                 repl m = firstn (m_len m) (skipn i s)).
    { intros i m. apply (H (S i) m). }
    destruct k; simpl; [|now apply IH].
    assert (step : forall cnt,
      match match_at p (c :: s) with
      | Some m =>
          match m_len m with
          | 0 => repl m ++ c :: sub_go p repl cnt s 0
          | S k => repl m ++ sub_go p repl cnt s k
          end
      | None => c :: sub_go p repl count s 0
      end = c :: s).
    { intros cnt. destruct (match_at p (c :: s)) as [m|] eqn:E.
      - rewrite (H 0 m E). simpl skipn. destruct (m_len m) as [|n].
        + simpl. now rewrite IH.
        + rewrite IH by assumption. simpl. now rewrite firstn_skipn.
      - now rewrite IH. }
    destruct count as [[|n]|]; [reflexivity | apply step | apply step].
Qed.

End MatchFacts.

(** Matching looks ahead only: a match on [s] is not lost when text is
    appended. *)
Lemma star_k_of_k R (cs : cset) (k : text -> nat -> option R) s pos :
  k s pos <> None -> star_k cs k s pos <> None.
Proof.
  destruct s as [|c s]; simpl; [tauto|]. intros H.
  destruct (cset_mem cs c); [|assumption].
  now destruct (star_k cs k s (S pos)).
Qed.

Lemma star_k_extend R (cs : cset) (k k' : text -> nat -> option R) t s :
  (forall s' pos', k s' pos' <> None -> k' (s' ++ t) pos' <> None) ->
  forall pos, star_k cs k s pos <> None -> star_k cs k' (s ++ t) pos <> None.
Proof.
  intros Hk. induction s as [|c s IH]; intros pos H.
  - apply star_k_of_k. now apply (Hk []).
  - simpl in *. destruct (cset_mem cs c); [|now apply (Hk (c :: s))].
    destruct (star_k cs k s (S pos)) eqn:E.
    + specialize (IH (S pos)). rewrite E in IH.
      destruct (star_k cs k' (s ++ t) (S pos)); [discriminate|].
      exfalso. apply IH; [discriminate | reflexivity].
    + destruct (star_k cs k' (s ++ t) (S pos)); [discriminate|].
      now apply (Hk (c :: s)).
Qed.

Lemma alt_k_extend R (k k' : text -> nat -> option R) t ws s :
  (forall s' pos', k s' pos' <> None -> k' (s' ++ t) pos' <> None) ->
  forall pos, alt_k k ws s pos <> None -> alt_k k' ws (s ++ t) pos <> None.
Proof.
  intros Hk. induction ws as [|w ws IH]; intros pos H; simpl in *; [tauto|].
  destruct (starts_with w s) eqn:E.
  - apply starts_with_iff in E as [r ->].
    rewrite <- app_assoc, starts_with_app.
    rewrite skipn_app, skipn_all, Nat.sub_diag in *. simpl in *.
    destruct (k r (pos + length w)) eqn:E2.
    + specialize (Hk r (pos + length w)). rewrite E2 in Hk.
      destruct (k' (r ++ t) (pos + length w)); [discriminate|].
      exfalso. apply Hk; [discriminate | reflexivity].
    + destruct (k' (r ++ t) (pos + length w)); [discriminate|].
      rewrite app_assoc. now apply IH.
  - destruct (starts_with w (s ++ t)); [|now apply IH].
    destruct (k' _ _); [discriminate | now apply IH].
Qed.

Lemma run_extend (p : pattern) (t : text) :
  forall s pos m, run p s pos m <> None -> run p (s ++ t) pos m <> None.
Proof.
  induction p as [|i p IH]; intros s pos m H; [discriminate|].
  destruct i; simpl in *.
  - destruct s as [|c' s]; [tauto|]. simpl.
    destruct (Ascii.eqb c c'); [now apply IH | tauto].
  - destruct s as [|c' s]; [tauto|]. simpl.
    destruct (cset_mem s0 c'); [now apply IH | tauto].
  - revert H. apply star_k_extend. intros s' pos'. apply IH.
  - destruct s as [|c' s]; [tauto|]. simpl.
    destruct (cset_mem s0 c'); [|tauto].
    revert H. apply star_k_extend. intros s' pos'. apply IH.
  - destruct s as [|c' s].
    + simpl. apply (IH [] _ _) in H. simpl in H.
      destruct t as [|c t]; [assumption|].
      destruct (cset_mem s0 c); [|assumption].
      now destruct (run p t (S pos) m).
    + simpl. destruct (cset_mem s0 c'); [|now apply (IH (c' :: s))].
      destruct (run p s (S pos) m) eqn:E.
      * specialize (IH s (S pos) m). rewrite E in IH.
        destruct (run p (s ++ t) (S pos) m); [discriminate|].
        exfalso. apply IH; [discriminate | reflexivity].
      * destruct (run p (s ++ t) (S pos) m); [discriminate|].
        now apply (IH (c' :: s)).
  - now apply IH.
  - now apply IH.
  - revert H. apply alt_k_extend. intros s' pos'. apply IH.
Qed.

Lemma match_at_extend (p : pattern) (s t : text) :
  match_at p (s ++ t) = None -> match_at p s = None.
Proof.
  unfold match_at. intros H.
  destruct (run p s 0 no_marks) as [[n m]|] eqn:E; [|reflexivity].
  exfalso. apply (run_extend p t s 0 no_marks); [now rewrite E|].
  now destruct (run p (s ++ t) 0 no_marks) as [[? ?]|].
Qed.

Lemma search_app_false (p : pattern) (a t : text) :
  search p (a ++ t) = false -> search p a = false.
Proof.
  induction a as [|c a IH]; simpl; intros H.
  - assert (E : match_at p ([] ++ t) = None).
    { simpl. destruct t; simpl in H; now destruct (match_at p _). }
    now rewrite (match_at_extend p [] t E).
  - destruct (match_at p (c :: a ++ t)) eqn:E; [discriminate|].
    rewrite (match_at_extend p (c :: a) t E). now apply IH.
Qed.

Lemma search_skipn_false (p : pattern) (i : nat) (s : text) :
  search p s = false -> search p (skipn i s) = false.
Proof.
  revert s; induction i as [|i IH]; intros s H; [assumption|].
  destruct s as [|c s]; [assumption|]. simpl skipn. apply IH.
  simpl in H. now destruct (match_at p (c :: s)).
Qed.

Lemma sub_no_match (p : pattern) (t : list piece) (s : text) :
  search p s = false -> sub p t s = s.
Proof. apply sub_go_no_match. Qed.

Lemma sub_fn_no_match (p : pattern) (f : mobj -> text) (s : text) :
  search p s = false -> sub_fn p f s = s.
Proof. apply sub_go_no_match. Qed.

(** A pattern that opens with a literal matches only where the literal is. *)
Lemma search_lit_absent (l : text) (q : pattern) (s : text) :
  contains l s = false -> search (map Lit l ++ q) s = false.
Proof.
  induction s as [|c s IH]; cbn [contains search]; intros H;
    apply orb_false_iff in H as [H1 H2];
    unfold match_at; rewrite run_lit, H1; auto.
Qed.

(** * Idempotence (C1) *)

Ltac settle H :=
  repeat match type of H with
  | (_ && _) = true => let H' := fresh "S" in apply andb_prop in H as [H' H]
  end.

Ltac quiet :=
  repeat match goal with
  | H : negb (search ?p ?s) = true |- _ => apply negb_true_iff in H
  end.

Ltac pass_by :=
  repeat match goal with
  | H : search ?p ?y = false |- context [sub ?p ?t ?y] =>
      rewrite (@sub_no_match p t y H)
  | H : search ?p ?y = false |- context [sub_fn ?p ?f ?y] =>
      rewrite (@sub_fn_no_match p f y H)
  end.

Lemma parsers_fixed (y : text) :
  Catalog.parsers_settled y = true -> Parsers.refactor_content y = y.
Proof.
  unfold Catalog.parsers_settled, settled, Catalog.parsers. simpl forallb.
  intros H. apply andb_prop in H as [H H12]. settle H. quiet.
  unfold Parsers.refactor_content.
  assert (E11 : Parsers.rules_1_11 y = y).
  { unfold Parsers.rules_1_11. now pass_by. }
  rewrite E11.
  assert (E12 : Parsers.rule_12 y = y).
  { unfold Parsers.rule_12.
    destruct (contains token_ref y); simpl in *; [reflexivity|].
    apply negb_true_iff in H12.
    destruct (contains token_import y); [|reflexivity].
    now apply sub_no_match. }
  rewrite E12.
  assert (E13 : Parsers.rule_13 y = y).
  { unfold Parsers.rule_13. now pass_by. }
  rewrite E13.
  unfold Parsers.rule_14. rewrite text_eqb_refl, andb_false_r.
  unfold Parsers.rule_15. now pass_by.
Qed.

(** The block rule hands each block to its callback, which changes a block
    only where the guard pattern matches. *)
Lemma block_rule_fixed (y : text) :
  search Lexeme.p_guard y = false ->
  sub_fn Lexeme.p6 Lexeme.refactor_match_advance y = y.
Proof.
  intros H. unfold sub_fn.
  rewrite sub_go_same; [reflexivity|].
  intros i m E. unfold Lexeme.refactor_match_advance.
  assert (Et : m_text m = skipn i y).
  { unfold match_at in E. destruct (run _ _ _ _) as [[? ?]|]; [|discriminate].
    now injection E as <-. }
  simpl group. rewrite Et. apply sub_no_match.
  apply search_app_false with (t := skipn (m_len m) (skipn i y)).
  rewrite firstn_skipn. now apply search_skipn_false.
Qed.

Lemma lexeme_fixed (y : text) :
  settled Catalog.lexeme y = true -> Catalog.lexeme_pipeline y = y.
Proof.
  unfold settled, Catalog.lexeme. simpl forallb. intros H. settle H. quiet.
  unfold Catalog.lexeme_pipeline, Lexeme.refactor_token_matches,
    Lexeme.remove_token_registration.
  unfold Lexeme.p1, Lexeme.p2, Lexeme.p3, Lexeme.p5 in *. pass_by.
  rewrite block_rule_fixed by assumption. now pass_by.
Qed.

Lemma phase2_fixed (y : text) :
  settled Catalog.phase2 y = true -> Phase2.refactor_content_phase2 y = y.
Proof.
  unfold settled, Catalog.phase2. simpl forallb. intros H. settle H. quiet.
  unfold Phase2.refactor_content_phase2. now pass_by.
Qed.

(** C1, as the code has it: a second run changes nothing whenever the first
    run's output holds no construct that a rule's pattern matches; this holds
    for [refactor_content], for the pipeline of refactor_to_lexeme.py and for
    [refactor_content_phase2]. *)
Theorem rerun_changes_nothing_when_settled (x : text) :
  (Catalog.parsers_settled (Parsers.refactor_content x) = true ->
   Parsers.refactor_content (Parsers.refactor_content x)
   = Parsers.refactor_content x)
  /\ (settled Catalog.lexeme (Catalog.lexeme_pipeline x) = true ->
      Catalog.lexeme_pipeline (Catalog.lexeme_pipeline x)
      = Catalog.lexeme_pipeline x)
  /\ (settled Catalog.phase2 (Phase2.refactor_content_phase2 x) = true ->
      Phase2.refactor_content_phase2 (Phase2.refactor_content_phase2 x)
      = Phase2.refactor_content_phase2 x).
Proof.
  repeat split; intros H.
  - now apply parsers_fixed.
  - now apply lexeme_fixed.
  - now apply phase2_fixed.
Qed.

Lemma rerun_changes_nothing_witness :
  Parsers.refactor_content (Parsers.refactor_content Rerun.sample)
  = Parsers.refactor_content Rerun.sample
  /\ Catalog.lexeme_pipeline (Catalog.lexeme_pipeline Rerun.sample)
     = Catalog.lexeme_pipeline Rerun.sample
  /\ Phase2.refactor_content_phase2 (Phase2.refactor_content_phase2 Rerun.sample)
     = Phase2.refactor_content_phase2 Rerun.sample.
Proof.
  destruct (rerun_changes_nothing_when_settled Rerun.sample) as (A & B & C).
  split; [apply A; vm_compute; reflexivity|].
  split; [apply B; vm_compute; reflexivity | apply C; vm_compute; reflexivity].
Defined.

(** C1 as stated fails: on these texts a second run rewrites again. *)
Lemma rerun_changes_again :
  Parsers.refactor_content (Parsers.refactor_content Rerun.parsers_input)
  <> Parsers.refactor_content Rerun.parsers_input
  /\ Catalog.lexeme_pipeline (Catalog.lexeme_pipeline Rerun.lexeme_input)
     <> Catalog.lexeme_pipeline Rerun.lexeme_input
  /\ Phase2.refactor_content_phase2
       (Phase2.refactor_content_phase2 Rerun.phase2_input)
     <> Phase2.refactor_content_phase2 Rerun.phase2_input.
Proof.
  repeat split; intros H; vm_compute in H; discriminate H.
Qed.

(** * The drivers *)

Section Avoids.

Variable path : string.

(** [avoids m]: whatever the world, [m] adds no read and no write of [path]
    to the trace. *)
Definition avoids {A} (m : M A) : Prop :=
  forall w, exists new,
    trace (snd (m w)) = trace w ++ new
    /\ Forall (fun e => touches path e = false) new.

Lemma avoids_ret {A} (a : A) : avoids (ret a).
Proof. intros w. exists []. now rewrite app_nil_r. Qed.

Lemma avoids_bind {A B} (m : M A) (f : A -> M B) :
  avoids m -> (forall a, avoids (f a)) -> avoids (bind m f).
Proof.
  intros Hm Hf w. unfold bind.
  destruct (Hm w) as (n1 & E1 & F1).
  destruct (m w) as [[a|e] w1]; simpl in *.
  - destruct (Hf a w1) as (n2 & E2 & F2).
    exists (n1 ++ n2). rewrite E2, E1, app_assoc. split; [reflexivity|].
    apply Forall_app. now split.
  - now exists n1.
Qed.

Lemma avoids_try {A} (m : M A) (h : string -> M A) :
  avoids m -> (forall e, avoids (h e)) -> avoids (try_except m h).
Proof.
  intros Hm Hh w. unfold try_except.
  destruct (Hm w) as (n1 & E1 & F1).
  destruct (m w) as [[a|e] w1]; simpl in *.
  - now exists n1.
  - destruct (Hh e w1) as (n2 & E2 & F2).
    exists (n1 ++ n2). rewrite E2, E1, app_assoc. split; [reflexivity|].
    apply Forall_app. now split.
Qed.

Lemma avoids_print (l : line) : avoids (print l).
Proof. intros w. exists [Print l]. split; [reflexivity|]. now constructor. Qed.

Lemma avoids_read (q : string) : String.eqb q path = false -> avoids (read_text q).
Proof.
  intros H w. exists [Read q]. unfold read_text.
  split; [|constructor; [exact H | constructor]].
  destruct (files w q) as [f|]; [destruct (f_data f)|]; reflexivity.
Qed.

Lemma avoids_write (q : string) (t : text) :
  String.eqb q path = false -> avoids (write_text q t).
Proof.
  intros H w. exists [Write q t]. unfold write_text.
  split; [|constructor; [exact H | constructor]].
  destruct (files w q) as [f|]; [destruct (f_locked f)|]; reflexivity.
Qed.

Lemma avoids_quiet {A} (m : M A) :
  (forall w, trace (snd (m w)) = trace w) -> avoids m.
Proof. intros H w. exists []. now rewrite app_nil_r. Qed.

Lemma avoids_for_each {A S} (l : list A) (body : A -> S -> M S) :
  (forall x st, In x l -> avoids (body x st)) ->
  forall st, avoids (for_each l body st).
Proof.
  induction l as [|x l IH]; intros H st; simpl.
  - apply avoids_ret.
  - apply avoids_bind; [apply H; now left|].
    intros st'. apply IH. intros y s Hy. apply H. now right.
Qed.

Hypothesis example_path : is_example path = true.

Lemma not_example_differs (q : string) :
  is_example q = false -> String.eqb q path = false.
Proof.
  intros H. apply String.eqb_neq. intros ->. congruence.
Qed.

Lemma process_file_with_avoids (f : text -> text) (q : string) :
  is_example q = false -> avoids (process_file_with f q).
Proof.
  intros H. apply not_example_differs in H. unfold process_file_with.
  apply avoids_try.
  - apply avoids_bind; [now apply avoids_read|]. intros content.
    destruct (negb _); [|apply avoids_ret].
    apply avoids_bind; [now apply avoids_write|]. intros _.
    apply avoids_bind; [apply avoids_print|]. intros _. apply avoids_ret.
  - intros e. apply avoids_bind; [apply avoids_print|]. intros _.
    apply avoids_ret.
Qed.

Lemma count_files_avoids (f : text -> text) (l : list string) (st : nat * nat) :
  avoids (count_files (process_file_with f) l st).
Proof.
  unfold count_files. apply avoids_for_each. intros q [c t] _.
  destruct (is_example q) eqn:E; [apply avoids_ret|].
  apply avoids_bind; [now apply process_file_with_avoids|].
  intros [|]; apply avoids_ret.
Qed.

Lemma parsers_main_avoids : avoids ParsersMain.main.
Proof.
  unfold ParsersMain.main.
  apply avoids_bind.
  - apply avoids_for_each. intros lang st _. unfold ParsersMain.process_module.
    apply avoids_bind; [now apply avoids_quiet|]. intros [|]; [|apply avoids_ret].
    repeat (apply avoids_bind; [apply avoids_print|]; intros _).
    apply avoids_bind; [now apply avoids_quiet|]. intros l.
    apply count_files_avoids.
  - intros st. repeat (apply avoids_bind; [apply avoids_print|]; intros _).
    apply avoids_ret.
Qed.

Lemma phase2_main_avoids : avoids Phase2Main.main.
Proof.
  unfold Phase2Main.main.
  apply avoids_bind.
  - apply avoids_for_each. intros lang st _. unfold Phase2Main.process_module.
    apply avoids_bind; [now apply avoids_quiet|]. intros [|]; [|apply avoids_ret].
    repeat (apply avoids_bind; [apply avoids_print|]; intros _).
    apply avoids_bind; [now apply avoids_quiet|]. intros l.
    apply count_files_avoids.
  - intros st. repeat (apply avoids_bind; [apply avoids_print|]; intros _).
    apply avoids_ret.
Qed.

Lemma lexeme_process_file_avoids (q : string) : avoids (LexemeMain.process_file q).
Proof.
  unfold LexemeMain.process_file.
  destruct (is_example q) eqn:E; [apply avoids_ret|].
  apply not_example_differs in E.
  apply avoids_bind; [now apply avoids_read|]. intros content.
  destruct (negb _); [|apply avoids_ret].
  apply avoids_bind; [now apply avoids_write|]. intros _. apply avoids_print.
Qed.

Lemma update_dispatcher_avoids (lang_name : string) :
  In lang_name (map fst Lexeme.LANG_LEXEMES) ->
  avoids (LexemeMain.update_dispatcher (pjoin base ("src_" ++ lang_name))
                                       lang_name).
Proof.
  intros H. unfold LexemeMain.update_dispatcher.
  set (d := pjoin _ _).
  assert (Hd : String.eqb d path = false).
  { apply not_example_differs. subst d.
    simpl in H. repeat (destruct H as [<- | H]; [vm_compute; reflexivity|]).
    destruct H. }
  apply avoids_bind; [now apply avoids_quiet|]. intros [|]; [|apply avoids_ret].
  apply avoids_bind; [now apply avoids_read|]. intros content.
  apply avoids_bind; [now apply avoids_write|]. intros _. apply avoids_print.
Qed.

Lemma lexeme_main_avoids : avoids LexemeMain.main.
Proof.
  unfold LexemeMain.main.
  apply avoids_for_each. intros lang [] Hin.
  apply avoids_bind; [now apply avoids_quiet|]. intros [|]; [|apply avoids_ret].
  apply avoids_bind; [apply avoids_print|]; intros _.
  apply avoids_bind; [now apply update_dispatcher_avoids|]; intros _.
  apply avoids_bind; [now apply avoids_quiet|]. intros l.
  apply avoids_for_each. intros q [] _. apply lexeme_process_file_avoids.
Qed.

End Avoids.

Lemma avoids_events {A} (path : string) (m : M A) (w : world) :
  avoids path m -> Forall (fun e => touches path e = false) (events m w).
Proof.
  intros H. destruct (H w) as (new & E & F). unfold events.
  now rewrite E, skipn_app, skipn_all, Nat.sub_diag.
Qed.

(** ** Exclusion of example paths (C5, C10) *)

Lemma segments_head (s : text) :
  exists seg rest b, segments s = seg :: rest /\ s = seg ++ b.
Proof.
  induction s as [|c s (seg & rest & b & E & Es)]; simpl.
  - now exists [], [], [].
  - destruct (Ascii.eqb c "/").
    + now exists [], (segments s), (c :: s).
    + rewrite E. exists (c :: seg), rest, b. now rewrite Es at 1.
Qed.

Lemma segments_in (seg s : text) :
  In seg (segments s) -> exists a b, s = a ++ seg ++ b.
Proof.
  induction s as [|c s IH]; simpl.
  - intros [<- | []]. now exists [], [].
  - destruct (Ascii.eqb c "/").
    + intros [<- | H]; [now exists [], (c :: s)|].
      destruct (IH H) as (a & b & ->). now exists (c :: a), b.
    + destruct (segments_head s) as (seg0 & rest & b0 & E & Es).
      rewrite E in *. intros [<- | H].
      * exists [], b0. simpl. now rewrite Es at 1.
      * destruct (IH (or_intror H)) as (a & b & ->). now exists (c :: a), b.
Qed.

Definition untouched_by_all (path : string) (w : world) : Prop :=
  Forall (fun e => touches path e = false) (events ParsersMain.main w)
  /\ Forall (fun e => touches path e = false) (events Phase2Main.main w)
  /\ Forall (fun e => touches path e = false) (events LexemeMain.main w).

Lemma example_untouched (path : string) (w : world) :
  is_example path = true -> untouched_by_all path w.
Proof.
  intros H. repeat split; apply avoids_events.
  - now apply parsers_main_avoids.
  - now apply phase2_main_avoids.
  - now apply lexeme_main_avoids.
Qed.

(** C5: a file whose path has a segment [examples], at any depth, is neither
    read nor written by any of the three drivers. *)
Theorem examples_segment_never_read_or_written (path : string) (w : world) :
  In (str "examples") (segments (str path)) ->
  untouched_by_all path w.
Proof.
  intros H. apply example_untouched. unfold is_example.
  apply contains_iff. now apply segments_in.
Qed.

Lemma examples_segment_witness :
  untouched_by_all Worlds.ex_rs Worlds.broken.
Proof.
  apply (examples_segment_never_read_or_written Worlds.ex_rs Worlds.broken).
  vm_compute. do 5 right. left. reflexivity.
Defined.

(** C10: the test is on the characters of the whole path; a path that holds
    the letters [examples] anywhere, inside a longer name too, is neither
    read nor written by any of the three drivers. *)
Theorem examples_substring_never_read_or_written
    (path : string) (a b : text) (w : world) :
  str path = a ++ str "examples" ++ b ->
  untouched_by_all path w.
Proof.
  intros H. apply example_untouched. unfold is_example.
  apply contains_iff. now exists a, b.
Qed.

Lemma examples_substring_witness :
  untouched_by_all Worlds.cex_rs Worlds.broken.
Proof.
  apply (examples_substring_never_read_or_written Worlds.cex_rs
           (str "/home/user/lumen-lang/src_mini_rust/counter")
           (str "/examples_utils.rs") Worlds.broken).
  reflexivity.
Defined.

(** ** Per-file recovery (C3) *)

Section Recovery.

Variable refactor : text -> text.

(** [process_file] of the two counting scripts always returns, and leaves the
    directory listing as it was. *)
Lemma process_file_with_returns (p : string) (w : world) :
  exists b w',
    process_file_with refactor p w = (Ret b, w')
    /\ is_dir w' = is_dir w /\ rglob_rs w' = rglob_rs w.
Proof.
  unfold process_file_with, try_except, bind, read_text, write_text, print, ret.
  destruct (files w p) as [f|] eqn:Ef; simpl.
  - destruct (f_data f) as [c|e]; simpl.
    + destruct (negb (text_eqb (refactor c) c)); simpl.
      * rewrite Ef. destruct (f_locked f); simpl; eauto.
      * eauto.
    + eauto.
  - eauto.
Qed.

Lemma count_files_returns (l : list string) :
  forall (c t : nat) (w : world),
  exists c' w',
    count_files (process_file_with refactor) l (c, t) w
    = (Ret (c', t + length (filter (fun q => negb (is_example q)) l)), w')
    /\ is_dir w' = is_dir w /\ rglob_rs w' = rglob_rs w.
Proof.
  unfold count_files.
  induction l as [|q l IH]; intros c t w; simpl.
  - exists c, w. now rewrite Nat.add_0_r.
  - unfold bind at 1. destruct (is_example q); simpl.
    + apply IH.
    + unfold bind at 1.
      destruct (process_file_with_returns q w) as (b & w1 & -> & D & G).
      destruct b; simpl;
        [destruct (IH (c + 1) (t + 1) w1) as (c' & w' & -> & D' & G')
        |destruct (IH c (t + 1) w1) as (c' & w' & -> & D' & G')];
        exists c', w'; rewrite <- Nat.add_assoc; simpl;
        (split; [reflexivity | split; congruence]).
Qed.

End Recovery.

Lemma eligible_same (langs : list string) (w w' : world) :
  is_dir w' = is_dir w -> rglob_rs w' = rglob_rs w ->
  eligible langs w' = eligible langs w.
Proof. intros D G. unfold eligible. now rewrite D, G. Qed.

(** The files counted under one module root. *)
Lemma eligible_cons (lang : string) (langs : list string) (w : world) :
  eligible (lang :: langs) w
  = (if is_dir w (pjoin base ("src_" ++ lang)%string)
     then filter (fun f => negb (is_example f))
                 (rglob_rs w (pjoin base ("src_" ++ lang)%string))
     else [])
    ++ eligible langs w.
Proof. reflexivity. Qed.

Section Loop.

Variable body : string -> nat * nat -> M (nat * nat).

Hypothesis body_returns :
  forall lang c t w,
  exists c' w',
    body lang (c, t) w = (Ret (c', t + length (eligible [lang] w)), w')
    /\ is_dir w' = is_dir w /\ rglob_rs w' = rglob_rs w.

Lemma module_loop_returns (langs : list string) :
  forall (c t : nat) (w : world),
  exists c' w',
    for_each langs body (c, t) w
    = (Ret (c', t + length (eligible langs w)), w')
    /\ is_dir w' = is_dir w /\ rglob_rs w' = rglob_rs w.
Proof.
  induction langs as [|lang langs IH]; intros c t w.
  - simpl. exists c, w. now rewrite Nat.add_0_r.
  - cbn [for_each]. unfold bind at 1.
    destruct (body_returns lang c t w) as (c1 & w1 & -> & D & G).
    destruct (IH c1 (t + length (eligible [lang] w)) w1)
      as (c' & w' & -> & D' & G').
    exists c', w'. rewrite (@eligible_same langs w w1 D G).
    rewrite (eligible_cons lang langs), length_app, Nat.add_assoc.
    rewrite (eligible_cons lang []), app_nil_r.
    split; [reflexivity | split; congruence].
Qed.

End Loop.

Lemma parsers_body_returns (lang : string) (c t : nat) (w : world) :
  exists c' w',
    ParsersMain.process_module lang (c, t) w
    = (Ret (c', t + length (eligible [lang] w)), w')
    /\ is_dir w' = is_dir w /\ rglob_rs w' = rglob_rs w.
Proof.
  rewrite (eligible_cons lang []), app_nil_r.
  unfold ParsersMain.process_module, ParsersMain.process_file.
  unfold bind at 1. unfold dir_exists.
  destruct (is_dir w _) eqn:E.
  - unfold bind, print, rglob. cbn beta iota.
    match goal with |- context [count_files _ ?l _ ?w1] =>
      destruct (count_files_returns Parsers.refactor_content l c t w1)
        as (c' & w' & Ec & D & G) end.
    exists c', w'. split; [exact Ec | split; [exact D | exact G]].
  - exists c, w. unfold ret. simpl. now rewrite Nat.add_0_r.
Qed.

Lemma phase2_body_returns (lang : string) (c t : nat) (w : world) :
  exists c' w',
    Phase2Main.process_module lang (c, t) w
    = (Ret (c', t + length (eligible [lang] w)), w')
    /\ is_dir w' = is_dir w /\ rglob_rs w' = rglob_rs w.
Proof.
  rewrite (eligible_cons lang []), app_nil_r.
  unfold Phase2Main.process_module, Phase2Main.process_file.
  unfold bind at 1. unfold dir_exists.
  destruct (is_dir w _) eqn:E.
  - unfold bind, print, rglob. cbn beta iota.
    match goal with |- context [count_files _ ?l _ ?w1] =>
      destruct (count_files_returns Phase2.refactor_content_phase2 l c t w1)
        as (c' & w' & Ec & D & G) end.
    exists c', w'. split; [exact Ec | split; [exact D | exact G]].
  - exists c, w. unfold ret. simpl. now rewrite Nat.add_0_r.
Qed.

Lemma parsers_main_returns (w : world) :
  exists changed w',
    ParsersMain.main w
    = (Ret (changed, length (eligible ParsersMain.langs w)), w').
Proof.
  unfold ParsersMain.main. unfold bind at 1.
  destruct (module_loop_returns _ parsers_body_returns ParsersMain.langs 0 0 w)
    as (c' & w' & E & _).
  rewrite E. unfold bind, print, ret. simpl. eauto.
Qed.

Lemma phase2_main_returns (w : world) :
  exists changed w',
    Phase2Main.main w
    = (Ret (changed, length (eligible Phase2Main.langs w)), w').
Proof.
  unfold Phase2Main.main. unfold bind at 1.
  destruct (module_loop_returns _ phase2_body_returns Phase2Main.langs 0 0 w)
    as (c' & w' & E & _).
  rewrite E. unfold bind, print, ret. simpl. eauto.
Qed.

Lemma process_file_with_read_fails (refactor : text -> text) w p e :
  read_error w p = Some e ->
  process_file_with refactor p w
  = (Ret false, emit (Print (LFail p e)) (emit (Read p) w)).
Proof.
  unfold read_error, process_file_with, try_except, bind, read_text, print, ret.
  destruct (files w p) as [f|]; [destruct (f_data f)|]; simpl;
    intros H; now inversion H.
Qed.

Lemma process_file_with_write_fails (refactor : text -> text) w p f c e :
  files w p = Some f -> f_data f = inl c -> f_locked f = Some e ->
  refactor c <> c ->
  process_file_with refactor p w
  = (Ret false,
     emit (Print (LFail p e)) (emit (Write p (refactor c)) (emit (Read p) w))).
Proof.
  intros Hf Hd Hl Hc.
  unfold process_file_with, try_except, bind, read_text, write_text, print, ret.
  rewrite Hf, Hd. simpl.
  destruct (text_eqb (refactor c) c) eqn:E;
    [now apply text_eqb_iff in E|].
  simpl. now rewrite Hf, Hl.
Qed.




(** ** Change detection (C2) *)

Lemma events_of A (m : M A) (w : world) (new : list event) :
  trace (snd (m w)) = trace w ++ new -> events m w = new.
Proof.
  intros E. unfold events. now rewrite E, skipn_app, skipn_all, Nat.sub_diag.
Qed.

Lemma process_file_with_writes (refactor : text -> text) w p f c :
  files w p = Some f -> f_data f = inl c ->
  writes (events (process_file_with refactor p) w)
  = changed_write p c (refactor c)
  /\ fst (process_file_with refactor p w)
     = Ret (negb (text_eqb (refactor c) c) && unlocked f).
Proof.
  intros Hf Hd.
  assert (exists new,
            trace (snd (process_file_with refactor p w)) = trace w ++ new
            /\ writes new = changed_write p c (refactor c)
            /\ fst (process_file_with refactor p w)
               = Ret (negb (text_eqb (refactor c) c) && unlocked f))
    as (new & T & W & R).
  { unfold process_file_with, try_except, bind, read_text, write_text, print,
      ret, changed_write, unlocked.
    rewrite Hf, Hd. simpl.
    destruct (text_eqb (refactor c) c); simpl;
      [|rewrite Hf; destruct (f_locked f); simpl];
      rewrite <- ?app_assoc; eexists; repeat split; reflexivity. }
  rewrite (events_of _ _ _ T). now split.
Qed.

Lemma lexeme_process_file_writes w p f c :
  files w p = Some f -> f_data f = inl c -> is_example p = false ->
  writes (events (LexemeMain.process_file p) w)
  = changed_write p c (Lexeme.transform c).
Proof.
  intros Hf Hd He.
  assert (exists new,
            trace (snd (LexemeMain.process_file p w)) = trace w ++ new
            /\ writes new = changed_write p c (Lexeme.transform c))
    as (new & T & W).
  { unfold LexemeMain.process_file, bind, read_text, write_text, print, ret,
      changed_write.
    rewrite He, Hf, Hd. simpl.
    destruct (text_eqb (Lexeme.transform c) c); simpl;
      [|rewrite Hf; destruct (f_locked f); simpl];
      rewrite <- ?app_assoc; eexists; repeat split; reflexivity. }
  now rewrite (events_of _ _ _ T).
Qed.

Lemma update_dispatcher_writes w lang_path lang_name f c :
  files w (pjoin lang_path ("src_" ++ lang_name ++ ".rs")%string) = Some f ->
  f_data f = inl c ->
  writes (events (LexemeMain.update_dispatcher lang_path lang_name) w)
  = [Write (pjoin lang_path ("src_" ++ lang_name ++ ".rs")%string)
           (Lexeme.augment lang_name c)].
Proof.
  intros Hf Hd.
  assert (exists new,
            trace (snd (LexemeMain.update_dispatcher lang_path lang_name w))
            = trace w ++ new
            /\ writes new
               = [Write (pjoin lang_path ("src_" ++ lang_name ++ ".rs")%string)
                        (Lexeme.augment lang_name c)])
    as (new & T & W).
  { unfold LexemeMain.update_dispatcher, bind, file_exists, read_text,
      write_text, print, ret.
    cbv zeta. rewrite Hf. cbv beta iota. rewrite Hf, Hd. cbv beta iota.
    cbn [files emit]. rewrite Hf.
    destruct (f_locked f); simpl; rewrite <- ?app_assoc;
      eexists; repeat split; reflexivity. }
  now rewrite (events_of _ _ _ T).
Qed.

(** C2, as the code has it: each [process_file] writes the file back exactly
    when the transformed text differs from the text read, and the two
    counting scripts report a change exactly when, besides, the write went
    through; [update_dispatcher] has no such test and writes the dispatch
    file back whenever it could read it. *)
Theorem write_back_follows_change_detection
    (w : world) (p : string) (f : file) (c : text) :
  files w p = Some f -> f_data f = inl c ->
  (writes (events (ParsersMain.process_file p) w)
   = changed_write p c (Parsers.refactor_content c)
   /\ fst (ParsersMain.process_file p w)
      = Ret (negb (text_eqb (Parsers.refactor_content c) c) && unlocked f))
  /\ (writes (events (Phase2Main.process_file p) w)
      = changed_write p c (Phase2.refactor_content_phase2 c)
      /\ fst (Phase2Main.process_file p w)
         = Ret (negb (text_eqb (Phase2.refactor_content_phase2 c) c)
                && unlocked f))
  /\ (is_example p = false ->
      writes (events (LexemeMain.process_file p) w)
      = changed_write p c (Lexeme.transform c))
  /\ (forall lang_path lang_name,
      p = pjoin lang_path ("src_" ++ lang_name ++ ".rs")%string ->
      writes (events (LexemeMain.update_dispatcher lang_path lang_name) w)
      = [Write p (Lexeme.augment lang_name c)]).
Proof.
  intros Hf Hd.
  split; [now apply process_file_with_writes|].
  split; [now apply process_file_with_writes|].
  split; [intros He; now apply lexeme_process_file_writes with (f := f)|].
  intros lang_path lang_name ->.
  now apply update_dispatcher_writes with (f := f).
Qed.

Lemma write_back_witness :
  writes (events (ParsersMain.process_file Worlds.b_rs) Worlds.broken)
  = changed_write Worlds.b_rs Worlds.peek_text
      (Parsers.refactor_content Worlds.peek_text)
  /\ writes (events (LexemeMain.process_file Worlds.b_rs) Worlds.broken)
     = changed_write Worlds.b_rs Worlds.peek_text
         (Lexeme.transform Worlds.peek_text).
Proof.
  destruct (write_back_follows_change_detection Worlds.broken Worlds.b_rs
              (f := File (inl Worlds.peek_text) None) (c := Worlds.peek_text)
              eq_refl eq_refl) as ((A & _) & _ & B & _).
  split; [exact A | apply B; reflexivity].
Defined.

(** C2 as stated fails for [update_dispatcher]: the dispatch file is written
    although the text to write equals the text read. *)
Lemma dispatcher_written_unchanged :
  Lexeme.augment "mini_rust" Worlds.plain_text = Worlds.plain_text
  /\ events (LexemeMain.update_dispatcher Worlds.root "mini_rust") Worlds.broken
     = [Read Worlds.dispatcher;
        Write Worlds.dispatcher Worlds.plain_text;
        Print (LUpdatedDispatcher Worlds.dispatcher)].
Proof. split; vm_compute; reflexivity. Qed.

(** ** The dispatcher augmenter without its anchor (C9) *)

Lemma search_absent (p : pattern) (l s : text) :
  (forall b, match_at p b <> None -> starts_with l b = true) ->
  contains l s = false -> search p s = false.
Proof.
  intros Hp. induction s as [|c s IH]; cbn [contains search]; intros H;
    apply orb_false_iff in H as [H1 H2].
  - destruct (match_at p []) eqn:E; [|reflexivity].
    rewrite Hp in H1; [discriminate | now rewrite E].
  - destruct (match_at p (c :: s)) eqn:E; [|now apply IH].
    rewrite Hp in H1; [discriminate | now rewrite E].
Qed.

Lemma register_all_starts (b : text) :
  match_at Lexeme.p_register_all b <> None ->
  starts_with (str "pub fn register_all") b = true.
Proof.
  unfold match_at, Lexeme.p_register_all, grp. cbn [run].
  change (lit "pub fn register_all(" ++ [Plus not_rparen] ++ lit ") {" ++ ws0
          ++ [Lit nl])
    with (map Lit (str "pub fn register_all")
          ++ (lit "(" ++ [Plus not_rparen] ++ lit ") {" ++ ws0 ++ [Lit nl])).
  rewrite <- app_assoc, run_lit.
  destruct (starts_with _ b); [reflexivity | intros H; now elim H].
Qed.

Lemma augment_without_anchor (lang_name : string) (c : text) :
  contains (str "pub fn register_all") c = false ->
  Lexeme.augment lang_name c = c.
Proof.
  intros H. apply sub_no_match.
  apply search_absent with (l := str "pub fn register_all");
    [apply register_all_starts | exact H].
Qed.




(** * Further properties of the code *)

(** ** What a match consumes *)

Lemma star_k_inv R (cs : cset) (k : text -> nat -> option R) s pos r :
  star_k cs k s pos = Some r ->
  exists w s', s = w ++ s' /\ forallb (cset_mem cs) w = true
               /\ k s' (pos + length w) = Some r.
Proof.
  revert pos. induction s as [|c s IH]; intros pos H; simpl in H.
  - exists [], []. now rewrite Nat.add_0_r.
  - destruct (cset_mem cs c) eqn:E.
    + destruct (star_k cs k s (S pos)) as [r'|] eqn:E2.
      * injection H as <-. destruct (IH _ E2) as (w & s' & -> & F & K).
        exists (c :: w), s'. simpl. rewrite E, F.
        now rewrite Nat.add_succ_r.
      * exists [], (c :: s). now rewrite Nat.add_0_r.
    + exists [], (c :: s). now rewrite Nat.add_0_r.
Qed.

Lemma alt_k_inv R (k : text -> nat -> option R) ws s pos r :
  alt_k k ws s pos = Some r ->
  exists w s', In w ws /\ s = w ++ s' /\ k s' (pos + length w) = Some r.
Proof.
  induction ws as [|w ws IH]; simpl; [discriminate|]. intros H.
  destruct (starts_with w s) eqn:E.
  - destruct (k (skipn (length w) s) (pos + length w)) as [r'|] eqn:E2.
    + injection H as <-. exists w, (skipn (length w) s).
      split; [now left | split; [now apply starts_with_skipn | exact E2]].
    + destruct (IH H) as (w' & s' & I & -> & K). exists w', s'. auto.
  - destruct (IH H) as (w' & s' & I & -> & K). exists w', s'. auto.
Qed.

Lemma contains_cons (l : text) (c : ascii) (s : text) :
  contains l s = true -> contains l (c :: s) = true.
Proof. intros H. cbn [contains]. rewrite H. apply orb_true_r. Qed.

Lemma contains_app_r (l w s : text) :
  contains l s = true -> contains l (w ++ s) = true.
Proof.
  intros H. induction w as [|c w IH]; [exact H|]. now apply contains_cons.
Qed.

Lemma contains_starts (l s : text) :
  starts_with l s = true -> contains l s = true.
Proof. intros H. destruct s; simpl in *; now rewrite H. Qed.

(** A match of a pattern that holds the literal [l] lies on an occurrence of
    [l]. *)
Lemma run_anchor (l : text) (q2 : pattern) (q1 : pattern) :
  forall s pos m r,
  run (q1 ++ map Lit l ++ q2) s pos m = Some r -> contains l s = true.
Proof.
  induction q1 as [|i q1 IH]; intros s pos m r H.
  - simpl in H. rewrite run_lit in H.
    destruct (starts_with l s) eqn:E; [|discriminate].
    now apply contains_starts.
  - destruct i; cbn [app run] in H.
    + destruct s as [|c' s]; [discriminate|].
      destruct (Ascii.eqb c c'); [|discriminate].
      apply contains_cons. eauto.
    + destruct s as [|c' s]; [discriminate|].
      destruct (cset_mem s0 c'); [|discriminate].
      apply contains_cons. eauto.
    + apply star_k_inv in H as (w & s' & -> & _ & K).
      apply contains_app_r. eauto.
    + destruct s as [|c' s]; [discriminate|].
      destruct (cset_mem s0 c'); [|discriminate].
      apply star_k_inv in H as (w & s' & -> & _ & K).
      apply contains_cons, contains_app_r. eauto.
    + destruct s as [|c' s]; [eauto|].
      destruct (cset_mem s0 c'); [|eauto].
      destruct (run _ s (S pos) m) eqn:E; [|eauto].
      apply contains_cons. eauto.
    + eauto.
    + eauto.
    + apply alt_k_inv in H as (w & s' & _ & -> & K).
      apply contains_app_r. eauto.
Qed.

Lemma lits_at_split (l : text) (p : pattern) :
  lits_at l p = true -> exists q2, p = map Lit l ++ q2.
Proof.
  revert p. induction l as [|c l IH]; intros p H; simpl in *.
  - now exists p.
  - destruct p as [|[c'| | | | | | |] p]; try discriminate.
    apply andb_prop in H as [E H]. apply Ascii.eqb_eq in E as <-.
    destruct (IH p H) as [q2 ->]. now exists q2.
Qed.

Lemma has_lits_split (l : text) (p : pattern) :
  has_lits l p = true -> exists q1 q2, p = q1 ++ map Lit l ++ q2.
Proof.
  induction p as [|i p IH]; cbn [has_lits]; intros H;
    apply orb_prop in H as [H | H].
  - apply lits_at_split in H as [q2 ->]. now exists [], q2.
  - discriminate.
  - apply lits_at_split in H as [q2 ->]. now exists [], q2.
  - destruct (IH H) as (q1 & q2 & ->). now exists (i :: q1), q2.
Qed.

Lemma search_anchor (l : text) (p : pattern) (s : text) :
  has_lits l p = true -> contains l s = false -> search p s = false.
Proof.
  intros Hp Hs. apply has_lits_split in Hp as (q1 & q2 & ->).
  assert (M : forall b, contains l b = false ->
                        match_at (q1 ++ map Lit l ++ q2) b = None).
  { intros b Hb. unfold match_at.
    destruct (run _ b 0 no_marks) as [[n m]|] eqn:E; [|reflexivity].
    apply run_anchor in E. congruence. }
  induction s as [|c s IH]; cbn [search].
  - now rewrite M.
  - rewrite M by assumption. apply IH.
    cbn [contains] in Hs. now apply orb_false_iff in Hs.
Qed.

(** ** Texts the scripts leave alone *)

Ltac anchor :=
  repeat match goal with
  | H : contains ?l ?y = false |- context [search ?p ?y] =>
      rewrite (@search_anchor l p y eq_refl H)
  end.

Lemma parsers_nothing_to_do (y : text) :
  contains token_ref y = false ->
  contains token_import y = false ->
  contains (str "reg.tokens.") y = false ->
  contains (str "// Register tokens") y = false ->
  contains (str "// Token definitions") y = false ->
  Parsers.refactor_content y = y.
Proof.
  intros H1 H2 H3 H4 H5. apply parsers_fixed.
  unfold Catalog.parsers_settled, settled, Catalog.parsers. cbn [forallb].
  anchor. rewrite H1. reflexivity.
Qed.

(** [refactor_content] returns byte for byte any text that holds none of
    [Token::], the import line, [reg.tokens.], [// Register tokens] and
    [// Token definitions]. *)
Theorem refactor_content_leaves_unrelated_text (y : text) :
  contains token_ref y = false ->
  contains token_import y = false ->
  contains (str "reg.tokens.") y = false ->
  contains (str "// Register tokens") y = false ->
  contains (str "// Token definitions") y = false ->
  Parsers.refactor_content y = y.
Proof. apply parsers_nothing_to_do. Qed.

Lemma refactor_content_leaves_unrelated_text_witness :
  Parsers.refactor_content migrated_text = migrated_text.
Proof.
  apply (refactor_content_leaves_unrelated_text migrated_text);
    vm_compute; reflexivity.
Defined.

(** [process_file]'s transformation in refactor_to_lexeme.py returns byte for
    byte any text that holds neither [Token::] nor [reg.tokens.]. *)
Theorem lexeme_transform_leaves_migrated_text (y : text) :
  contains token_ref y = false ->
  contains (str "reg.tokens.") y = false ->
  Lexeme.transform y = y.
Proof.
  intros H1 H2. unfold Lexeme.transform.
  rewrite H2, andb_false_r.
  apply lexeme_fixed. unfold settled, Catalog.lexeme. cbn [forallb].
  unfold Lexeme.p1, Lexeme.p2, Lexeme.p3, Lexeme.p5.
  anchor. reflexivity.
Qed.

Lemma lexeme_transform_leaves_migrated_text_witness :
  Lexeme.transform migrated_text = migrated_text.
Proof.
  apply (lexeme_transform_leaves_migrated_text migrated_text);
    vm_compute; reflexivity.
Defined.

Lemma phase2_nothing_to_do (y : text) :
  contains token_ref y = false ->
  Phase2.refactor_content_phase2 y = y.
Proof.
  intros H. apply phase2_fixed.
  unfold settled, Catalog.phase2. cbn [forallb].
  unfold Phase2.p2, Phase2.p4. anchor. reflexivity.
Qed.

(** [refactor_content_phase2] returns byte for byte any text without
    [Token::]. *)
Theorem phase2_leaves_text_without_token (y : text) :
  contains token_ref y = false ->
  Phase2.refactor_content_phase2 y = y.
Proof. apply phase2_nothing_to_do. Qed.

Lemma phase2_leaves_text_without_token_witness :
  Phase2.refactor_content_phase2 migrated_text = migrated_text.
Proof.
  apply (phase2_leaves_text_without_token migrated_text).
  vm_compute; reflexivity.
Defined.

(** ** A run over a migrated tree *)

Lemma calm_refl (w : world) : calm w w.
Proof.
  repeat split. exists []. now rewrite app_nil_r.
Qed.

Lemma writes_app (a b : list event) : writes (a ++ b) = writes a ++ writes b.
Proof. apply filter_app. Qed.

Lemma calm_trans (w1 w2 w3 : world) : calm w1 w2 -> calm w2 w3 -> calm w1 w3.
Proof.
  intros (F1 & D1 & G1 & n1 & T1 & W1) (F2 & D2 & G2 & n2 & T2 & W2).
  repeat split; try congruence.
  exists (n1 ++ n2). rewrite T2, T1, app_assoc, writes_app, W1, W2. auto.
Qed.

Lemma calm_emit (w : world) (e : event) :
  writes [e] = [] -> calm w (emit e w).
Proof. intros H. repeat split. now exists [e]. Qed.

Lemma all_fixed_calm (refactor : text -> text) (w w' : world) :
  calm w w' -> all_fixed refactor w -> all_fixed refactor w'.
Proof.
  intros (F & _) H p f c Hf Hd. rewrite F in Hf. eauto.
Qed.

Section Calm.

Variable refactor : text -> text.

Lemma process_file_with_calm (p : string) (w : world) :
  all_fixed refactor w ->
  exists w', process_file_with refactor p w = (Ret false, w') /\ calm w w'.
Proof.
  intros Hfix.
  unfold process_file_with, try_except, bind, read_text, print, ret.
  destruct (files w p) as [f|] eqn:Ef; simpl.
  - destruct (f_data f) as [c|e] eqn:Ed; simpl.
    + rewrite (Hfix p f c Ef Ed), text_eqb_refl. simpl.
      eexists. split; [reflexivity|]. now apply calm_emit.
    + eexists. split; [reflexivity|].
      eapply calm_trans; now apply calm_emit.
  - eexists. split; [reflexivity|].
    eapply calm_trans; now apply calm_emit.
Qed.

Lemma count_files_calm (l : list string) :
  forall (c t : nat) (w : world),
  all_fixed refactor w ->
  exists t' w',
    count_files (process_file_with refactor) l (c, t) w = (Ret (c, t'), w')
    /\ calm w w'.
Proof.
  unfold count_files.
  induction l as [|q l IH]; intros c t w Hfix; simpl.
  - exists t, w. split; [reflexivity | apply calm_refl].
  - unfold bind at 1. destruct (is_example q); simpl.
    + now apply IH.
    + unfold bind at 1.
      destruct (process_file_with_calm q Hfix) as (w1 & -> & C1). simpl.
      destruct (IH c (t + 1) w1 (all_fixed_calm C1 Hfix)) as (t' & w' & -> & C2).
      exists t', w'. split; [reflexivity | now apply calm_trans with w1].
Qed.

Variable body : string -> nat * nat -> M (nat * nat).

Hypothesis body_calm :
  forall lang c t w, all_fixed refactor w ->
  exists t' w', body lang (c, t) w = (Ret (c, t'), w') /\ calm w w'.

Lemma module_loop_calm (langs : list string) :
  forall (c t : nat) (w : world),
  all_fixed refactor w ->
  exists t' w', for_each langs body (c, t) w = (Ret (c, t'), w') /\ calm w w'.
Proof.
  induction langs as [|lang langs IH]; intros c t w Hfix.
  - exists t, w. split; [reflexivity | apply calm_refl].
  - cbn [for_each]. unfold bind at 1.
    destruct (body_calm lang c t Hfix) as (t1 & w1 & -> & C1).
    destruct (IH c t1 w1 (all_fixed_calm C1 Hfix)) as (t' & w' & -> & C2).
    exists t', w'. split; [reflexivity | now apply calm_trans with w1].
Qed.

End Calm.

Lemma parsers_module_calm lang c t w :
  all_fixed Parsers.refactor_content w ->
  exists t' w',
    ParsersMain.process_module lang (c, t) w = (Ret (c, t'), w') /\ calm w w'.
Proof.
  intros Hfix.
  unfold ParsersMain.process_module, ParsersMain.process_file.
  unfold bind at 1. unfold dir_exists.
  destruct (is_dir w _) eqn:E.
  - unfold bind, print, rglob. cbn beta iota.
    match goal with |- context [count_files _ ?l _ ?w1] =>
      assert (C0 : calm w w1)
        by (repeat (eapply calm_trans; [|now apply calm_emit]);
            apply calm_refl);
      destruct (count_files_calm l c t (all_fixed_calm C0 Hfix))
        as (t' & w' & Ec & C1)
    end.
    exists t', w'. split; [exact Ec | now eapply calm_trans; eauto].
  - exists t, w. split; [reflexivity | apply calm_refl].
Qed.

Lemma phase2_module_calm lang c t w :
  all_fixed Phase2.refactor_content_phase2 w ->
  exists t' w',
    Phase2Main.process_module lang (c, t) w = (Ret (c, t'), w') /\ calm w w'.
Proof.
  intros Hfix.
  unfold Phase2Main.process_module, Phase2Main.process_file.
  unfold bind at 1. unfold dir_exists.
  destruct (is_dir w _) eqn:E.
  - unfold bind, print, rglob. cbn beta iota.
    match goal with |- context [count_files _ ?l _ ?w1] =>
      assert (C0 : calm w w1)
        by (repeat (eapply calm_trans; [|now apply calm_emit]);
            apply calm_refl);
      destruct (count_files_calm l c t (all_fixed_calm C0 Hfix))
        as (t' & w' & Ec & C1)
    end.
    exists t', w'. split; [exact Ec | now eapply calm_trans; eauto].
  - exists t, w. split; [reflexivity | apply calm_refl].
Qed.

Lemma calm_events A (m : M A) (w : world) :
  calm w (snd (m w)) -> writes (events m w) = [] /\ files (snd (m w)) = files w.
Proof.
  intros (F & _ & _ & new & T & W). now rewrite (events_of _ _ _ T).
Qed.

Lemma unrelated_fixed (c : text) :
  unrelated c = true -> Parsers.refactor_content c = c.
Proof.
  unfold unrelated. intros H.
  repeat (apply andb_prop in H as [H ?]).
  apply parsers_nothing_to_do; now apply negb_true_iff.
Qed.

(** On a tree whose readable files hold none of the strings the rules look
    for, [main] of refactor_parsers.py reports no changed file, counts every
    eligible file, writes nothing and leaves every file as it was. *)
Theorem parsers_main_on_migrated_tree (w : world) :
  (forall p f c, files w p = Some f -> f_data f = inl c -> unrelated c = true) ->
  fst (ParsersMain.main w) = Ret (0, length (eligible ParsersMain.langs w))
  /\ writes (events ParsersMain.main w) = []
  /\ files (snd (ParsersMain.main w)) = files w.
Proof.
  intros H.
  assert (Hfix : all_fixed Parsers.refactor_content w).
  { intros p f c Hf Hd. apply unrelated_fixed. eauto. }
  assert (exists t' w', ParsersMain.main w = (Ret (0, t'), w') /\ calm w w')
    as (t' & w' & E & C).
  { unfold ParsersMain.main. unfold bind at 1.
    destruct (@module_loop_calm _ _ parsers_module_calm ParsersMain.langs 0 0 w Hfix)
      as (t' & w1 & -> & C1).
    unfold bind, print, ret. simpl. eexists _, _. split; [reflexivity|].
    repeat (eapply calm_trans; [|now apply calm_emit]). exact C1. }
  assert (C' : calm w (snd (ParsersMain.main w))) by (now rewrite E).
  apply calm_events in C'. split; [|exact C'].
  destruct (parsers_main_returns w) as (ch & w'' & E').
  rewrite E' in E. injection E as -> _. now rewrite E'.
Qed.

Lemma parsers_main_on_migrated_tree_witness :
  fst (ParsersMain.main Migrated.tree)
  = Ret (0, length (eligible ParsersMain.langs Migrated.tree))
  /\ writes (events ParsersMain.main Migrated.tree) = []
  /\ files (snd (ParsersMain.main Migrated.tree)) = files Migrated.tree.
Proof.
  apply (parsers_main_on_migrated_tree Migrated.tree).
  intros p f c Hf Hd. unfold Migrated.tree in Hf. cbn [files] in Hf.
  repeat match type of Hf with
  | (if ?b then _ else _) = _ => destruct b
  end; try discriminate; injection Hf as <-; simpl in Hd;
    try discriminate; injection Hd as <-; vm_compute; reflexivity.
Defined.

(** On a tree whose readable files hold no [Token::], [main] of
    refactor_parsers_phase2.py reports no changed file, counts every eligible
    file, writes nothing and leaves every file as it was. *)
Theorem phase2_main_on_migrated_tree (w : world) :
  (forall p f c, files w p = Some f -> f_data f = inl c ->
                 contains token_ref c = false) ->
  fst (Phase2Main.main w) = Ret (0, length (eligible Phase2Main.langs w))
  /\ writes (events Phase2Main.main w) = []
  /\ files (snd (Phase2Main.main w)) = files w.
Proof.
  intros H.
  assert (Hfix : all_fixed Phase2.refactor_content_phase2 w).
  { intros p f c Hf Hd. apply phase2_nothing_to_do. eauto. }
  assert (exists t' w', Phase2Main.main w = (Ret (0, t'), w') /\ calm w w')
    as (t' & w' & E & C).
  { unfold Phase2Main.main. unfold bind at 1.
    destruct (@module_loop_calm _ _ phase2_module_calm Phase2Main.langs 0 0 w Hfix)
      as (t' & w1 & -> & C1).
    unfold bind, print, ret. simpl. eexists _, _. split; [reflexivity|].
    repeat (eapply calm_trans; [|now apply calm_emit]). exact C1. }
  assert (C' : calm w (snd (Phase2Main.main w))) by (now rewrite E).
  apply calm_events in C'. split; [|exact C'].
  destruct (phase2_main_returns w) as (ch & w'' & E').
  rewrite E' in E. injection E as -> _. now rewrite E'.
Qed.

Lemma phase2_main_on_migrated_tree_witness :
  fst (Phase2Main.main Migrated.tree)
  = Ret (0, length (eligible Phase2Main.langs Migrated.tree))
  /\ writes (events Phase2Main.main Migrated.tree) = []
  /\ files (snd (Phase2Main.main Migrated.tree)) = files Migrated.tree.
Proof.
  apply (phase2_main_on_migrated_tree Migrated.tree).
  intros p f c Hf Hd. unfold Migrated.tree in Hf. cbn [files] in Hf.
  repeat match type of Hf with
  | (if ?b then _ else _) = _ => destruct b
  end; try discriminate; injection Hf as <-; simpl in Hd;
    try discriminate; injection Hd as <-; vm_compute; reflexivity.
Defined.

(** ** Following a match forward *)

Lemma star_k_all R (cs : cset) (k : text -> nat -> option R) w s pos r :
  forallb (cset_mem cs) w = true -> stops cs s = true ->
  k s (pos + length w) = Some r ->
  star_k cs k (w ++ s) pos = Some r.
Proof.
  revert pos. induction w as [|a w IH]; intros pos Hw Hs Hk; simpl in *.
  - rewrite Nat.add_0_r in Hk. destruct s as [|c s]; [exact Hk|].
    simpl in Hs. apply negb_true_iff in Hs. simpl. now rewrite Hs.
  - apply andb_prop in Hw as [Ha Hw]. rewrite Ha.
    rewrite (IH (S pos)); auto. now rewrite Nat.add_succ_r in Hk.
Qed.

Section Forward.

Variables (q : pattern) (s : text) (pos : nat) (m : marks) (r : nat * marks).

Lemma run_lit1_ok (c : ascii) :
  run q s (S pos) m = Some r -> run (Lit c :: q) (c :: s) pos m = Some r.
Proof. simpl. now rewrite Ascii.eqb_refl. Qed.

Lemma run_open_ok (g : nat) :
  run q s pos (mark_open g pos m) = Some r -> run (Open g :: q) s pos m = Some r.
Proof. trivial. Qed.

Lemma run_close_ok (g : nat) :
  run q s pos (mark_close g pos m) = Some r ->
  run (Close g :: q) s pos m = Some r.
Proof. trivial. Qed.

Lemma run_star_ok (cs : cset) (w : text) :
  forallb (cset_mem cs) w = true -> stops cs s = true ->
  run q s (pos + length w) m = Some r ->
  run (Star cs :: q) (w ++ s) pos m = Some r.
Proof. intros Hw Hs Hk. simpl. now apply star_k_all. Qed.

Lemma run_plus_ok (cs : cset) (w : text) :
  w <> [] -> forallb (cset_mem cs) w = true -> stops cs s = true ->
  run q s (pos + length w) m = Some r ->
  run (Plus cs :: q) (w ++ s) pos m = Some r.
Proof.
  intros Hn Hw Hs Hk. destruct w as [|a w]; [congruence|].
  simpl in *. apply andb_prop in Hw as [Ha Hw]. rewrite Ha.
  apply star_k_all; auto. now rewrite Nat.add_succ_r in Hk.
Qed.

Lemma run_opt_take (cs : cset) (c : ascii) :
  cset_mem cs c = true ->
  run q s (S pos) m = Some r -> run (Opt cs :: q) (c :: s) pos m = Some r.
Proof. intros Hc Hk. simpl. now rewrite Hc, Hk. Qed.

Lemma run_opt_skip (cs : cset) :
  stops cs s = true ->
  run q s pos m = Some r -> run (Opt cs :: q) s pos m = Some r.
Proof.
  intros Hs Hk. simpl. destruct s as [|c s']; [exact Hk|].
  simpl in Hs. apply negb_true_iff in Hs. now rewrite Hs.
Qed.

End Forward.

(** One step of a match over text that is written out. *)
Ltac advance :=
  lazymatch goal with
  | |- run [] _ _ _ = Some _ => reflexivity
  | |- run (Lit _ :: _) (_ :: _) _ _ = Some _ => apply run_lit1_ok
  | |- run (Open _ :: _) _ _ _ = Some _ => apply run_open_ok
  | |- run (Close _ :: _) _ _ _ = Some _ => apply run_close_ok
  | |- run (Star ?cs :: _) (?c :: ?s) ?pos _ = Some _ =>
      first [ apply (@run_star_ok _ s pos _ _ cs [c]); [reflexivity | reflexivity |]
            | apply (@run_star_ok _ (c :: s) pos _ _ cs []); [reflexivity | reflexivity |] ]
  | |- run (Plus ?cs :: _) (?c :: ?s) ?pos _ = Some _ =>
      apply (@run_plus_ok _ s pos _ _ cs [c]);
      [discriminate | reflexivity | reflexivity |]
  | |- run (Opt ?cs :: _) (?c :: ?s) _ _ = Some _ =>
      first [ apply run_opt_take; [reflexivity |]
            | apply run_opt_skip; [reflexivity |] ]
  end.

(** [re.sub] after a match of positive length. *)
Lemma sub_go_skip (p : pattern) (repl : mobj -> text) (count : option nat) :
  forall (s : text) (k : nat),
  k <= length s ->
  sub_go p repl count s k = sub_go p repl count (skipn k s) 0.
Proof.
  induction s as [|c s IH]; intros k Hk.
  - simpl in Hk. now replace k with 0 by lia.
  - destruct k; [reflexivity|]. simpl in *. apply IH. lia.
Qed.

Lemma sub_at_match (p : pattern) (t : list piece) (s : text) (m : mobj) :
  match_at p s = Some m -> 0 < m_len m <= length s ->
  sub p t s = expand t m ++ sub p t (skipn (m_len m) s).
Proof.
  intros E [Hpos Hlen]. unfold sub, sub_fn.
  destruct s as [|c s]; [simpl in Hlen; lia|].
  simpl. rewrite E. destruct (m_len m) as [|k]; [lia|].
  simpl in Hlen. rewrite sub_go_skip by lia. reflexivity.
Qed.

Lemma sub_prefix (p : pattern) (t : list piece) (pre rest : text) :
  none_starts_in p pre rest = true ->
  sub p t (pre ++ rest) = pre ++ sub p t rest.
Proof.
  induction pre as [|c pre IH]; intros H; [reflexivity|].
  simpl in H. unfold sub, sub_fn in *. simpl.
  destruct (match_at p (c :: pre ++ rest)); [discriminate|].
  now rewrite IH.
Qed.

Lemma upper_not_space (a : ascii) :
  cset_mem upper_ a = true -> cset_mem sp a = false.
Proof.
  destruct a as [[] [] [] [] [] [] [] []]; vm_compute; congruence.
Qed.

Lemma stops_before (cs cs' : cset) (w s : text) :
  w <> [] -> forallb (cset_mem cs') w = true ->
  (forall a, cset_mem cs' a = true -> cset_mem cs a = false) ->
  stops cs (w ++ s) = true.
Proof.
  intros Hn Hw H. destruct w as [|a w]; [congruence|].
  simpl in *. apply andb_prop in Hw as [Ha _]. now rewrite (H a Ha).
Qed.

Lemma group_span (txt pre w post : text) (b e : nat) :
  txt = pre ++ w ++ post -> b = length pre -> e = b + length w ->
  firstn (e - b) (skipn b txt) = w.
Proof.
  intros -> -> ->. rewrite skipn_app, skipn_all, Nat.sub_diag. simpl.
  replace (length pre + length w - length pre) with (length w) by lia.
  rewrite firstn_app, Nat.sub_diag, firstn_all. simpl. apply app_nil_r.
Qed.

Ltac marks_out :=
  unfold group;
  cbn [m_marks m_text closed opened mark_close mark_open assoc Nat.eqb no_marks].

(** ** The consume-and-expect rules *)

Lemma rule9_run (c e post : text) :
  c <> [] -> forallb (cset_mem upper_) c = true ->
  e <> [] -> forallb (cset_mem not_rparen) e = true ->
  exists n m,
    run Parsers.p9 (consume_expect c e ++ post) 0 no_marks = Some (n, m)
    /\ n = length (consume_expect c e)
    /\ group (Mobj (consume_expect c e ++ post) n m) 1 = c
    /\ group (Mobj (consume_expect c e ++ post) n m) 2 = e.
Proof.
  intros Hc Hcu He Hen. eexists _, _. split.
  - unfold consume_expect, Parsers.p9.
    rewrite <- !app_assoc.
    cbn [app str list_ascii_of_string lit map ws0 ws1 grp].
    repeat advance.
    apply (@run_plus_ok _ _ _ _ _ sp [" "%char]);
      [discriminate | reflexivity
      | now apply stops_before with (cs' := upper_);
          auto using upper_not_space |].
    advance.
    apply run_plus_ok; [exact Hc | exact Hcu | reflexivity |].
    repeat advance.
    apply run_plus_ok; [exact He | exact Hen | reflexivity |].
    repeat advance.
  - split; [|split].
    + unfold consume_expect. rewrite !length_app. simpl. lia.
    + marks_out.
      apply group_span
        with (pre := str "match parser.advance() { Token::Feature(k) if k == ")
             (post := str " => {}, _ => return Err(" ++ e ++ str "), }" ++ post).
      * unfold consume_expect. now rewrite <- !app_assoc.
      * simpl. lia.
      * simpl. lia.
    + marks_out.
      apply group_span
        with (pre := str "match parser.advance() { Token::Feature(k) if k == "
                     ++ c ++ str " => {}, _ => return Err(")
             (post := str "), }" ++ post).
      * unfold consume_expect. now rewrite <- !app_assoc.
      * rewrite ?length_app. simpl. lia.
      * rewrite ?length_app. simpl. lia.
Qed.

Lemma rule9_at (pre c e post : text) :
  c <> [] -> forallb (cset_mem upper_) c = true ->
  e <> [] -> forallb (cset_mem not_rparen) e = true ->
  none_starts_in Parsers.p9 pre (consume_expect c e ++ post) = true ->
  sub Parsers.p9 Parsers.t9 (pre ++ consume_expect c e ++ post)
  = pre ++ expect_check c e ++ sub Parsers.p9 Parsers.t9 post.
Proof.
  intros Hc Hcu He Hen Hpre.
  rewrite sub_prefix by exact Hpre. f_equal.
  destruct (rule9_run post Hc Hcu He Hen) as (n & m & R & Hn & G1 & G2).
  rewrite (@sub_at_match _ _ _ (Mobj (consume_expect c e ++ post) n m)).
  - unfold Parsers.t9, expand. cbn [flat_map]. rewrite G1, G2.
    cbn [m_len]. rewrite Hn, skipn_app, skipn_all, Nat.sub_diag.
    unfold expect_check. simpl skipn. now rewrite <- !app_assoc.
  - unfold match_at. now rewrite R.
  - cbn [m_len]. rewrite Hn, length_app. unfold consume_expect.
    rewrite !length_app. simpl. lia.
Qed.

(** Rule 9 of [refactor_content]: where the consume-and-expect construct for
    a constant of capitals and underscores stands with an error expression
    that holds no closing parenthesis, and no match starts before it, the
    substitution puts the single conditional in its place, with the constant
    and the error expression copied as they are, and goes on after it. *)
Theorem rule9_rewrites_consume_expect (pre c e post : text) :
  c <> [] -> forallb (cset_mem upper_) c = true ->
  e <> [] -> forallb (cset_mem not_rparen) e = true ->
  none_starts_in Parsers.p9 pre (consume_expect c e ++ post) = true ->
  sub Parsers.p9 Parsers.t9 (pre ++ consume_expect c e ++ post)
  = pre ++ expect_check c e ++ sub Parsers.p9 Parsers.t9 post.
Proof. apply rule9_at. Qed.

Lemma rule9_rewrites_consume_expect_witness :
  sub Parsers.p9 Parsers.t9
    (str "let x = 1; " ++ consume_expect (str "LPAREN") (str "MISSING")
     ++ str " next();")
  = str "let x = 1; " ++ expect_check (str "LPAREN") (str "MISSING")
    ++ sub Parsers.p9 Parsers.t9 (str " next();").
Proof.
  apply (rule9_rewrites_consume_expect (str "let x = 1; ") (c := str "LPAREN")
           (e := str "MISSING") (str " next();"));
    try discriminate; vm_compute; reflexivity.
Defined.

Lemma phase2_rule3_run (c e post : text) :
  c <> [] -> forallb (cset_mem upper_colon) c = true ->
  e <> [] -> forallb (cset_mem not_rparen) e = true ->
  exists n m,
    run Phase2.p3 (consume_expect_direct c e ++ post) 0 no_marks = Some (n, m)
    /\ n = length (consume_expect_direct c e)
    /\ group (Mobj (consume_expect_direct c e ++ post) n m) 1 = c
    /\ group (Mobj (consume_expect_direct c e ++ post) n m) 2 = e.
Proof.
  intros Hc Hcu He Hen. eexists _, _. split.
  - unfold consume_expect_direct, Phase2.p3.
    rewrite <- !app_assoc.
    cbn [app str list_ascii_of_string lit map ws0 ws1 grp].
    repeat advance.
    apply run_plus_ok; [exact Hc | exact Hcu | reflexivity |].
    repeat advance.
    apply run_plus_ok; [exact He | exact Hen | reflexivity |].
    repeat advance.
  - split; [|split].
    + unfold consume_expect_direct. rewrite !length_app. simpl. lia.
    + marks_out.
      apply group_span
        with (pre := str "match parser.advance() { Token::Feature(")
             (post := str ") => {} _ => return Err(" ++ e ++ str ") }" ++ post).
      * unfold consume_expect_direct. now rewrite <- !app_assoc.
      * simpl. lia.
      * simpl. lia.
    + marks_out.
      apply group_span
        with (pre := str "match parser.advance() { Token::Feature("
                     ++ c ++ str ") => {} _ => return Err(")
             (post := str ") }" ++ post).
      * unfold consume_expect_direct. now rewrite <- !app_assoc.
      * rewrite ?length_app. simpl. lia.
      * rewrite ?length_app. simpl. lia.
Qed.

Lemma phase2_rule3_at (pre c e post : text) :
  c <> [] -> forallb (cset_mem upper_colon) c = true ->
  e <> [] -> forallb (cset_mem not_rparen) e = true ->
  none_starts_in Phase2.p3 pre (consume_expect_direct c e ++ post) = true ->
  sub Phase2.p3 Phase2.t3 (pre ++ consume_expect_direct c e ++ post)
  = pre ++ expect_check c e ++ sub Phase2.p3 Phase2.t3 post.
Proof.
  intros Hc Hcu He Hen Hpre.
  rewrite sub_prefix by exact Hpre. f_equal.
  destruct (phase2_rule3_run post Hc Hcu He Hen) as (n & m & R & Hn & G1 & G2).
  rewrite (@sub_at_match _ _ _ (Mobj (consume_expect_direct c e ++ post) n m)).
  - unfold Phase2.t3, expand. cbn [flat_map]. rewrite G1, G2.
    cbn [m_len]. rewrite Hn, skipn_app, skipn_all, Nat.sub_diag.
    unfold expect_check. simpl skipn. now rewrite <- !app_assoc.
  - unfold match_at. now rewrite R.
  - cbn [m_len]. rewrite Hn, length_app. unfold consume_expect_direct.
    rewrite !length_app. simpl. lia.
Qed.

(** Rule 3 of [refactor_content_phase2]: the consume-and-expect construct
    with the constant named directly (capitals, underscores and colons) and
    an error expression without a closing parenthesis becomes the same single
    conditional, constant and error expression copied as they are. *)
Theorem phase2_rule3_rewrites_consume_expect (pre c e post : text) :
  c <> [] -> forallb (cset_mem upper_colon) c = true ->
  e <> [] -> forallb (cset_mem not_rparen) e = true ->
  none_starts_in Phase2.p3 pre (consume_expect_direct c e ++ post) = true ->
  sub Phase2.p3 Phase2.t3 (pre ++ consume_expect_direct c e ++ post)
  = pre ++ expect_check c e ++ sub Phase2.p3 Phase2.t3 post.
Proof. apply phase2_rule3_at. Qed.

Lemma phase2_rule3_rewrites_witness :
  sub Phase2.p3 Phase2.t3
    (str "let x = 1; "
     ++ consume_expect_direct (str "OPS::LPAREN") (str "MISSING")
     ++ str " next();")
  = str "let x = 1; " ++ expect_check (str "OPS::LPAREN") (str "MISSING")
    ++ sub Phase2.p3 Phase2.t3 (str " next();").
Proof.
  apply (phase2_rule3_rewrites_consume_expect (str "let x = 1; ")
           (c := str "OPS::LPAREN") (e := str "MISSING") (str " next();"));
    try discriminate; vm_compute; reflexivity.
Defined.

(** ** How far a match reaches, and the first match of a scan *)

Lemma run_length (p : pattern) :
  forall s pos m n m',
  run p s pos m = Some (n, m') -> pos <= n <= pos + length s.
Proof.
  induction p as [|i p IH]; intros s pos m n m' H.
  - injection H as <- _. lia.
  - destruct i; cbn [run] in H.
    + destruct s as [|c' s]; [discriminate|].
      destruct (Ascii.eqb c c'); [|discriminate].
      apply IH in H. simpl. lia.
    + destruct s as [|c' s]; [discriminate|].
      destruct (cset_mem s0 c'); [|discriminate].
      apply IH in H. simpl. lia.
    + apply star_k_inv in H as (w & s' & -> & _ & K).
      apply IH in K. rewrite length_app. lia.
    + destruct s as [|c' s]; [discriminate|].
      destruct (cset_mem s0 c'); [|discriminate].
      apply star_k_inv in H as (w & s' & -> & _ & K).
      apply IH in K. simpl. rewrite length_app. lia.
    + destruct s as [|c' s]; [now apply IH in H|].
      destruct (cset_mem s0 c').
      * destruct (run p s (S pos) m) as [[n1 m1]|] eqn:E.
        -- injection H as <- <-. apply IH in E. simpl. lia.
        -- now apply IH in H.
      * now apply IH in H.
    + now apply IH in H.
    + now apply IH in H.
    + apply alt_k_inv in H as (w & s' & _ & -> & K).
      apply IH in K. rewrite length_app. lia.
Qed.

Lemma match_at_length (p : pattern) (s : text) (m : mobj) :
  match_at p s = Some m -> m_len m <= length s.
Proof.
  unfold match_at. destruct (run p s 0 no_marks) as [[n m']|] eqn:E;
    [|discriminate].
  intros H. injection H as <-. apply run_length in E. simpl. lia.
Qed.

Lemma match_at_lit_positive (c : ascii) (q : pattern) (s : text) (m : mobj) :
  match_at (Lit c :: q) s = Some m -> 0 < m_len m.
Proof.
  unfold match_at. destruct (run _ s 0 no_marks) as [[n m']|] eqn:E;
    [|discriminate].
  intros H. injection H as <-. simpl in *.
  destruct s as [|c' s]; [discriminate|].
  destruct (Ascii.eqb c c'); [|discriminate].
  apply run_length in E. lia.
Qed.

Lemma search_first (p : pattern) (s : text) :
  search p s = true ->
  exists a b m, s = a ++ b /\ none_starts_in p a b = true
                /\ match_at p b = Some m.
Proof.
  induction s as [|c s IH]; cbn [search]; intros H.
  - destruct (match_at p []) as [m|] eqn:E; [|discriminate].
    now exists [], [], m.
  - destruct (match_at p (c :: s)) as [m|] eqn:E.
    + now exists [], (c :: s), m.
    + destruct (IH H) as (a & b & m & -> & N & M).
      exists (c :: a), b, m. simpl. now rewrite E.
Qed.

Lemma search_app_intro (p : pattern) (a x : text) :
  none_starts_in p a x = true -> search p x = false ->
  search p (a ++ x) = false.
Proof.
  induction a as [|c a IH]; intros N S; [exact S|].
  simpl in *. destruct (match_at p (c :: a ++ x)); [discriminate|].
  now apply IH.
Qed.

(** One scan, seen from its first match. *)
Lemma sub_cases (c0 : ascii) (q : pattern) (t : list piece) (s : text) :
  (search (Lit c0 :: q) s = false /\ sub (Lit c0 :: q) t s = s)
  \/ exists a b m,
       s = a ++ b /\ none_starts_in (Lit c0 :: q) a b = true
       /\ match_at (Lit c0 :: q) b = Some m
       /\ 0 < m_len m <= length b
       /\ sub (Lit c0 :: q) t s
          = a ++ expand t m ++ sub (Lit c0 :: q) t (skipn (m_len m) b).
Proof.
  destruct (search (Lit c0 :: q) s) eqn:E.
  - right. destruct (search_first _ _ E) as (a & b & m & -> & N & M).
    assert (L : 0 < m_len m <= length b).
    { split; [eapply match_at_lit_positive | eapply match_at_length]; eauto. }
    exists a, b, m. repeat split; auto; try apply L.
    rewrite sub_prefix by exact N. f_equal. now apply sub_at_match.
  - left. split; [reflexivity | now apply sub_no_match].
Qed.

(** ** The boolean alternation rule and its duplicate *)

Lemma run_lit_ok (l : text) (q : pattern) (s : text) pos m r :
  run q s (pos + length l) m = Some r ->
  run (map Lit l ++ q) (l ++ s) pos m = Some r.
Proof.
  intros H. rewrite run_lit, starts_with_app.
  now rewrite skipn_app, skipn_all, Nat.sub_diag.
Qed.

Lemma p6_shape (s : text) pos m r :
  run Parsers.p6 s pos m = Some r ->
  exists w1 w2 w3 rest,
    s = bool_alternation w1 w2 w3 ++ rest
    /\ all_space w1 = true /\ all_space w2 = true /\ all_space w3 = true.
Proof.
  unfold Parsers.p6, lit, ws0. intros H.
  rewrite run_lit in H.
  destruct (starts_with _ s) eqn:E0; [|discriminate].
  apply starts_with_skipn in E0. set (s0 := skipn _ s) in *.
  cbn [app] in H. cbn [run] in H.
  apply star_k_inv in H as (w1 & s1 & E1 & W1 & H).
  rewrite run_lit in H.
  destruct (starts_with _ s1) eqn:E2; [|discriminate].
  apply starts_with_skipn in E2. set (s2 := skipn _ s1) in *.
  cbn [app] in H. cbn [run] in H.
  apply star_k_inv in H as (w2 & s3 & E3 & W2 & H).
  rewrite run_lit in H.
  destruct (starts_with _ s3) eqn:E4; [|discriminate].
  apply starts_with_skipn in E4. set (s4 := skipn _ s3) in *.
  cbn [app] in H. cbn [run] in H.
  apply star_k_inv in H as (w3 & s5 & E5 & W3 & H).
  rewrite <- (app_nil_r (map Lit _)), run_lit in H.
  destruct (starts_with _ s5) eqn:E6; [|discriminate].
  apply starts_with_skipn in E6. set (s6 := skipn _ s5) in *.
  exists w1, w2, w3, s6. repeat split; auto.
  unfold bool_alternation, bool_head, bool_true, bool_false.
  rewrite <- !app_assoc.
  rewrite E0. f_equal. rewrite E1. f_equal. rewrite E2. f_equal.
  rewrite E3. f_equal. rewrite E4. f_equal. rewrite E5. f_equal. exact E6.
Qed.

Lemma p6_complete (w1 w2 w3 rest : text) :
  all_space w1 = true -> all_space w2 = true -> all_space w3 = true ->
  match_at Parsers.p6 (bool_alternation w1 w2 w3 ++ rest) <> None.
Proof.
  intros W1 W2 W3.
  assert (exists r, run Parsers.p6 (bool_alternation w1 w2 w3 ++ rest) 0
                        no_marks = Some r) as [[n m] R].
  { eexists. unfold Parsers.p6, bool_alternation, lit, ws0.
    rewrite <- !app_assoc.
    apply run_lit_ok. cbn [app]. apply run_star_ok; [exact W1 | reflexivity |].
    apply run_lit_ok. cbn [app]. apply run_star_ok; [exact W2 | reflexivity |].
    apply run_lit_ok. cbn [app]. apply run_star_ok; [exact W3 | reflexivity |].
    rewrite <- (app_nil_r (map Lit _)). apply run_lit_ok. reflexivity. }
  unfold match_at. now rewrite R.
Qed.

Lemma alternation_chars (w1 w2 w3 : text) :
  all_space w1 = true -> all_space w2 = true -> all_space w3 = true ->
  forallb alternation_char (bool_alternation w1 w2 w3) = true.
Proof.
  assert (S : forall w, all_space w = true -> forallb alternation_char w = true).
  { intros w. unfold all_space. rewrite !forallb_forall. intros H c Hc.
    unfold alternation_char. now rewrite (H c Hc). }
  intros W1 W2 W3. unfold bool_alternation.
  rewrite !forallb_app, (S w1 W1), (S w2 W2), (S w3 W3). reflexivity.
Qed.

Lemma prefix_firstn (x y l r : text) :
  x ++ y = l ++ r -> length l <= length x -> l = firstn (length l) x.
Proof.
  intros E H. apply (f_equal (firstn (length l))) in E.
  rewrite !firstn_app, firstn_all, Nat.sub_diag in E. simpl in E.
  rewrite app_nil_r in E.
  replace (length l - length x) with 0 in E by lia.
  simpl in E. now rewrite app_nil_r in E.
Qed.

Lemma ends_with_of_app (a l u c : text) :
  a ++ l = u ++ c -> length l <= length c -> ends_with c l = true.
Proof.
  intros E H. unfold ends_with. apply starts_with_iff.
  apply app_eq_app in E as [k [[-> ->] | [-> E]]].
  - exists (rev k). now rewrite rev_app_distr.
  - subst l. rewrite length_app in H.
    destruct k; [|simpl in H; lia]. exists []. now rewrite app_nil_r.
Qed.

Lemma forallb_firstn {A} (f : A -> bool) (n : nat) (l : list A) :
  forallb f l = true -> forallb f (firstn n l) = true.
Proof.
  intros H. rewrite <- (firstn_skipn n l), forallb_app in H.
  now apply andb_prop in H.
Qed.

(** A text the rule matches cannot reach into a replacement the rule wrote:
    it ends before it. *)
Lemma alternation_before_replacement (a out w1 w2 w3 rest : text) :
  all_space w1 = true -> all_space w2 = true -> all_space w3 = true ->
  a ++ Parsers.bool_lower ++ out = bool_alternation w1 w2 w3 ++ rest ->
  exists rest', a = bool_alternation w1 w2 w3 ++ rest'.
Proof.
  intros W1 W2 W3 E.
  apply app_eq_app in E as [l [[-> _] | [Ew El]]]; [now exists l|].
  destruct l as [|x l]; [exists []; now rewrite app_nil_r in *|].
  exfalso.
  destruct (Nat.le_gt_cases (length (x :: l)) 15) as [Hl | Hl].
  - assert (P : x :: l = firstn (length (x :: l)) Parsers.bool_lower).
    { apply prefix_firstn with (y := out) (r := rest); [exact El|].
      eapply Nat.le_trans; [exact Hl|]. vm_compute. lia. }
    assert (S : ends_with bool_false (x :: l) = true).
    { unfold bool_alternation in Ew. rewrite !app_assoc in Ew.
      symmetry in Ew. apply ends_with_of_app in Ew; [exact Ew|].
      eapply Nat.le_trans; [exact Hl|]. vm_compute. lia. }
    rewrite P in S.
    assert (C : forallb (fun k => negb (ends_with bool_false
                                          (firstn k Parsers.bool_lower)))
                  (seq 1 15) = true) by (vm_compute; reflexivity).
    rewrite forallb_forall in C.
    specialize (C (length (x :: l))). rewrite S in C.
    assert (I : In (length (x :: l)) (seq 1 15)).
    { apply in_seq. simpl in *. lia. }
    specialize (C I). discriminate.
  - assert (P : firstn 16 (x :: l) = firstn 16 Parsers.bool_lower).
    { apply (f_equal (firstn 16)) in El.
      rewrite !firstn_app in El.
      replace (16 - length (x :: l)) with 0 in El by lia.
      replace (16 - length Parsers.bool_lower) with 0 in El
        by (vm_compute; reflexivity).
      simpl firstn at 2 in El. simpl firstn at 3 in El.
      rewrite !app_nil_r in El. now symmetry. }
    assert (F : forallb alternation_char (x :: l) = true).
    { pose proof (alternation_chars w1 w2 w3 W1 W2 W3) as F.
      rewrite Ew, forallb_app in F. now apply andb_prop in F. }
    apply forallb_firstn with (n := 16) in F. rewrite P in F.
    vm_compute in F. discriminate.
Qed.

Lemma none_starts_carry (a b out : text) :
  none_starts_in Parsers.p6 a b = true ->
  none_starts_in Parsers.p6 a (Parsers.bool_lower ++ out) = true.
Proof.
  induction a as [|c a IH]; intros H; [reflexivity|].
  cbn [none_starts_in] in *.
  destruct (match_at Parsers.p6 ((c :: a) ++ b)) eqn:Eb; [discriminate|].
  destruct (match_at Parsers.p6 ((c :: a) ++ Parsers.bool_lower ++ out))
    eqn:Eo; [|now apply IH].
  exfalso. unfold match_at in Eo.
  destruct (run Parsers.p6 _ 0 no_marks) as [r|] eqn:R; [|discriminate].
  apply p6_shape in R as (w1 & w2 & w3 & rest & E & W1 & W2 & W3).
  apply alternation_before_replacement in E as [rest' E]; auto.
  rewrite E, <- app_assoc in Eb.
  now apply (p6_complete w1 w2 w3 (rest' ++ b)).
Qed.

Lemma replacement_clear (out : text) :
  search Parsers.p6 out = false ->
  search Parsers.p6 (Parsers.bool_lower ++ out) = false.
Proof.
  intros H. apply search_app_intro; [|exact H].
  vm_compute. reflexivity.
Qed.

Lemma first_boolean_rule_clears (n : nat) :
  forall s, length s <= n ->
  search Parsers.p6 (sub Parsers.p6 Parsers.t6a s) = false.
Proof.
  induction n as [|n IH]; intros s Hs.
  - destruct s; [vm_compute; reflexivity | simpl in Hs; lia].
  - pose proof (sub_cases "m" (tl Parsers.p6) Parsers.t6a s) as C.
    change (Lit "m" :: tl Parsers.p6) with Parsers.p6 in C.
    destruct C as [[S E] | (a & b & m & -> & N & M & L & E)].
    + now rewrite E.
    + rewrite E. unfold Parsers.t6a, expand. cbn [flat_map].
      rewrite app_nil_r.
      assert (O : search Parsers.p6
                    (sub Parsers.p6 Parsers.t6a (skipn (m_len m) b)) = false).
      { apply IH. rewrite length_skipn. rewrite length_app in Hs. lia. }
      apply search_app_intro; [|now apply replacement_clear].
      now apply none_starts_carry with (b := b).
Qed.

Lemma duplicate_rule_is_dead (s : text) :
  search Parsers.p6 (sub Parsers.p6 Parsers.t6a s) = false
  /\ sub Parsers.p6 Parsers.t6b (sub Parsers.p6 Parsers.t6a s)
     = sub Parsers.p6 Parsers.t6a s.
Proof.
  assert (H : search Parsers.p6 (sub Parsers.p6 Parsers.t6a s) = false)
    by (apply (@first_boolean_rule_clears (length s) s); lia).
  split; [exact H | now apply sub_no_match].
Qed.

(** Rule 6 is written twice with one pattern: once the first of the two has
    run, the pattern matches nowhere, so the second, with its upper-case
    replacement, changes nothing, whatever the input. *)
Theorem second_boolean_rule_never_fires (s : text) :
  search Parsers.p6 (sub Parsers.p6 Parsers.t6a s) = false
  /\ sub Parsers.p6 Parsers.t6b (sub Parsers.p6 Parsers.t6a s)
     = sub Parsers.p6 Parsers.t6a s.
Proof. apply duplicate_rule_is_dead. Qed.

Lemma p6_run (w1 w2 w3 rest : text) :
  all_space w1 = true -> all_space w2 = true -> all_space w3 = true ->
  exists n m,
    run Parsers.p6 (bool_alternation w1 w2 w3 ++ rest) 0 no_marks = Some (n, m)
    /\ n = length (bool_alternation w1 w2 w3).
Proof.
  intros W1 W2 W3. eexists _, _. split.
  - unfold Parsers.p6, bool_alternation, lit, ws0.
    rewrite <- !app_assoc.
    apply run_lit_ok. cbn [app]. apply run_star_ok; [exact W1 | reflexivity |].
    apply run_lit_ok. cbn [app]. apply run_star_ok; [exact W2 | reflexivity |].
    apply run_lit_ok. cbn [app]. apply run_star_ok; [exact W3 | reflexivity |].
    rewrite <- (app_nil_r (map Lit _)). apply run_lit_ok. reflexivity.
  - unfold bool_alternation. rewrite !length_app. simpl. lia.
Qed.

Lemma rule6_at (pre w1 w2 w3 post : text) :
  all_space w1 = true -> all_space w2 = true -> all_space w3 = true ->
  none_starts_in Parsers.p6 pre (bool_alternation w1 w2 w3 ++ post) = true ->
  sub Parsers.p6 Parsers.t6a (pre ++ bool_alternation w1 w2 w3 ++ post)
  = pre ++ Parsers.bool_lower ++ sub Parsers.p6 Parsers.t6a post.
Proof.
  intros W1 W2 W3 Hpre.
  rewrite sub_prefix by exact Hpre. f_equal.
  destruct (@p6_run w1 w2 w3 post W1 W2 W3) as (n & m & R & Hn).
  rewrite (@sub_at_match _ _ _ (Mobj (bool_alternation w1 w2 w3 ++ post) n m)).
  - unfold Parsers.t6a, expand. cbn [flat_map m_len].
    now rewrite app_nil_r, Hn, skipn_app, skipn_all, Nat.sub_diag.
  - unfold match_at. now rewrite R.
  - cbn [m_len]. rewrite Hn, length_app. unfold bool_alternation.
    rewrite !length_app. simpl. lia.
Qed.

(** Rule 6 of [refactor_content]: the alternation of the two boolean
    constants, with any white space at the three places the pattern allows
    it, becomes the lower-case disjunction, and the scan goes on after it. *)
Theorem rule6_rewrites_boolean_alternation (pre w1 w2 w3 post : text) :
  all_space w1 = true -> all_space w2 = true -> all_space w3 = true ->
  none_starts_in Parsers.p6 pre (bool_alternation w1 w2 w3 ++ post) = true ->
  sub Parsers.p6 Parsers.t6a (pre ++ bool_alternation w1 w2 w3 ++ post)
  = pre ++ Parsers.bool_lower ++ sub Parsers.p6 Parsers.t6a post.
Proof. apply rule6_at. Qed.

Lemma rule6_rewrites_boolean_alternation_witness :
  sub Parsers.p6 Parsers.t6a
    (str "if " ++ bool_alternation (str " ") [nl] (str "  ") ++ str " { }")
  = str "if " ++ Parsers.bool_lower ++ sub Parsers.p6 Parsers.t6a (str " { }").
Proof.
  apply (rule6_rewrites_boolean_alternation (str "if ") (str " ") [nl]
           (str "  ") (str " { }"));
    vm_compute; reflexivity.
Defined.

(** ** What [process_file] leaves behind *)

Lemma process_file_with_writes_back (refactor : text -> text) w p f c :
  files w p = Some f -> f_data f = inl c -> f_locked f = None ->
  refactor c <> c ->
  fst (process_file_with refactor p w) = Ret true
  /\ files (snd (process_file_with refactor p w)) p
     = Some (File (inl (refactor c)) None)
  /\ forall q, q <> p ->
       files (snd (process_file_with refactor p w)) q = files w q.
Proof.
  intros Hf Hd Hl Hc.
  unfold process_file_with, try_except, bind, read_text, write_text, print, ret.
  rewrite Hf, Hd. simpl.
  destruct (text_eqb (refactor c) c) eqn:E; [now apply text_eqb_iff in E|].
  simpl. rewrite Hf, Hl. simpl. rewrite String.eqb_refl.
  repeat split. intros q Hq. apply String.eqb_neq in Hq. now rewrite Hq.
Qed.

(** When a file can be read and written and the transformation changes its
    text, [process_file] of each of the three scripts leaves the transformed
    text in that file and every other file as it was; the two counting
    scripts return [True]. *)
Theorem process_file_stores_the_transformed_text
    (w : world) (p : string) (f : file) (c : text) :
  files w p = Some f -> f_data f = inl c -> f_locked f = None ->
  (Parsers.refactor_content c <> c ->
   fst (ParsersMain.process_file p w) = Ret true
   /\ files (snd (ParsersMain.process_file p w)) p
      = Some (File (inl (Parsers.refactor_content c)) None)
   /\ forall q, q <> p ->
        files (snd (ParsersMain.process_file p w)) q = files w q)
  /\ (Phase2.refactor_content_phase2 c <> c ->
      fst (Phase2Main.process_file p w) = Ret true
      /\ files (snd (Phase2Main.process_file p w)) p
         = Some (File (inl (Phase2.refactor_content_phase2 c)) None)
      /\ forall q, q <> p ->
           files (snd (Phase2Main.process_file p w)) q = files w q)
  /\ (Lexeme.transform c <> c -> is_example p = false ->
      fst (LexemeMain.process_file p w) = Ret tt
      /\ files (snd (LexemeMain.process_file p w)) p
         = Some (File (inl (Lexeme.transform c)) None)
      /\ forall q, q <> p ->
           files (snd (LexemeMain.process_file p w)) q = files w q).
Proof.
  intros Hf Hd Hl.
  split; [intros Hc; now apply process_file_with_writes_back with (f := f)|].
  split; [intros Hc; now apply process_file_with_writes_back with (f := f)|].
  intros Hc He.
  unfold LexemeMain.process_file, bind, read_text, write_text, print, ret.
  rewrite He, Hf, Hd. simpl.
  destruct (text_eqb (Lexeme.transform c) c) eqn:E;
    [now apply text_eqb_iff in E|].
  simpl. rewrite Hf, Hl. simpl. rewrite String.eqb_refl.
  repeat split. intros q Hq. apply String.eqb_neq in Hq. now rewrite Hq.
Qed.

Lemma process_file_stores_witness :
  files (snd (ParsersMain.process_file Worlds.b_rs Worlds.broken)) Worlds.b_rs
  = Some (File (inl (Parsers.refactor_content Worlds.peek_text)) None)
  /\ files (snd (LexemeMain.process_file Worlds.b_rs Worlds.broken)) Worlds.b_rs
     = Some (File (inl (Lexeme.transform Worlds.peek_text)) None).
Proof.
  destruct (process_file_stores_the_transformed_text Worlds.broken Worlds.b_rs
              (f := File (inl Worlds.peek_text) None) (c := Worlds.peek_text)
              eq_refl eq_refl eq_refl) as (A & _ & B).
  split.
  - apply A. intros H. vm_compute in H. discriminate H.
  - apply B; [|reflexivity]. intros H. vm_compute in H. discriminate H.
Defined.

(** ** The counters *)

Section Counters.

Variable refactor : text -> text.

Lemma count_files_bound (l : list string) :
  forall (c t : nat) (w : world),
  exists c' t' w',
    count_files (process_file_with refactor) l (c, t) w = (Ret (c', t'), w')
    /\ c <= c' /\ c' + t <= c + t'.
Proof.
  unfold count_files.
  induction l as [|q l IH]; intros c t w; simpl.
  - exists c, t, w. repeat split; lia.
  - unfold bind at 1. destruct (is_example q); simpl; [apply IH|].
    unfold bind at 1.
    destruct (process_file_with_returns refactor q w) as (b & w1 & -> & _).
    destruct b; simpl.
    + destruct (IH (c + 1) (t + 1) w1) as (c' & t' & w' & -> & B1 & B2).
      exists c', t', w'. repeat split; lia.
    + destruct (IH c (t + 1) w1) as (c' & t' & w' & -> & B1 & B2).
      exists c', t', w'. repeat split; lia.
Qed.

Variable body : string -> nat * nat -> M (nat * nat).

Hypothesis body_bound :
  forall lang c t w,
  exists c' t' w',
    body lang (c, t) w = (Ret (c', t'), w') /\ c <= c' /\ c' + t <= c + t'.

Lemma module_loop_bound (langs : list string) :
  forall (c t : nat) (w : world),
  exists c' t' w',
    for_each langs body (c, t) w = (Ret (c', t'), w')
    /\ c <= c' /\ c' + t <= c + t'.
Proof.
  induction langs as [|lang langs IH]; intros c t w.
  - exists c, t, w. repeat split; simpl; lia.
  - cbn [for_each]. unfold bind at 1.
    destruct (body_bound lang c t w) as (c1 & t1 & w1 & -> & B1 & B2).
    destruct (IH c1 t1 w1) as (c' & t' & w' & -> & B3 & B4).
    exists c', t', w'. repeat split; lia.
Qed.

End Counters.

Lemma parsers_module_bound lang c t w :
  exists c' t' w',
    ParsersMain.process_module lang (c, t) w = (Ret (c', t'), w')
    /\ c <= c' /\ c' + t <= c + t'.
Proof.
  unfold ParsersMain.process_module, ParsersMain.process_file.
  unfold bind at 1. unfold dir_exists.
  destruct (is_dir w _).
  - unfold bind, print, rglob. cbn beta iota. apply count_files_bound.
  - exists c, t, w. repeat split; lia.
Qed.

Lemma phase2_module_bound lang c t w :
  exists c' t' w',
    Phase2Main.process_module lang (c, t) w = (Ret (c', t'), w')
    /\ c <= c' /\ c' + t <= c + t'.
Proof.
  unfold Phase2Main.process_module, Phase2Main.process_file.
  unfold bind at 1. unfold dir_exists.
  destruct (is_dir w _).
  - unfold bind, print, rglob. cbn beta iota. apply count_files_bound.
  - exists c, t, w. repeat split; lia.
Qed.

(** The two counting scripts never report more changed files than files
    examined: in what [main] returns, [changed_count <= total_count]. *)
Theorem changed_count_within_total (w : world) :
  (exists changed total,
     fst (ParsersMain.main w) = Ret (changed, total) /\ changed <= total)
  /\ (exists changed total,
        fst (Phase2Main.main w) = Ret (changed, total) /\ changed <= total).
Proof.
  split.
  - unfold ParsersMain.main. unfold bind at 1.
    destruct (@module_loop_bound _ parsers_module_bound ParsersMain.langs 0 0 w)
      as (c' & t' & w' & -> & B1 & B2).
    exists c', t'. unfold bind, print, ret. simpl. split; [reflexivity | lia].
  - unfold Phase2Main.main. unfold bind at 1.
    destruct (@module_loop_bound _ phase2_module_bound Phase2Main.langs 0 0 w)
      as (c' & t' & w' & -> & B1 & B2).
    exists c', t'. unfold bind, print, ret. simpl. split; [reflexivity | lia].
Qed.

(** ** The marker comment of refactor_parsers.py *)

Lemma sub_go_zero (p : pattern) (repl : mobj -> text) :
  forall (s : text) (k : nat), sub_go p repl (Some 0) s k = skipn k s.
Proof.
  induction s as [|c s IH]; intros [|k]; simpl; auto.
Qed.

Lemma sub_count1_prefix (p : pattern) (repl : mobj -> text) (a b : text) :
  none_starts_in p a b = true ->
  sub_go p repl (Some 1) (a ++ b) 0 = a ++ sub_go p repl (Some 1) b 0.
Proof.
  induction a as [|c a IH]; intros H; [reflexivity|].
  simpl in *. destruct (match_at p (c :: a ++ b)); [discriminate|].
  now rewrite IH.
Qed.

Lemma sub_count1_cases (p : pattern) (t : list piece) (s : text) :
  (search p s = false /\ sub_count p t 1 s = s)
  \/ exists a b m,
       s = a ++ b /\ none_starts_in p a b = true /\ match_at p b = Some m
       /\ sub_count p t 1 s = a ++ expand t m ++ skipn (m_len m) b.
Proof.
  unfold sub_count. destruct (search p s) eqn:E.
  - right. destruct (search_first _ _ E) as (a & b & m & -> & N & M).
    exists a, b, m. repeat split; auto.
    rewrite sub_count1_prefix by exact N. f_equal.
    pose proof (match_at_length _ _ M) as L.
    destruct b as [|c b]; simpl in *; rewrite M.
    + destruct (m_len m); [now rewrite app_nil_r | lia].
    + destruct (m_len m) as [|k]; simpl; now rewrite sub_go_zero.
  - left. split; [reflexivity | now apply sub_go_no_match].
Qed.

Lemma p14_shape (b : text) (n : nat) (m : marks) :
  run Parsers.p14 b 0 no_marks = Some (n, m) ->
  exists w1 w2 rest,
    all_space w1 = true /\ all_space w2 = true
    /\ b = register_opening w1 w2 ++ nl :: rest
    /\ n = S (length (register_opening w1 w2))
    /\ group (Mobj b n m) 1 = register_opening w1 w2.
Proof.
  change Parsers.p14
    with (Open 1 :: map Lit register_sig
          ++ Star sp :: Lit "{" :: Star sp :: Close 1 :: [Lit nl]).
  cbn [run]. rewrite run_lit. intros H.
  destruct (starts_with register_sig b) eqn:E0; [|discriminate].
  apply starts_with_skipn in E0. set (s0 := skipn _ b) in *.
  cbn [run] in H.
  apply star_k_inv in H as (w1 & s1 & E1 & W1 & H).
  destruct s1 as [|c1 s1]; [discriminate|].
  destruct (Ascii.eqb "{" c1) eqn:Ec; [|discriminate].
  apply Ascii.eqb_eq in Ec. subst c1.
  apply star_k_inv in H as (w2 & s2 & E2 & W2 & H).
  destruct s2 as [|c2 s2]; [discriminate|].
  destruct (Ascii.eqb nl c2) eqn:Ec; [|discriminate].
  apply Ascii.eqb_eq in Ec. subst c2.
  injection H as <- <-.
  assert (Eb : b = register_opening w1 w2 ++ nl :: s2).
  { unfold register_opening. rewrite <- !app_assoc.
    rewrite E0. f_equal. rewrite E1. f_equal. simpl. f_equal. exact E2. }
  exists w1, w2, s2. repeat split; auto.
  - unfold register_opening. rewrite !length_app. simpl. lia.
  - marks_out.
    apply group_span with (pre := []) (post := nl :: s2);
      [exact Eb | reflexivity |].
    unfold register_opening. rewrite !length_app. simpl. lia.
Qed.

Lemma rule_14_cases (original content : text) :
  Parsers.rule_14 original content = content
  \/ (contains register_sig content = true
      /\ original <> content
      /\ contains marker_head content = false
      /\ exists a w1 w2 b,
           all_space w1 = true /\ all_space w2 = true
           /\ content = a ++ register_opening w1 w2 ++ nl :: b
           /\ none_starts_in Parsers.p14 a (register_opening w1 w2 ++ nl :: b)
              = true
           /\ Parsers.rule_14 original content
              = a ++ register_opening w1 w2 ++ nl :: marker_line ++ b).
Proof.
  unfold Parsers.rule_14.
  destruct (contains register_sig content) eqn:Es; [|now left].
  destruct (text_eqb original content) eqn:Eo; [now left|].
  destruct (contains marker_head content) eqn:Em; [now left|].
  cbn [andb negb].
  destruct (sub_count1_cases Parsers.p14 Parsers.t14 content)
    as [[_ E] | (a & b & m & Ec & N & M & E)]; [now left|].
  right. repeat split; auto.
  - intros ->. now rewrite text_eqb_refl in Eo.
  - unfold match_at in M.
    destruct (run Parsers.p14 b 0 no_marks) as [[n mk]|] eqn:R;
      [|discriminate].
    injection M as <-.
    destruct (p14_shape _ R) as (w1 & w2 & rest & W1 & W2 & Eb & En & G).
    exists a, w1, w2, rest.
    split; [exact W1|]. split; [exact W2|].
    split; [now rewrite Ec, Eb|].
    split; [now rewrite <- Eb|].
    + rewrite E. unfold Parsers.t14, expand. cbn [flat_map m_len].
      rewrite G, app_nil_r, En.
      assert (Sk : skipn (S (length (register_opening w1 w2))) b = rest).
      { rewrite Eb.
        replace (register_opening w1 w2 ++ nl :: rest)
          with ((register_opening w1 w2 ++ [nl]) ++ rest)
          by (now rewrite <- app_assoc).
        replace (S (length (register_opening w1 w2)))
          with (length (register_opening w1 w2 ++ [nl]))
          by (rewrite length_app; simpl; lia).
        now rewrite skipn_app, skipn_all, Nat.sub_diag. }
      rewrite Sk. unfold marker_line. rewrite <- !app_assoc. reflexivity.
Qed.

(** Rule 14 either returns the text as it is, or (the text holds the
    [register] signature, an earlier rule changed it and the head of the
    marker is not in it) adds one marker line, right after the first line end
    that follows the signature, white space, an opening brace and white
    space; all other text stays in place. *)
Theorem marker_is_inserted_at_most_once (original content : text) :
  Parsers.rule_14 original content = content
  \/ (contains register_sig content = true
      /\ original <> content
      /\ contains marker_head content = false
      /\ exists a w1 w2 b,
           all_space w1 = true /\ all_space w2 = true
           /\ content = a ++ register_opening w1 w2 ++ nl :: b
           /\ none_starts_in Parsers.p14 a (register_opening w1 w2 ++ nl :: b)
              = true
           /\ Parsers.rule_14 original content
              = a ++ register_opening w1 w2 ++ nl :: marker_line ++ b).
Proof. apply rule_14_cases. Qed.

Lemma rule_14_once (original original' content : text) :
  Parsers.rule_14 original content <> content ->
  Parsers.rule_14 original' (Parsers.rule_14 original content)
  = Parsers.rule_14 original content.
Proof.
  intros H.
  destruct (rule_14_cases original content)
    as [E | (_ & _ & _ & a & w1 & w2 & b & _ & _ & _ & _ & E)];
    [congruence|].
  rewrite E. unfold Parsers.rule_14 at 1.
  assert (C : contains marker_head
                (a ++ register_opening w1 w2 ++ nl :: marker_line ++ b) = true).
  { apply contains_iff.
    exists (a ++ register_opening w1 w2 ++ nl :: str "    "),
           (str " - kernel handles all segmentation" ++ [nl] ++ b).
    unfold marker_line, marker, marker_head.
    rewrite <- !app_assoc. simpl. now rewrite <- !app_assoc. }
  rewrite C. simpl. now destruct (_ && _).
Qed.

(** Once rule 14 has added the marker, it adds no second one, whatever the
    original it is compared with. *)
Theorem marker_is_not_added_again (original original' content : text) :
  Parsers.rule_14 original content <> content ->
  Parsers.rule_14 original' (Parsers.rule_14 original content)
  = Parsers.rule_14 original content.
Proof. apply rule_14_once. Qed.

(** ** Rules that only delete *)

Lemma remains_refl (s : text) : remains s s.
Proof. induction s; constructor; auto. Qed.

Lemma remains_trans (a b c : text) : remains a b -> remains b c -> remains a c.
Proof.
  intros Hab Hbc. revert a Hab.
  induction Hbc as [|x b c Hbc IH|x b c Hbc IH]; intros a Hab.
  - exact Hab.
  - inversion Hab; subst; constructor; auto.
  - constructor. auto.
Qed.

Lemma remains_length (a b : text) : remains a b -> length a <= length b.
Proof. induction 1; simpl; lia. Qed.

Lemma sub_go_deletes (p : pattern) (s : text) :
  forall (count : option nat) (k : nat),
  remains (sub_go p (expand []) count s k) s.
Proof.
  induction s as [|c s IH]; intros count k.
  - destruct k; simpl; [|constructor].
    destruct count as [[|n]|]; try constructor;
      destruct (match_at p []); constructor.
  - destruct k; simpl; [|constructor; apply IH].
    destruct count as [[|n]|]; [apply remains_refl | |];
      (destruct (match_at p (c :: s)) as [m|];
       [destruct (m_len m); simpl; constructor; apply IH
       |constructor; apply IH]).
Qed.

Lemma sub_deletes (p : pattern) (s : text) : remains (sub p [] s) s.
Proof. apply sub_go_deletes. Qed.

(** The rules that take the import line and the registration calls out only
    delete: what [remove_token_registration], rule 12 and rule 13 of
    [refactor_content] return is their input with some characters removed,
    the others in their order, so it is never longer. *)
Theorem removal_rules_only_delete (s : text) :
  (remains (Lexeme.remove_token_registration s) s
   /\ length (Lexeme.remove_token_registration s) <= length s)
  /\ (remains (Parsers.rule_13 s) s /\ length (Parsers.rule_13 s) <= length s)
  /\ (remains (Parsers.rule_12 s) s /\ length (Parsers.rule_12 s) <= length s).
Proof.
  assert (R1 : remains (Lexeme.remove_token_registration s) s).
  { unfold Lexeme.remove_token_registration.
    eapply remains_trans; [apply sub_deletes|].
    eapply remains_trans; apply sub_deletes. }
  assert (R2 : remains (Parsers.rule_13 s) s).
  { unfold Parsers.rule_13.
    eapply remains_trans; [apply sub_deletes|].
    eapply remains_trans; apply sub_deletes. }
  assert (R3 : remains (Parsers.rule_12 s) s).
  { unfold Parsers.rule_12.
    destruct (_ && _); [apply sub_deletes | apply remains_refl]. }
  repeat split; auto using remains_length.
Qed.

(** ** The dispatcher augmenter *)

(** For a module name that is not a key of [LANG_LEXEMES] the table lookup
    gives the empty list, and the block is the one with a lone comma. *)
Theorem registration_of_unknown_module (lang_name : string) :
  existsb (String.eqb lang_name) (map fst Lexeme.LANG_LEXEMES) = false ->
  Lexeme.lookup_lexemes lang_name Lexeme.LANG_LEXEMES = []
  /\ Lexeme.registration lang_name = empty_registration.
Proof.
  intros H.
  assert (L : Lexeme.lookup_lexemes lang_name Lexeme.LANG_LEXEMES = []).
  { cbn [existsb map fst Lexeme.LANG_LEXEMES] in H.
    repeat (apply orb_false_iff in H as [? H]).
    cbn [Lexeme.lookup_lexemes Lexeme.LANG_LEXEMES].
    repeat match goal with
    | E : String.eqb lang_name ?k = false |- _ =>
        rewrite String.eqb_sym in E; rewrite E; clear E
    end. reflexivity. }
  split; [exact L|]. unfold Lexeme.registration. rewrite L. reflexivity.
Qed.

Lemma registration_of_unknown_module_witness :
  Lexeme.lookup_lexemes "lumen" Lexeme.LANG_LEXEMES = []
  /\ Lexeme.registration "lumen" = empty_registration.
Proof.
  apply (registration_of_unknown_module "lumen"). reflexivity.
Defined.

Lemma star_k_no_newline (q : pattern) (m : marks) (ind rest : text) :
  indentation ind = true -> stops sp rest = true ->
  forall pos,
  star_k sp (fun s' pos' => run (Lit nl :: q) s' pos' m) (ind ++ rest) pos
  = None.
Proof.
  intros Hi Hr. induction ind as [|a ind IH]; intros pos.
  - cbn [app]. destruct rest as [|c rest]; [reflexivity|].
    unfold stops in Hr. apply negb_true_iff in Hr.
    cbn [star_k]. rewrite Hr. cbn [run].
    destruct (Ascii.eqb nl c) eqn:E; [|reflexivity].
    apply Ascii.eqb_eq in E. subst c. vm_compute in Hr. discriminate.
  - unfold indentation in Hi. cbn [forallb] in Hi.
    apply andb_prop in Hi as [Ha Hi].
    apply andb_prop in Ha as [Ha Hn]. apply negb_true_iff in Hn.
    cbn [app star_k]. rewrite Ha, (IH Hi). cbn [run]. now rewrite Hn.
Qed.

Lemma star_then_newline (q : pattern) (ind rest : text) pos m r :
  indentation ind = true -> stops sp rest = true ->
  run q (ind ++ rest) (S pos) m = Some r ->
  run (Star sp :: Lit nl :: q) (nl :: ind ++ rest) pos m = Some r.
Proof.
  intros Hi Hr H.
  change (run (Star sp :: Lit nl :: q) (nl :: ind ++ rest) pos m)
    with (if cset_mem sp nl then
            match star_k sp (fun s' pos' => run (Lit nl :: q) s' pos' m)
                    (ind ++ rest) (S pos) with
            | Some r => Some r
            | None => run (Lit nl :: q) (nl :: ind ++ rest) pos m
            end
          else run (Lit nl :: q) (nl :: ind ++ rest) pos m).
  rewrite star_k_no_newline by assumption.
  change (cset_mem sp nl) with true. cbv iota.
  now apply run_lit1_ok.
Qed.

Lemma register_all_run (args ind rest : text) :
  args <> [] -> forallb (cset_mem not_rparen) args = true ->
  indentation ind = true -> stops sp rest = true ->
  exists n m,
    run Lexeme.p_register_all (register_all_line args ++ ind ++ rest) 0 no_marks
    = Some (n, m)
    /\ n = length (register_all_line args)
    /\ group (Mobj (register_all_line args ++ ind ++ rest) n m) 1
       = register_all_line args.
Proof.
  intros Ha Han Hi Hr. eexists _, _. split.
  - change Lexeme.p_register_all
      with (Open 1 :: map Lit (str "pub fn register_all(")
            ++ Plus not_rparen :: Lit ")" :: Lit " " :: Lit "{"
               :: Star sp :: Lit nl :: [Close 1]).
    unfold register_all_line. rewrite <- !app_assoc.
    apply run_open_ok. apply run_lit_ok.
    apply run_plus_ok; [exact Ha | exact Han | reflexivity |].
    cbn [app str list_ascii_of_string].
    repeat advance.
    apply star_then_newline; [exact Hi | exact Hr |].
    apply run_close_ok. reflexivity.
  - split.
    + unfold register_all_line. rewrite !length_app. simpl. lia.
    + marks_out.
      apply group_span with (pre := []) (post := ind ++ rest).
      * reflexivity.
      * reflexivity.
      * unfold register_all_line. rewrite !length_app. simpl. lia.
Qed.

Lemma augment_after_line
    (lang_name : string) (pre args ind rest : text) :
  args <> [] -> forallb (cset_mem not_rparen) args = true ->
  indentation ind = true -> stops sp rest = true ->
  none_starts_in Lexeme.p_register_all pre
    (register_all_line args ++ ind ++ rest) = true ->
  Lexeme.augment lang_name (pre ++ register_all_line args ++ ind ++ rest)
  = pre ++ register_all_line args ++ Lexeme.registration lang_name
    ++ Lexeme.augment lang_name (ind ++ rest).
Proof.
  intros Ha Han Hi Hr Hpre. unfold Lexeme.augment.
  rewrite sub_prefix by exact Hpre. f_equal.
  destruct (@register_all_run args ind rest Ha Han Hi Hr) as (n & m & R & Hn & G).
  rewrite (@sub_at_match _ _ _
             (Mobj (register_all_line args ++ ind ++ rest) n m)).
  - unfold expand. cbn [flat_map m_len]. rewrite G, app_nil_r.
    rewrite Hn, skipn_app, skipn_all, Nat.sub_diag. simpl skipn.
    now rewrite <- app_assoc.
  - unfold match_at. now rewrite R.
  - cbn [m_len]. rewrite Hn, length_app. unfold register_all_line.
    rewrite !length_app. simpl. lia.
Qed.

(** [update_dispatcher]'s rewrite: where the [register_all] line stands with
    parameters that hold no closing parenthesis, followed by the indented
    first line of the body, the block of the module's lexemes, in the order
    of the table, is put right after that line; the text before it and the
    line itself stay as they are. *)
Theorem augment_puts_block_after_register_all
    (lang_name : string) (pre args ind rest : text) :
  args <> [] -> forallb (cset_mem not_rparen) args = true ->
  indentation ind = true -> stops sp rest = true ->
  none_starts_in Lexeme.p_register_all pre
    (register_all_line args ++ ind ++ rest) = true ->
  Lexeme.augment lang_name (pre ++ register_all_line args ++ ind ++ rest)
  = pre ++ register_all_line args ++ Lexeme.registration lang_name
    ++ Lexeme.augment lang_name (ind ++ rest).
Proof. apply augment_after_line. Qed.

Lemma augment_puts_block_witness :
  Lexeme.augment "mini_c"
    (str "use x;" ++ [nl] ++ register_all_line (str "registry: &mut Registry")
     ++ str "    " ++ str "a::register(registry);")
  = (str "use x;" ++ [nl]) ++ register_all_line (str "registry: &mut Registry")
    ++ Lexeme.registration "mini_c"
    ++ Lexeme.augment "mini_c" (str "    " ++ str "a::register(registry);").
Proof.
  rewrite <- app_assoc.
  apply (augment_puts_block_after_register_all "mini_c"
           (str "use x;" ++ [nl]) (args := str "registry: &mut Registry")
           (str "    ") (str "a::register(registry);"));
    try discriminate; vm_compute; reflexivity.
Defined.

Lemma marker_is_not_added_again_witness :
  Parsers.rule_14 register_text
    (Parsers.rule_14 register_text (Parsers.rule_13 register_text))
  = Parsers.rule_14 register_text (Parsers.rule_13 register_text).
Proof.
  apply (@marker_is_not_added_again register_text register_text
           (Parsers.rule_13 register_text)).
  intros H. vm_compute in H. discriminate H.
Defined.

Lemma lookup_lexemes_cases (lang_name : string) :
  In (Lexeme.lookup_lexemes lang_name Lexeme.LANG_LEXEMES)
     ([] :: map snd Lexeme.LANG_LEXEMES).
Proof.
  cbn [Lexeme.lookup_lexemes Lexeme.LANG_LEXEMES map snd].
  repeat match goal with
  | |- context [String.eqb ?k lang_name] =>
      destruct (String.eqb k lang_name);
      [cbn [In]; repeat (try (left; reflexivity); right); fail|]
  end.
  now left.
Qed.

Lemma registration_holds_no_anchor (lang_name : string) (x : text) :
  none_starts_in Lexeme.p_register_all (Lexeme.registration lang_name) x = true.
Proof.
  unfold Lexeme.registration.
  pose proof (lookup_lexemes_cases lang_name) as H.
  cbn [map snd Lexeme.LANG_LEXEMES In] in H.
  repeat (destruct H as [<- | H]; [vm_compute; reflexivity|]).
  destruct H.
Qed.

(** [update_dispatcher] does not look for a block it wrote before: applied
    to its own output, the rewrite puts the module's block a second time
    after the [register_all] line. *)
Theorem augment_twice_duplicates_block
    (lang_name : string) (args ind rest : text) :
  args <> [] -> forallb (cset_mem not_rparen) args = true ->
  indentation ind = true -> stops sp rest = true ->
  Lexeme.augment lang_name
    (Lexeme.augment lang_name (register_all_line args ++ ind ++ rest))
  = register_all_line args ++ Lexeme.registration lang_name
    ++ Lexeme.registration lang_name
    ++ Lexeme.augment lang_name (Lexeme.augment lang_name (ind ++ rest)).
Proof.
  intros Ha Han Hi Hr.
  pose proof (@augment_after_line lang_name [] args ind rest Ha Han Hi Hr
                eq_refl) as E1.
  rewrite !app_nil_l in E1. rewrite E1.
  set (x := Lexeme.augment lang_name (ind ++ rest)).
  pose proof (@augment_after_line lang_name [] args (str "    ")
                (skipn 4 (Lexeme.registration lang_name) ++ x)
                Ha Han eq_refl eq_refl eq_refl) as E2.
  rewrite !app_nil_l in E2.
  change (str "    " ++ skipn 4 (Lexeme.registration lang_name) ++ x)
    with (Lexeme.registration lang_name ++ x) in E2.
  rewrite E2. f_equal. f_equal.
  unfold Lexeme.augment at 1.
  now rewrite sub_prefix by apply registration_holds_no_anchor.
Qed.

Lemma augment_twice_duplicates_block_witness :
  Lexeme.augment "mini_sh"
    (Lexeme.augment "mini_sh"
       (register_all_line (str "registry: &mut Registry")
        ++ str "    " ++ str "a::register(registry);"))
  = register_all_line (str "registry: &mut Registry")
    ++ Lexeme.registration "mini_sh" ++ Lexeme.registration "mini_sh"
    ++ Lexeme.augment "mini_sh"
         (Lexeme.augment "mini_sh" (str "    " ++ str "a::register(registry);")).
Proof.
  apply (@augment_twice_duplicates_block "mini_sh"
           (str "registry: &mut Registry") (str "    ")
           (str "a::register(registry);"));
    try discriminate; reflexivity.
Defined.

(** ** The files a run touches *)

Section Confined.

Variable D : string -> bool.
Variable G : string -> list string.

Lemma confined_ret (ok : string -> Prop) A (a : A) (Q : A -> Prop) :
  Q a -> confined D G ok (ret a) Q.
Proof.
  intros H w Hd Hg. repeat split; auto.
  - exists []. now rewrite app_nil_r.
  - intros a' E. injection E as <-. exact H.
Qed.

Lemma confined_bind (ok : string -> Prop) A B (m : M A) (f : A -> M B)
    (Q : A -> Prop) (Q' : B -> Prop) :
  confined D G ok m Q -> (forall a, Q a -> confined D G ok (f a) Q') ->
  confined D G ok (bind m f) Q'.
Proof.
  intros Hm Hf w Hd Hg. unfold bind.
  destruct (Hm w Hd Hg) as ((Hd1 & Hg1) & (n1 & T1 & F1) & V1).
  destruct (m w) as [[a|e] w1]; simpl in *.
  - destruct (Hf a (V1 a eq_refl) w1 Hd1 Hg1)
      as ((Hd2 & Hg2) & (n2 & T2 & F2) & V2).
    repeat split; auto.
    exists (n1 ++ n2). rewrite T2, T1, app_assoc. split; [reflexivity|].
    apply Forall_app. now split.
  - repeat split; auto; [now exists n1 | discriminate].
Qed.

Lemma confined_try (ok : string -> Prop) A (m : M A) (h : string -> M A)
    (Q : A -> Prop) :
  confined D G ok m Q -> (forall e, confined D G ok (h e) Q) ->
  confined D G ok (try_except m h) Q.
Proof.
  intros Hm Hh w Hd Hg. unfold try_except.
  destruct (Hm w Hd Hg) as ((Hd1 & Hg1) & (n1 & T1 & F1) & V1).
  destruct (m w) as [[a|e] w1]; simpl in *.
  - repeat split; auto. now exists n1.
  - destruct (Hh e w1 Hd1 Hg1) as ((Hd2 & Hg2) & (n2 & T2 & F2) & V2).
    repeat split; auto.
    exists (n1 ++ n2). rewrite T2, T1, app_assoc. split; [reflexivity|].
    apply Forall_app. now split.
Qed.

Lemma confined_weaken (ok ok' : string -> Prop) A (m : M A) (Q Q' : A -> Prop) :
  (forall q, ok q -> ok' q) -> (forall a, Q a -> Q' a) ->
  confined D G ok m Q -> confined D G ok' m Q'.
Proof.
  intros Hok HQ Hm w Hd Hg.
  destruct (Hm w Hd Hg) as (K & (n & T & F) & V).
  repeat split; try apply K; auto.
  exists n. split; [exact T|].
  eapply Forall_impl; [|exact F]. intros [q|q t|l]; simpl; auto.
Qed.

Lemma confined_print (ok : string -> Prop) (l : line) :
  confined D G ok (print l) (fun _ => True).
Proof.
  intros w Hd Hg. repeat split; auto.
  exists [Print l]. split; [reflexivity|]. now repeat constructor.
Qed.

Lemma confined_read (ok : string -> Prop) (q : string) :
  ok q -> confined D G ok (read_text q) (fun _ => True).
Proof.
  intros H w Hd Hg. unfold read_text.
  assert (T : exists new, trace (emit (Read q) w) = trace w ++ new
                          /\ Forall (only_on ok) new).
  { exists [Read q]. split; [reflexivity|]. now repeat constructor. }
  destruct (files w q) as [f|]; [destruct (f_data f)|]; repeat split; auto.
Qed.

Lemma confined_write (ok : string -> Prop) (q : string) (t : text) :
  ok q -> confined D G ok (write_text q t) (fun _ => True).
Proof.
  intros H w Hd Hg. unfold write_text.
  assert (T : exists new, trace (emit (Write q t) w) = trace w ++ new
                          /\ Forall (only_on ok) new).
  { exists [Write q t]. split; [reflexivity|]. now repeat constructor. }
  destruct (files w q) as [f|]; [destruct (f_locked f)|]; repeat split; auto.
Qed.

Lemma confined_dir_exists (ok : string -> Prop) (d : string) :
  confined D G ok (dir_exists d) (fun b => b = D d).
Proof.
  intros w Hd Hg. repeat split; auto.
  - exists []. now rewrite app_nil_r.
  - intros a E. injection E as <-. now rewrite Hd.
Qed.

Lemma confined_rglob (ok : string -> Prop) (d : string) :
  confined D G ok (rglob d) (fun l => l = G d).
Proof.
  intros w Hd Hg. repeat split; auto.
  - exists []. now rewrite app_nil_r.
  - intros a E. injection E as <-. now rewrite Hg.
Qed.

Lemma confined_file_exists (ok : string -> Prop) (q : string) :
  confined D G ok (file_exists q) (fun _ => True).
Proof.
  intros w Hd Hg. repeat split; auto.
  exists []. now rewrite app_nil_r.
Qed.

Lemma confined_for_each (ok : string -> Prop) A S (l : list A)
    (body : A -> S -> M S) :
  (forall x st, In x l -> confined D G ok (body x st) (fun _ => True)) ->
  forall st, confined D G ok (for_each l body st) (fun _ => True).
Proof.
  induction l as [|x l IH]; intros H st; simpl.
  - now apply confined_ret.
  - eapply confined_bind; [apply H; now left|].
    intros st' _. apply IH. intros y s Hy. apply H. now right.
Qed.

Lemma process_file_with_confined (refactor : text -> text) (q : string) :
  confined D G (eq q) (process_file_with refactor q) (fun _ => True).
Proof.
  unfold process_file_with. apply confined_try.
  - eapply confined_bind; [now apply confined_read|]. intros content _.
    destruct (negb _); [|now apply confined_ret].
    eapply confined_bind; [now apply confined_write|]. intros _ _.
    eapply confined_bind; [apply confined_print|]. intros _ _.
    now apply confined_ret.
  - intros e. eapply confined_bind; [apply confined_print|]. intros _ _.
    now apply confined_ret.
Qed.

Lemma count_files_confined (refactor : text -> text) (l : list string)
    (st : nat * nat) :
  confined D G (fun q => In q (filter (fun f => negb (is_example f)) l))
    (count_files (process_file_with refactor) l st) (fun _ => True).
Proof.
  unfold count_files. apply confined_for_each. intros q [c t] Hq.
  destruct (is_example q) eqn:E; [now apply confined_ret|].
  apply confined_bind with (Q := fun _ => True).
  - apply confined_weaken with (ok := eq q) (Q := fun _ => True);
      [ intros q' <-; apply filter_In; now rewrite E
      | auto
      | apply process_file_with_confined ].
  - intros [|] _; now apply confined_ret.
Qed.

End Confined.

Lemma eligible_one_in (lang : string) (langs : list string) (w : world) q :
  In lang langs -> In q (eligible [lang] w) -> In q (eligible langs w).
Proof.
  intros Hl Hq. unfold eligible in *. apply in_flat_map.
  exists lang. split; [exact Hl|].
  simpl in Hq. now rewrite app_nil_r in Hq.
Qed.

Lemma counting_module_confined (refactor : text -> text)
    (header : string -> M unit) (w0 : world) (lang : string) (st : nat * nat) :
  (forall l, confined (is_dir w0) (rglob_rs w0)
               (fun q => In q (eligible [lang] w0)) (header l) (fun _ => True)) ->
  confined (is_dir w0) (rglob_rs w0) (fun q => In q (eligible [lang] w0))
    (present <- dir_exists (pjoin base ("src_" ++ lang)%string) ;;
     if (present : bool) then
       header lang ;;;
       rs_files <- rglob (pjoin base ("src_" ++ lang)%string) ;;
       count_files (process_file_with refactor) rs_files st
     else ret st)
    (fun _ => True).
Proof.
  intros Hh.
  eapply confined_bind; [apply confined_dir_exists|]. intros b Hb.
  destruct b; [|now apply confined_ret].
  eapply confined_bind; [apply Hh|]. intros _ _.
  eapply confined_bind; [apply confined_rglob|]. intros l ->.
  eapply confined_weaken; [| |apply count_files_confined]; [|auto].
  intros q Hq. rewrite (eligible_cons lang []), <- Hb, app_nil_r. exact Hq.
Qed.

Lemma parsers_main_confined (w0 : world) :
  confined (is_dir w0) (rglob_rs w0)
    (fun q => In q (eligible ParsersMain.langs w0)) ParsersMain.main
    (fun _ => True).
Proof.
  unfold ParsersMain.main.
  eapply confined_bind with (Q := fun _ => True).
  - apply confined_for_each. intros lang st Hl.
    eapply confined_weaken with (Q := fun _ => True);
      [intros q; apply (eligible_one_in _ _ _ _ Hl) | auto |].
    unfold ParsersMain.process_module, ParsersMain.process_file.
    apply (counting_module_confined Parsers.refactor_content
             (fun l => print LRule ;;; print (LProcessing l) ;;; print LRule)).
    intros l. repeat (eapply confined_bind; [apply confined_print|]; intros _ _).
    apply confined_print.
  - intros st _.
    repeat (eapply confined_bind; [apply confined_print|]; intros _ _).
    now apply confined_ret.
Qed.

Lemma phase2_main_confined (w0 : world) :
  confined (is_dir w0) (rglob_rs w0)
    (fun q => In q (eligible Phase2Main.langs w0)) Phase2Main.main
    (fun _ => True).
Proof.
  unfold Phase2Main.main.
  eapply confined_bind with (Q := fun _ => True).
  - apply confined_for_each. intros lang st Hl.
    eapply confined_weaken with (Q := fun _ => True);
      [intros q; apply (eligible_one_in _ _ _ _ Hl) | auto |].
    unfold Phase2Main.process_module, Phase2Main.process_file.
    apply (counting_module_confined Phase2.refactor_content_phase2
             (fun l => print (LProcessing l))).
    intros l. apply confined_print.
  - intros st _.
    repeat (eapply confined_bind; [apply confined_print|]; intros _ _).
    now apply confined_ret.
Qed.

Lemma confined_events (w : world) (ok : string -> Prop) A (m : M A)
    (Q : A -> Prop) :
  confined (is_dir w) (rglob_rs w) ok m Q ->
  Forall (only_on ok) (events m w).
Proof.
  intros H. destruct (H w eq_refl eq_refl) as (_ & (new & T & F) & _).
  now rewrite (events_of _ _ _ T).
Qed.

(** The two counting scripts read and write eligible files only: every read
    and every write of [main] is on a file listed under a module root that
    exists, whose path does not hold [examples]. *)
Theorem counting_mains_touch_eligible_files_only (w : world) :
  Forall (only_on (fun q => In q (eligible ParsersMain.langs w)))
         (events ParsersMain.main w)
  /\ Forall (only_on (fun q => In q (eligible Phase2Main.langs w)))
            (events Phase2Main.main w).
Proof.
  split; eapply confined_events.
  - apply parsers_main_confined.
  - apply phase2_main_confined.
Qed.

Section LexemeConfined.

Variable w0 : world.

Lemma lexeme_process_file_confined (q : string) :
  confined (is_dir w0) (rglob_rs w0)
    (fun p => p = q /\ is_example q = false)
    (LexemeMain.process_file q) (fun _ => True).
Proof.
  unfold LexemeMain.process_file.
  destruct (is_example q) eqn:E; [now apply confined_ret|].
  eapply confined_bind; [now apply confined_read|]. intros content _.
  destruct (negb _); [|now apply confined_ret].
  eapply confined_bind; [now apply confined_write|]. intros _ _.
  apply confined_print.
Qed.

Lemma update_dispatcher_confined (lang_path lang_name : string) :
  confined (is_dir w0) (rglob_rs w0)
    (eq (pjoin lang_path ("src_" ++ lang_name ++ ".rs")%string))
    (LexemeMain.update_dispatcher lang_path lang_name) (fun _ => True).
Proof.
  unfold LexemeMain.update_dispatcher.
  eapply confined_bind; [apply confined_file_exists|]. intros [|] _;
    [|now apply confined_ret].
  eapply confined_bind; [now apply confined_read|]. intros content _.
  eapply confined_bind; [now apply confined_write|]. intros _ _.
  apply confined_print.
Qed.

Lemma lexeme_main_confined :
  confined (is_dir w0) (rglob_rs w0)
    (fun q => In q (eligible (map fst Lexeme.LANG_LEXEMES) w0)
              \/ In q (dispatch_files w0))
    LexemeMain.main (fun _ => True).
Proof.
  unfold LexemeMain.main.
  apply confined_for_each. intros lang [] Hl.
  eapply confined_bind; [apply confined_dir_exists|]. intros b Hb.
  destruct b; [|now apply confined_ret].
  eapply confined_bind; [apply confined_print|]. intros _ _.
  eapply confined_bind with (Q := fun _ => True).
  - eapply confined_weaken with (Q := fun _ => True);
      [| auto | apply update_dispatcher_confined].
    intros q <-. right. unfold dispatch_files. apply in_flat_map.
    exists lang. split; [exact Hl|]. rewrite <- Hb. now left.
  - intros _ _.
    eapply confined_bind; [apply confined_rglob|]. intros l ->.
    apply confined_for_each. intros q [] Hq.
    eapply confined_weaken with (Q := fun _ => True);
      [| auto | apply lexeme_process_file_confined].
    intros p [-> E]. left. unfold eligible. apply in_flat_map.
    exists lang. split; [exact Hl|]. rewrite <- Hb.
    apply filter_In. now rewrite E.
Qed.

End LexemeConfined.

(** refactor_to_lexeme.py reads and writes only the dispatch files of the
    module roots that exist and the files listed under those roots whose path
    does not hold [examples]. *)
Theorem lexeme_main_touches_listed_files_only (w : world) :
  Forall
    (only_on (fun q => In q (eligible (map fst Lexeme.LANG_LEXEMES) w)
                       \/ In q (dispatch_files w)))
    (events LexemeMain.main w).
Proof.
  eapply confined_events. apply lexeme_main_confined.
Qed.

(** ** The peek rule and the head of a match block *)

Lemma rule1_run (c post : text) :
  c <> [] -> forallb (cset_mem upper_) c = true ->
  exists n m,
    run Parsers.p1 (peek_feature c ++ post) 0 no_marks = Some (n, m)
    /\ n = length (peek_feature c)
    /\ group (Mobj (peek_feature c ++ post) n m) 1 = c.
Proof.
  intros Hc Hcu. eexists _, _. split.
  - unfold peek_feature, Parsers.p1.
    rewrite <- !app_assoc.
    cbn [app str list_ascii_of_string lit map ws0 ws1 grp].
    repeat advance.
    apply run_plus_ok; [exact Hc | exact Hcu | reflexivity |].
    repeat advance.
  - split.
    + unfold peek_feature. rewrite !length_app. simpl. lia.
    + marks_out.
      apply group_span
        with (pre := str "matches!(parser.peek(), Token::Feature(")
             (post := str "))" ++ post).
      * unfold peek_feature. now rewrite <- !app_assoc.
      * simpl. lia.
      * simpl. lia.
Qed.

(** Rule 1 of [refactor_content], which is pattern 1 of
    [refactor_token_matches] too: the peek test against a constant of
    capitals and underscores becomes the comparison of the lexeme with that
    constant, copied as it is, and the scan goes on after it. *)
Theorem rule1_rewrites_peek_test (pre c post : text) :
  c <> [] -> forallb (cset_mem upper_) c = true ->
  none_starts_in Parsers.p1 pre (peek_feature c ++ post) = true ->
  sub Parsers.p1 Parsers.t1 (pre ++ peek_feature c ++ post)
  = pre ++ peek_lexeme c ++ sub Parsers.p1 Parsers.t1 post.
Proof.
  intros Hc Hcu Hpre.
  rewrite sub_prefix by exact Hpre. f_equal.
  destruct (rule1_run post Hc Hcu) as (n & m & R & Hn & G1).
  rewrite (@sub_at_match _ _ _ (Mobj (peek_feature c ++ post) n m)).
  - unfold Parsers.t1, expand. cbn [flat_map]. rewrite G1.
    cbn [m_len]. rewrite Hn, skipn_app, skipn_all, Nat.sub_diag.
    unfold peek_lexeme. simpl skipn. now rewrite <- !app_assoc.
  - unfold match_at. now rewrite R.
  - cbn [m_len]. rewrite Hn, length_app. unfold peek_feature.
    rewrite !length_app. simpl. lia.
Qed.

Lemma rule1_rewrites_peek_test_witness :
  sub Parsers.p1 Parsers.t1
    (str "if " ++ peek_feature (str "LPAREN") ++ str " { }")
  = str "if " ++ peek_lexeme (str "LPAREN")
    ++ sub Parsers.p1 Parsers.t1 (str " { }").
Proof.
  apply (@rule1_rewrites_peek_test (str "if ") (str "LPAREN") (str " { }"));
    try discriminate; vm_compute; reflexivity.
Defined.

Lemma p7_run (variant post : text) :
  variant = str "Ident" \/ variant = str "Number" ->
  exists n m,
    run Lexeme.p7 (advance_head variant ++ post) 0 no_marks = Some (n, m)
    /\ n = length (advance_head variant).
Proof.
  intros [-> | ->]; eexists _, _; (split; [|reflexivity]);
    vm_compute; reflexivity.
Qed.

(** Pattern 7 of [refactor_token_matches] takes only the head of the match
    block: [match parser.advance() { Token::Ident(s) => s,] (or [Number])
    becomes [let lexeme = parser.advance().lexeme;] and whatever follows it,
    the other arm and the closing brace included, is left where it was. *)
Theorem pattern7_takes_the_head_only (pre variant post : text) :
  variant = str "Ident" \/ variant = str "Number" ->
  none_starts_in Lexeme.p7 pre (advance_head variant ++ post) = true ->
  sub Lexeme.p7 Lexeme.t7 (pre ++ advance_head variant ++ post)
  = pre ++ let_lexeme ++ sub Lexeme.p7 Lexeme.t7 post.
Proof.
  intros Hv Hpre.
  rewrite sub_prefix by exact Hpre. f_equal.
  destruct (p7_run post Hv) as (n & m & R & Hn).
  rewrite (@sub_at_match _ _ _ (Mobj (advance_head variant ++ post) n m)).
  - unfold Lexeme.t7, expand. cbn [flat_map m_len].
    now rewrite app_nil_r, Hn, skipn_app, skipn_all, Nat.sub_diag.
  - unfold match_at. now rewrite R.
  - cbn [m_len]. rewrite Hn, length_app.
    destruct Hv as [-> | ->]; simpl; lia.
Qed.

Lemma pattern7_takes_the_head_only_witness :
  sub Lexeme.p7 Lexeme.t7
    (str "let n = " ++ advance_head (str "Number")
     ++ str " _ => unreachable!() };")
  = str "let n = " ++ let_lexeme
    ++ sub Lexeme.p7 Lexeme.t7 (str " _ => unreachable!() };").
Proof.
  apply (@pattern7_takes_the_head_only (str "let n = ") (str "Number")
           (str " _ => unreachable!() };"));
    [now right | vm_compute; reflexivity].
Defined.

(** * The marker comment and the import on concrete files *)

(** C4: a [register] function whose body is three registration calls. Both
    scripts take the calls out together with the line end after the opening
    brace, the pattern that adds the marker needs that line end, and the
    marker is not added: the function is left as an empty pair of braces.
    In refactor_parsers.py the marker goes into a file from which no call
    was taken out when another rule changed the file; refactor_to_lexeme.py,
    run on its own output, adds the marker line a second time. *)
Theorem marker_missing_after_removal :
  Parsers.refactor_content Cases.three_calls
  = str "pub fn register(reg: &mut Registry) {}" ++ [nl]
  /\ Lexeme.transform Cases.three_calls
     = str "pub fn register(reg: &mut Registry) {}" ++ [nl]
  /\ contains (str "reg.tokens.") Cases.no_call = false
  /\ Parsers.refactor_content Cases.no_call
     = str "pub fn register(reg: &mut Registry) {" ++ [nl]
       ++ marker_line
       ++ str "    a::register(reg);" ++ [nl]
       ++ str "}" ++ [nl]
       ++ str "let d = " ++ digit_check ++ str ";" ++ [nl]
  /\ Lexeme.transform Cases.surviving_call
     = str "pub fn register(reg: &mut Registry) {" ++ [nl]
       ++ marker_line
       ++ str "    // Keywords    reg.tokens.set_mode(B);" ++ [nl]
       ++ str "}" ++ [nl]
  /\ Lexeme.transform (Lexeme.transform Cases.surviving_call)
     = str "pub fn register(reg: &mut Registry) {" ++ [nl]
       ++ marker_line ++ marker_line
       ++ str "    // Keywords    reg.tokens.set_mode(B);" ++ [nl]
       ++ str "}" ++ [nl].
Proof. repeat split; vm_compute; reflexivity. Qed.

(** C7: the import and a [register] function whose registration call holds
    the only [Token::] of the file. The test for [Token::] is made before the
    calls are taken out, so the import stays although the output holds the
    word [Token] nowhere else. An import at the end of the file without a
    line end stays too. Where the type is named without [::], the import is
    taken out and the name stays. *)
Theorem import_removal_misjudges_use :
  Parsers.refactor_content Cases.last_use_in_call
  = token_import ++ [nl; nl]
    ++ str "pub fn register(reg: &mut Registry) {" ++ [nl]
    ++ marker_line
    ++ str "    // keywords}" ++ [nl]
  /\ contains (str "Token")
       ([nl] ++ str "pub fn register(reg: &mut Registry) {" ++ [nl]
        ++ marker_line ++ str "    // keywords}" ++ [nl])
     = false
  /\ Parsers.refactor_content Cases.import_at_end = Cases.import_at_end
  /\ contains (str "Token") (str "fn f() {}" ++ [nl]) = false
  /\ Parsers.refactor_content Cases.plain_use
     = str "fn kind(t: &Token) -> u8 { 0 }" ++ [nl]
  /\ contains token_import Cases.plain_use = true.
Proof. repeat split; vm_compute; reflexivity. Qed.

(** * The consume-and-expect construct through the whole pipeline *)

Lemma absent_char (ch : ascii) (s : text) :
  ~ In ch s -> contains [ch] s = false.
Proof.
  intros H. destruct (contains [ch] s) eqn:E; [|reflexivity].
  apply contains_iff in E as (a & b & ->). elim H.
  apply in_app_iff. right. now left.
Qed.

Lemma absent_literal (ch : ascii) (l s : text) :
  In ch l -> ~ In ch s -> contains l s = false.
Proof.
  intros I H. destruct (contains l s) eqn:E; [|reflexivity].
  apply contains_iff in E as (a & b & ->). elim H.
  apply in_app_iff. right. apply in_app_iff. now left.
Qed.

Lemma simple_error_char (e : text) (ch : ascii) :
  simple_error e = true -> In ch (str ")!:" ++ [nl]) -> ~ In ch e.
Proof.
  intros H I J. unfold simple_error in H. rewrite forallb_forall in H.
  specialize (H ch J). apply negb_true_iff in H.
  assert (X : existsb (Ascii.eqb ch) (str ")!:" ++ [nl]) = true).
  { apply existsb_exists. exists ch. split; [exact I | apply Ascii.eqb_refl]. }
  congruence.
Qed.

Lemma simple_error_not_rparen (e : text) :
  simple_error e = true -> forallb (cset_mem not_rparen) e = true.
Proof.
  intros H. apply forallb_forall. intros x Hx.
  destruct (cset_mem not_rparen x) eqn:E; [reflexivity|]. exfalso.
  assert (X : x = ")"%char).
  { unfold not_rparen, cset_mem in E. cbn [existsb citem_mem] in E.
    rewrite orb_false_r in E. apply negb_false_iff, Ascii.eqb_eq in E.
    now symmetry. }
  subst x. revert Hx. apply simple_error_char; [exact H|]. now left.
Qed.

Lemma class_char (cs : cset) (c : text) (ch : ascii) :
  forallb (cset_mem cs) c = true -> cset_mem cs ch = false -> ~ In ch c.
Proof.
  intros H E I. rewrite forallb_forall in H. rewrite (H ch I) in E.
  discriminate.
Qed.

Lemma upper_in_upper_colon (c : text) :
  forallb (cset_mem upper_) c = true ->
  forallb (cset_mem upper_colon) c = true.
Proof.
  intros H. apply forallb_forall. intros x Hx.
  rewrite forallb_forall in H. specialize (H x Hx).
  unfold upper_, upper_colon, cset_mem in *. cbn [existsb] in *.
  rewrite orb_false_r in H. apply orb_prop in H as [-> | ->]; [reflexivity|].
  now rewrite orb_true_r.
Qed.

(** [ch] is in none of the parts of a text put together with [++]. *)
Ltac not_in_parts :=
  repeat match goal with
  | H : In _ (_ ++ _) |- _ => apply in_app_iff in H as [H | H]
  end;
  try (match goal with
       | H : In _ (str _) |- _ => vm_compute in H; intuition discriminate
       end);
  try contradiction.

Ltac in_literal :=
  vm_compute; repeat (first [left; reflexivity | right]).

Ltac skip_rule H :=
  match goal with
  | |- context [sub ?p ?t ?y] =>
      match type of H with
      | contains ?l y = false =>
          rewrite (@sub_no_match p t y (@search_anchor l p y eq_refl H))
      end
  end.

Section ConsumeExpect.

Variables c e : text.
Hypothesis c_some : c <> [].
Hypothesis c_upper : forallb (cset_mem upper_) c = true.
Hypothesis e_some : e <> [].
Hypothesis e_simple : simple_error e = true.

Lemma expect_check_without (ch : ascii) :
  In ch (str ":" ++ [nl]) -> ~ In ch (expect_check c e).
Proof.
  intros I J.
  assert (Ce : ~ In ch e).
  { apply simple_error_char; [exact e_simple|].
    destruct I as [<- | [<- | []]]; vm_compute; auto. }
  assert (Cc : ~ In ch c).
  { apply (@class_char upper_ c _ c_upper).
    destruct I as [<- | [<- | []]]; vm_compute; reflexivity. }
  unfold expect_check in J.
  destruct I as [<- | [<- | []]]; not_in_parts.
Qed.

Lemma parsers_on_consume_expect :
  Parsers.refactor_content (consume_expect c e) = expect_check c e.
Proof.
  assert (X : contains (str "!") (consume_expect c e) = false).
  { apply absent_char. intros J.
    assert (Ce : ~ In "!"%char e)
      by (apply simple_error_char; [exact e_simple | vm_compute; auto]).
    assert (Cc : ~ In "!"%char c)
      by (apply (@class_char upper_ c _ c_upper); vm_compute; reflexivity).
    unfold consume_expect in J. not_in_parts. }
  assert (Yc : contains (str ":") (expect_check c e) = false).
  { apply absent_char, expect_check_without. vm_compute; auto. }
  assert (Yn : contains [nl] (expect_check c e) = false).
  { apply absent_char, expect_check_without. vm_compute; auto. }
  assert (R9 : sub Parsers.p9 Parsers.t9 (consume_expect c e)
               = expect_check c e).
  { pose proof (@rule9_at [] c e [] c_some c_upper e_some
                  (@simple_error_not_rparen e e_simple) eq_refl) as R.
    cbn [app] in R. rewrite (app_nil_r (consume_expect c e)) in R.
    rewrite R. change (sub Parsers.p9 Parsers.t9 []) with (@nil ascii).
    apply app_nil_r. }
  unfold Parsers.refactor_content, Parsers.rules_1_11.
  do 10 skip_rule X. rewrite R9.
  do 2 skip_rule Yc.
  assert (T : contains token_ref (expect_check c e) = false).
  { apply (@absent_literal ":"%char); [in_literal|].
    apply expect_check_without. vm_compute; auto. }
  assert (I : contains token_import (expect_check c e) = false).
  { apply (@absent_literal ":"%char); [in_literal|].
    apply expect_check_without. vm_compute; auto. }
  assert (S : contains register_sig (expect_check c e) = false).
  { apply (@absent_literal ":"%char); [in_literal|].
    apply expect_check_without. vm_compute; auto. }
  unfold Parsers.rule_12. rewrite T, I. cbn [negb andb].
  unfold Parsers.rule_13. do 3 skip_rule Yn.
  unfold Parsers.rule_14. rewrite S. cbn [andb].
  unfold Parsers.rule_15. do 2 skip_rule Yn. reflexivity.
Qed.

Lemma phase2_on_consume_expect :
  Phase2.refactor_content_phase2 (consume_expect_direct c e)
  = expect_check c e.
Proof.
  assert (X : contains (str "!") (consume_expect_direct c e) = false).
  { apply absent_char. intros J.
    assert (Ce : ~ In "!"%char e)
      by (apply simple_error_char; [exact e_simple | vm_compute; auto]).
    assert (Cc : ~ In "!"%char c)
      by (apply (@class_char upper_ c _ c_upper); vm_compute; reflexivity).
    unfold consume_expect_direct in J. not_in_parts. }
  assert (Yc : contains (str ":") (expect_check c e) = false).
  { apply absent_char, expect_check_without. vm_compute; auto. }
  assert (R3 : sub Phase2.p3 Phase2.t3 (consume_expect_direct c e)
               = expect_check c e).
  { pose proof (@phase2_rule3_at [] c e [] c_some
                  (@upper_in_upper_colon c c_upper) e_some
                  (@simple_error_not_rparen e e_simple) eq_refl) as R.
    cbn [app] in R. rewrite (app_nil_r (consume_expect_direct c e)) in R.
    rewrite R. change (sub Phase2.p3 Phase2.t3 []) with (@nil ascii).
    apply app_nil_r. }
  unfold Phase2.refactor_content_phase2.
  do 2 skip_rule X. rewrite R3.
  do 4 skip_rule Yc. reflexivity.
Qed.

End ConsumeExpect.




(** * The boolean alternation (rule 6) *)

(** The texts rule 6 matches hold the letter [m] at their start only. *)
Lemma alternation_one_m (w1 w2 w3 : text) :
  all_space w1 = true -> all_space w2 = true -> all_space w3 = true ->
  exists t, bool_alternation w1 w2 w3 = "m"%char :: t /\ ~ In "m"%char t.
Proof.
  intros W1 W2 W3.
  exists (str "atches!(parser.peek()," ++ w1 ++ bool_true ++ w2 ++ str "|"
          ++ w3 ++ bool_false).
  split; [reflexivity|]. intros J.
  assert (N1 : ~ In "m"%char w1) by (apply (@class_char sp w1 _ W1); reflexivity).
  assert (N2 : ~ In "m"%char w2) by (apply (@class_char sp w2 _ W2); reflexivity).
  assert (N3 : ~ In "m"%char w3) by (apply (@class_char sp w3 _ W3); reflexivity).
  unfold bool_true, bool_false in J. not_in_parts.
Qed.

(** A match of rule 6 cannot begin before a letter [m] and end behind it. *)
Lemma p6_none_starts_extend (a b y : text) :
  none_starts_in Parsers.p6 a b = true ->
  (y = [] \/ exists y', y = "m"%char :: y') ->
  none_starts_in Parsers.p6 a (b ++ y) = true.
Proof.
  intros H Y. induction a as [|c a IH]; [reflexivity|].
  cbn [none_starts_in] in *.
  destruct (match_at Parsers.p6 ((c :: a) ++ b)) eqn:Eb; [discriminate|].
  destruct (match_at Parsers.p6 ((c :: a) ++ b ++ y)) eqn:Ey;
    [|now apply IH].
  exfalso. unfold match_at in Ey.
  destruct (run Parsers.p6 _ 0 no_marks) as [r|] eqn:R; [|discriminate].
  apply p6_shape in R as (w1 & w2 & w3 & rest & E & W1 & W2 & W3).
  rewrite app_assoc in E.
  apply app_eq_app in E as [l [[E1 E2] | [E1 E2]]].
  - rewrite E1 in Eb. now apply (@p6_complete w1 w2 w3 l).
  - destruct l as [|x l].
    + rewrite app_nil_r in E1. rewrite <- E1 in Eb.
      apply (@p6_complete w1 w2 w3 []); auto. now rewrite app_nil_r.
    + destruct Y as [-> | [y' ->]]; [discriminate|].
      injection E2 as <- _.
      destruct (@alternation_one_m w1 w2 w3 W1 W2 W3) as (t & Et & Nt).
      rewrite Et in E1. cbn [app] in E1. injection E1 as _ E1.
      apply Nt. rewrite E1. apply in_app_iff. right. now left.
Qed.

Lemma search_none_starts (p : pattern) (x : text) :
  search p x = false -> none_starts_in p x [] = true.
Proof.
  induction x as [|c x IH]; [reflexivity|].
  cbn [search none_starts_in]. rewrite app_nil_r.
  destruct (match_at p (c :: x)); [discriminate | exact IH].
Qed.

(** A match of rule 6 is the same match when more text follows. *)
Lemma p6_match_longer (b y : text) (m : mobj) :
  match_at Parsers.p6 b = Some m ->
  exists m', match_at Parsers.p6 (b ++ y) = Some m' /\ m_len m' = m_len m.
Proof.
  unfold match_at. intros M.
  destruct (run Parsers.p6 b 0 no_marks) as [[n mk]|] eqn:R; [|discriminate].
  injection M as <-.
  pose proof R as R'.
  apply p6_shape in R' as (w1 & w2 & w3 & rest & -> & W1 & W2 & W3).
  destruct (@p6_run w1 w2 w3 rest W1 W2 W3) as (n1 & m1 & R1 & Hn1).
  destruct (@p6_run w1 w2 w3 (rest ++ y) W1 W2 W3) as (n2 & m2 & R2 & Hn2).
  rewrite R in R1. injection R1 as <- <-.
  rewrite <- app_assoc, R2.
  eexists. split; [reflexivity|]. cbn [m_len]. congruence.
Qed.

(** Rule 6 works on the text before a letter [m] and on the text from it on
    apart. *)
Lemma sub_p6_cut (n : nat) :
  forall x y, length x <= n ->
  (y = [] \/ exists y', y = "m"%char :: y') ->
  sub Parsers.p6 Parsers.t6a (x ++ y)
  = sub Parsers.p6 Parsers.t6a x ++ sub Parsers.p6 Parsers.t6a y.
Proof.
  induction n as [|n IH]; intros x y Hx Y.
  - destruct x; [reflexivity | simpl in Hx; lia].
  - pose proof (sub_cases "m" (tl Parsers.p6) Parsers.t6a x) as C.
    change (Lit "m" :: tl Parsers.p6) with Parsers.p6 in C.
    destruct C as [[S E] | (a & b & m & -> & N & M & L & E)].
    + rewrite E. apply sub_prefix.
      apply (@p6_none_starts_extend x [] y); [|exact Y].
      now apply search_none_starts.
    + rewrite E, <- !app_assoc.
      rewrite sub_prefix by (now apply p6_none_starts_extend).
      f_equal.
      destruct (@p6_match_longer b y m M) as (m' & M' & Lm).
      rewrite (@sub_at_match _ _ _ m' M')
        by (rewrite Lm, length_app; lia).
      unfold Parsers.t6a, expand. cbn [flat_map]. rewrite !app_nil_r.
      f_equal.
      rewrite Lm, skipn_app.
      replace (m_len m - length b) with 0 by lia. cbn [skipn].
      apply IH; [|exact Y].
      rewrite length_skipn. rewrite length_app in Hx. lia.
Qed.

(** Every text rule 6 matches is replaced, whatever stands around it. *)
Lemma rule6_everywhere (pre w1 w2 w3 post : text) :
  all_space w1 = true -> all_space w2 = true -> all_space w3 = true ->
  sub Parsers.p6 Parsers.t6a (pre ++ bool_alternation w1 w2 w3 ++ post)
  = sub Parsers.p6 Parsers.t6a pre ++ Parsers.bool_lower
    ++ sub Parsers.p6 Parsers.t6a post.
Proof.
  intros W1 W2 W3.
  rewrite (@sub_p6_cut (length pre) pre (bool_alternation w1 w2 w3 ++ post)
             (le_n _)).
  - f_equal.
    apply (@rule6_at [] w1 w2 w3 post W1 W2 W3 eq_refl).
  - right. destruct (@alternation_one_m w1 w2 w3 W1 W2 W3) as (t & -> & _).
    now exists (t ++ post).
Qed.

(** ** A literal across the boundaries of a text put together *)

Lemma starts_with_split (l u b : text) :
  starts_with l (u ++ b) = true ->
  starts_with l u = true
  \/ (length u < length l /\ starts_with (skipn (length u) l) b = true).
Proof.
  revert l. induction u as [|x u IH]; intros l H.
  - destruct l; [now left | right; split; [simpl; lia | exact H]].
  - destruct l as [|c l]; [now left|].
    cbn in H. apply andb_prop in H as [E H].
    destruct (IH l H) as [S | [L S]].
    + left. cbn. now rewrite E, S.
    + right. split; [simpl; lia | exact S].
Qed.

Lemma occurs_from_false (l a b : text) :
  contains l a = false -> no_border l b = true -> occurs_from l a b = false.
Proof.
  intros H B. induction a as [|x a IH]; [reflexivity|].
  cbn [occurs_from]. cbn [contains] in H.
  apply orb_false_iff in H as [S C]. rewrite (IH C), orb_false_r.
  destruct (starts_with l ((x :: a) ++ b)) eqn:E; [|reflexivity].
  apply starts_with_split in E as [E | [L E]]; [congruence|].
  unfold no_border in B. rewrite forallb_forall in B.
  specialize (B (length (x :: a))). rewrite E in B.
  assert (I : In (length (x :: a)) (seq 1 (length l - 1))).
  { apply in_seq. simpl in *. lia. }
  specialize (B I). discriminate.
Qed.

Lemma contains_app (l a b : text) :
  contains l (a ++ b) = occurs_from l a b || contains l b.
Proof.
  induction a as [|x a IH]; [reflexivity|].
  cbn [app contains occurs_from]. now rewrite IH, orb_assoc.
Qed.

(** [l] is in neither of [pre] and [post], and cannot reach into or out of
    [mid]: it is not in [pre ++ mid ++ post]. *)
Lemma contains_around (l pre mid post : text) :
  contains l pre = false -> contains l post = false ->
  no_border l (mid ++ post) = true -> occurs_from l mid post = false ->
  contains l (pre ++ mid ++ post) = false.
Proof.
  intros H1 H2 B O.
  now rewrite contains_app, (@occurs_from_false l pre _ H1 B), contains_app, O, H2.
Qed.

Lemma contains_longer (l l' s : text) :
  contains l s = false -> contains (l ++ l') s = false.
Proof.
  intros H. destruct (contains (l ++ l') s) eqn:E; [|reflexivity].
  apply contains_iff in E as (a & b & ->).
  rewrite <- H. symmetry. apply contains_iff.
  exists a, (l' ++ b). now rewrite <- app_assoc.
Qed.

(** ** Rule 1 around the boolean alternation *)

Lemma p1_start (b : text) :
  match_at Parsers.p1 b <> None ->
  exists w s,
    b = str "matches!(parser.peek()," ++ w ++ token_ref ++ s
    /\ all_space w = true.
Proof.
  unfold match_at. intros M.
  destruct (run Parsers.p1 b 0 no_marks) as [r|] eqn:H; [|now elim M].
  unfold Parsers.p1, lit, ws0 in H.
  rewrite run_lit in H.
  destruct (starts_with _ b) eqn:E0; [|discriminate].
  apply starts_with_skipn in E0. set (s0 := skipn _ b) in *.
  cbn [app] in H. cbn [run] in H.
  apply star_k_inv in H as (w1 & s1 & E1 & W1 & H).
  change (map Lit (str "Token::Feature(") ++ grp 1 [Plus upper_]
          ++ map Lit (str "))"))
    with (map Lit token_ref
          ++ (map Lit (str "Feature(") ++ grp 1 [Plus upper_]
              ++ map Lit (str "))"))) in H.
  rewrite run_lit in H.
  destruct (starts_with _ s1) eqn:E2; [|discriminate].
  apply starts_with_skipn in E2.
  exists w1, (skipn (length token_ref) s1). split; [|exact W1].
  rewrite E0. f_equal. rewrite E1. f_equal. exact E2.
Qed.

Lemma p1_none_before (pre y : text) :
  contains token_ref pre = false ->
  none_starts_in Parsers.p1 pre ("m"%char :: y) = true.
Proof.
  induction pre as [|c pre IH]; [reflexivity|]. intros H.
  assert (H' : contains token_ref pre = false).
  { cbn [contains] in H. now apply orb_false_iff in H. }
  cbn [none_starts_in].
  destruct (match_at Parsers.p1 ((c :: pre) ++ "m"%char :: y)) eqn:E;
    [|now apply IH].
  exfalso.
  destruct (@p1_start ((c :: pre) ++ "m"%char :: y)) as (w & s & Eb & W);
    [now rewrite E|].
  rewrite app_assoc in Eb.
  apply app_eq_app in Eb as [l [[E1 E2] | [E1 E2]]].
  - symmetry in E2.
    apply app_eq_app in E2 as [l2 [[E3 E4] | [E3 E4]]].
    + (* the literal lies in [pre] *)
      assert (X : contains token_ref (c :: pre) = true).
      { apply contains_iff.
        exists (str "matches!(parser.peek()," ++ w), l2.
        now rewrite E1, E3, <- !app_assoc. }
      congruence.
    + destruct l2 as [|x l2].
      * rewrite app_nil_r in E3.
        assert (X : contains token_ref (c :: pre) = true).
        { apply contains_iff.
          exists (str "matches!(parser.peek()," ++ w), [].
          now rewrite E1, <- E3, <- !app_assoc, app_nil_r. }
        congruence.
      * injection E4 as <- _.
        assert (I : In "m"%char token_ref).
        { rewrite E3. apply in_app_iff. right. now left. }
        vm_compute in I. intuition discriminate.
  - destruct l as [|x l].
    + cbn in E2. discriminate.
    + injection E2 as <- _.
      cbn [str list_ascii_of_string app] in E1. injection E1 as _ E1.
      assert (Nw : ~ In "m"%char w)
        by (apply (@class_char sp w _ W); reflexivity).
      assert (I : In "m"%char (pre ++ "m"%char :: l))
        by (apply in_app_iff; right; now left).
      rewrite <- E1 in I.
      repeat (destruct I as [I | I]; [discriminate|]).
      exact (Nw I).
Qed.

(** ** The alternation in a file where nothing else is to do *)

Ltac around :=
  apply contains_around;
  [ assumption || (apply contains_longer; assumption)
  | assumption || (apply contains_longer; assumption)
  | vm_compute; reflexivity
  | vm_compute; reflexivity ].

Lemma plain_context_parts (s : text) :
  plain_context s = true ->
  contains token_ref s = false
  /\ contains token_import s = false
  /\ contains (str "reg.tokens.") s = false
  /\ contains (str "// Register tokens") s = false
  /\ contains (str "// Token definitions") s = false
  /\ contains register_sig s = false.
Proof.
  unfold plain_context, unrelated. intros H.
  repeat (apply andb_prop in H as [H ?]).
  repeat match goal with
         | X : negb _ = true |- _ => apply negb_true_iff in X
         end.
  repeat split; assumption.
Qed.

Lemma parsers_on_alternation (pre post : text) :
  plain_context pre = true -> plain_context post = true ->
  Parsers.refactor_content (pre ++ bool_canonical ++ post)
  = pre ++ Parsers.bool_lower ++ post.
Proof.
  intros Hpre Hpost.
  apply plain_context_parts in Hpre as (A1 & A2 & A3 & A4 & A5 & A6).
  apply plain_context_parts in Hpost as (B1 & B2 & B3 & B4 & B5 & B6).
  set (S := pre ++ bool_canonical ++ post).
  set (S' := pre ++ Parsers.bool_lower ++ post).
  assert (R1 : search Parsers.p1 S = false).
  { apply search_app_intro.
    - apply (@p1_none_before pre
               (str "atches!(parser.peek(), Token::Feature(TRUE) | Token::Feature(FALSE))"
                ++ post) A1).
    - apply search_app_intro; [vm_compute; reflexivity|].
      now apply (@search_anchor token_ref). }
  assert (K2 : contains (token_ref ++ str "Feature(k)") S = false)
    by (unfold S; around).
  assert (K3 : contains (token_ref ++ str "Ident(") S = false)
    by (unfold S; around).
  assert (K5 : contains (token_ref ++ str "Number(") S = false)
    by (unfold S; around).
  assert (T : contains token_ref S' = false) by (unfold S'; around).
  assert (I : contains token_import S' = false) by (unfold S'; around).
  assert (G : contains (str "reg.tokens.") S' = false) by (unfold S'; around).
  assert (C1 : contains (str "// Register tokens") S' = false)
    by (unfold S'; around).
  assert (C2 : contains (str "// Token definitions") S' = false)
    by (unfold S'; around).
  assert (F : contains register_sig S' = false) by (unfold S'; around).
  assert (R6 : sub Parsers.p6 Parsers.t6a S = S').
  { unfold S, S'.
    change bool_canonical with (bool_alternation (str " ") (str " ") (str " ")).
    rewrite rule6_everywhere by reflexivity.
    rewrite (@sub_no_match Parsers.p6 Parsers.t6a pre
               (@search_anchor token_ref Parsers.p6 pre eq_refl A1)).
    now rewrite (@sub_no_match Parsers.p6 Parsers.t6a post
                   (@search_anchor token_ref Parsers.p6 post eq_refl B1)). }
  unfold Parsers.refactor_content, Parsers.rules_1_11.
  rewrite (@sub_no_match Parsers.p1 Parsers.t1 S R1).
  skip_rule K2. skip_rule K3. skip_rule K3. skip_rule K5.
  rewrite R6.
  do 7 skip_rule T.
  unfold Parsers.rule_12. rewrite T, I. cbn [negb andb].
  unfold Parsers.rule_13. do 3 skip_rule G.
  unfold Parsers.rule_14. rewrite F. cbn [andb].
  unfold Parsers.rule_15. skip_rule C1. skip_rule C2. reflexivity.
Qed.


